(** * Verification of gendata: cluster sampler and haversine distance engine

    The development embeds [src/gendata/main.py]:

    - [Float64]: the binary64 arithmetic that NumPy performs on the
      partition breakpoints, as round-to-nearest-even on rationals;
    - [Partition]: [np.diff(np.floor(np.linspace(0, n_pairs, n_clusters + 1)))];
    - [Sampler]: [generate_cluster] and [generate_pairs], with the global
      NumPy random generator threaded explicitly;
    - [Distance]: [haversine_distance] over one-dimensional arrays with
      NumPy's broadcasting rule. *)

From Stdlib Require Import ZArith QArith Qround Qpower Qabs Qminmax List Lia Bool.
From Stdlib Require Import SpecFloat.
From Stdlib Require String.
From Stdlib Require Import Reals Lra Lqa.
Import ListNotations.

(** ** Binary64 rounding on rationals *)

Module Float64.

Local Open Scope Q_scope.

(** A binary64 value is a rational [m * 2^e] with [|m| <= 2^53].  The
    exponent range is left unbounded: the breakpoints of the partition lie
    far inside the normal range, where overflow and subnormals play no
    role, and what is proved about coordinates does not depend on how the
    sum before the clamp rounds.  Overflow is observed at one place, the
    range check of [np.random.uniform], through [isfinite]. *)

Definition pow2 (k : Z) : Q := 2 ^ k.

(** [ilog2 x] is the binade of a positive [x]: [2^(ilog2 x) <= x < 2^(ilog2 x + 1)]. *)
Definition ilog2 (x : Q) : Z :=
  let k := (Z.log2 (Qnum x) - Z.log2 (Zpos (Qden x)))%Z in
  if Qle_bool (pow2 k) x then k else (k - 1)%Z.

(** Round to the nearest integer, ties to even. *)
Definition rne (s : Q) : Z :=
  let f := Qfloor s in
  match Qcompare (s - inject_Z f) (1 # 2) with
  | Lt => f
  | Gt => (f + 1)%Z
  | Eq => if Z.even f then f else (f + 1)%Z
  end.

(** Rounding of a positive rational to 53 significant bits. *)
Definition rnd53_pos (x : Q) : Q :=
  let e := (ilog2 x - 52)%Z in
  Qred (inject_Z (rne (x * pow2 (- e))) * pow2 e).

(** [rnd53] is the rounding applied by every binary64 operation. *)
Definition rnd53 (x : Q) : Q :=
  match Qcompare x 0 with
  | Eq => 0
  | Gt => rnd53_pos x
  | Lt => - rnd53_pos (- x)
  end.

(** The operations: the exact result, rounded.  Division is only ever
    applied to a non-zero divisor. *)
Definition of_int (n : Z) : Q := rnd53 (inject_Z n).
Definition fadd (x y : Q) : Q := rnd53 (x + y).
Definition fsub (x y : Q) : Q := rnd53 (x - y).
Definition fmul (x y : Q) : Q := rnd53 (x * y).
Definition fdiv (x y : Q) : Q := rnd53 (x / y).
Definition fneg (x : Q) : Q := - x.
Definition ffloor (x : Q) : Q := inject_Z (Qfloor x).

(** [float.astype(int)] truncates toward zero. *)
Definition astype_int (x : Q) : Z := Z.quot (Qnum x) (Zpos (Qden x)).

(** The largest binary64 number, [(2^53 - 1) * 2^971]: a rounded result
    of greater magnitude is an infinity in binary64.  [np.isfinite]. *)
Definition max_float : Q := inject_Z ((2 ^ 53 - 1) * 2 ^ 971).
Definition isfinite (x : Q) : bool := Qle_bool (Qabs x) max_float.

(** *** Powers of two *)

Lemma pow2_pos k : 0 < pow2 k.
Proof. apply Qpower_0_lt. reflexivity. Qed.

Lemma pow2_plus a b : pow2 (a + b) == pow2 a * pow2 b.
Proof. unfold pow2. apply Qpower_plus. discriminate. Qed.

Lemma pow2_opp a : pow2 (- a) == / pow2 a.
Proof. unfold pow2. apply Qpower_opp. Qed.

Lemma pow2_cancel a : pow2 (- a) * pow2 a == 1.
Proof.
  rewrite <- pow2_plus. replace (- a + a)%Z with 0%Z by lia. reflexivity.
Qed.

Lemma pow2_lt a b : (a < b)%Z -> pow2 a < pow2 b.
Proof. intros. apply Qpower_lt_compat_l; [assumption | reflexivity]. Qed.

Lemma pow2_le a b : (a <= b)%Z -> pow2 a <= pow2 b.
Proof. intros. apply Qpower_le_compat_l; [assumption | discriminate]. Qed.

Lemma pow2_lt_inv a b : pow2 a < pow2 b -> (a < b)%Z.
Proof. intros. apply Qpower_lt_compat_l_inv with (q := 2); [assumption | reflexivity]. Qed.

Lemma pow2_inject k : (0 <= k)%Z -> inject_Z (2 ^ k) == pow2 k.
Proof. intros. unfold pow2. rewrite Zpower_Qpower by assumption. reflexivity. Qed.

Lemma pow2_S k : pow2 (k + 1) == 2 * pow2 k.
Proof. rewrite pow2_plus. unfold pow2 at 2. simpl. ring. Qed.

(** *** The binade of a positive rational *)

Lemma ilog2_spec x : 0 < x -> pow2 (ilog2 x) <= x /\ x < pow2 (ilog2 x + 1).
Proof.
  intros Hx. unfold ilog2.
  destruct x as [a b]. cbn [Qnum Qden].
  assert (Ha : (0 < a)%Z) by (unfold Qlt in Hx; simpl in Hx; lia).
  destruct (Z.log2_spec a Ha) as [Ha1 Ha2].
  destruct (Z.log2_spec (Zpos b) (Pos2Z.is_pos b)) as [Hb1 Hb2].
  pose proof (Z.log2_nonneg a) as Hla.
  pose proof (Z.log2_nonneg (Zpos b)) as Hlb.
  set (la := Z.log2 a) in *. set (lb := Z.log2 (Zpos b)) in *.
  rewrite Zle_Qle in Ha1, Hb1. rewrite Zlt_Qlt in Ha2, Hb2.
  rewrite pow2_inject in Ha1, Hb1, Ha2, Hb2 by lia.
  unfold Z.succ in Ha2, Hb2. rewrite pow2_S in Ha2, Hb2.
  assert (Hk : pow2 (la - lb) * pow2 lb == pow2 la).
  { rewrite <- pow2_plus. replace (la - lb + lb)%Z with la by lia. reflexivity. }
  assert (Hx' : (a # b) * inject_Z (Zpos b) == inject_Z a).
  { rewrite Qmake_Qdiv. field. discriminate. }
  pose proof (pow2_pos lb) as Hpb. pose proof (pow2_pos (la - lb)) as Hpk.
  assert (Hk1 : pow2 (la - lb - 1 + 1) == pow2 (la - lb)).
  { replace (la - lb - 1 + 1)%Z with (la - lb)%Z by lia. reflexivity. }
  assert (Hk2 : 2 * pow2 (la - lb - 1) == pow2 (la - lb)).
  { rewrite <- pow2_S. exact Hk1. }
  generalize dependent (a # b). intros x Hx Hx'.
  generalize dependent (inject_Z a). generalize dependent (inject_Z (Zpos b)).
  intros B HB1 HB2 A HA1 HA2 HxB.
  destruct (Qle_bool (pow2 (la - lb)) x) eqn:E.
  - apply Qle_bool_iff in E. split; [exact E|].
    rewrite pow2_S.
    destruct (Qlt_le_dec x (2 * pow2 (la - lb))) as [|C]; [assumption|exfalso].
    nra.
  - assert (E' : x < pow2 (la - lb)).
    { apply Qnot_le_lt. intros C. apply Qle_bool_iff in C. congruence. }
    split; [| rewrite Hk1; exact E'].
    destruct (Qlt_le_dec x (pow2 (la - lb - 1))) as [C|]; [exfalso|assumption].
    nra.
Qed.

Lemma ilog2_unique x k : pow2 k <= x -> x < pow2 (k + 1) -> ilog2 x = k.
Proof.
  intros H1 H2.
  assert (Hx : 0 < x) by (eapply Qlt_le_trans; [apply pow2_pos | exact H1]).
  destruct (ilog2_spec x Hx) as [H3 H4].
  assert (pow2 (ilog2 x) < pow2 (k + 1)) by (eapply Qle_lt_trans; eassumption).
  assert (pow2 k < pow2 (ilog2 x + 1)) by (eapply Qle_lt_trans; eassumption).
  apply pow2_lt_inv in H. apply pow2_lt_inv in H0. lia.
Qed.

Lemma ilog2_mono x y : 0 < x -> x <= y -> (ilog2 x <= ilog2 y)%Z.
Proof.
  intros Hx Hxy.
  assert (Hy : 0 < y) by (eapply Qlt_le_trans; eassumption).
  destruct (ilog2_spec x Hx) as [H1 _]. destruct (ilog2_spec y Hy) as [_ H2].
  assert (pow2 (ilog2 x) < pow2 (ilog2 y + 1)).
  { eapply Qle_lt_trans; [exact H1|]. eapply Qle_lt_trans; eassumption. }
  apply pow2_lt_inv in H. lia.
Qed.

(** *** Rounding to the nearest integer *)

Lemma rne_cases s : rne s = Qfloor s \/ rne s = (Qfloor s + 1)%Z.
Proof.
  unfold rne. destruct (Qcompare _ _); [destruct (Z.even _)|..]; auto.
Qed.

Lemma rne_near s :
  inject_Z (rne s) - s <= 1 # 2 /\ s - inject_Z (rne s) <= 1 # 2.
Proof.
  pose proof (Qfloor_le s) as H1. pose proof (Qlt_floor s) as H2.
  rewrite inject_Z_plus in H2. unfold rne.
  destruct (Qcompare_spec (s - inject_Z (Qfloor s)) (1 # 2)) as [E|E|E].
  - destruct (Z.even (Qfloor s)); [|rewrite inject_Z_plus];
      change (inject_Z 1) with 1 in *; split; lra.
  - change (inject_Z 1) with 1 in *. split; lra.
  - rewrite inject_Z_plus. change (inject_Z 1) with 1 in *. split; lra.
Qed.

Lemma rne_inject n : rne (inject_Z n) = n.
Proof.
  unfold rne. rewrite Qfloor_Z.
  destruct (Qcompare_spec (inject_Z n - inject_Z n) (1 # 2)) as [E|E|E];
    [exfalso; lra | reflexivity | exfalso; lra].
Qed.

Lemma rne_mono s t : s <= t -> (rne s <= rne t)%Z.
Proof.
  intros Hst.
  pose proof (Qfloor_resp_le _ _ Hst) as Hf.
  destruct (Z.eq_dec (Qfloor s) (Qfloor t)) as [E|N].
  - unfold rne. rewrite <- E.
    destruct (Qcompare_spec (s - inject_Z (Qfloor s)) (1 # 2)) as [E1|E1|E1];
    destruct (Qcompare_spec (t - inject_Z (Qfloor s)) (1 # 2)) as [E2|E2|E2];
      try destruct (Z.even (Qfloor s)); try lia; exfalso; lra.
  - destruct (rne_cases s) as [-> | ->], (rne_cases t) as [-> | ->]; lia.
Qed.

Lemma rne_eq s n : s == inject_Z n -> rne s = n.
Proof.
  intros E. apply Z.le_antisymm.
  - rewrite <- (rne_inject n). apply rne_mono. lra.
  - rewrite <- (rne_inject n) at 1. apply rne_mono. lra.
Qed.

(** *** Rounding to 53 bits: positive arguments *)

Lemma scaled_range x :
  0 < x ->
  pow2 52 <= x * pow2 (- (ilog2 x - 52)) /\ x * pow2 (- (ilog2 x - 52)) < pow2 53.
Proof.
  intros Hx. destruct (ilog2_spec x Hx) as [H1 H2].
  set (L := ilog2 x) in *.
  pose proof (pow2_pos (- (L - 52))) as Hp.
  assert (E1 : pow2 L * pow2 (- (L - 52)) == pow2 52).
  { rewrite <- pow2_plus. replace (L + - (L - 52))%Z with 52%Z by lia. reflexivity. }
  assert (E2 : pow2 (L + 1) * pow2 (- (L - 52)) == pow2 53).
  { rewrite <- pow2_plus. replace (L + 1 + - (L - 52))%Z with 53%Z by lia. reflexivity. }
  split.
  - rewrite <- E1. apply Qmult_le_compat_r; [exact H1 | now apply Qlt_le_weak].
  - rewrite <- E2. apply Qmult_lt_r; assumption.
Qed.

Lemma rnd53_pos_val x :
  rnd53_pos x ==
  inject_Z (rne (x * pow2 (- (ilog2 x - 52)))) * pow2 (ilog2 x - 52).
Proof. unfold rnd53_pos. apply Qred_correct. Qed.

Lemma rne_scaled_range x :
  0 < x ->
  (2 ^ 52 <= rne (x * pow2 (- (ilog2 x - 52))) <= 2 ^ 53)%Z.
Proof.
  intros Hx. destruct (scaled_range x Hx) as [H1 H2].
  rewrite <- (rne_inject (2 ^ 52)), <- (rne_inject (2 ^ 53)).
  split; apply rne_mono.
  - rewrite pow2_inject by lia. exact H1.
  - rewrite pow2_inject by lia. now apply Qlt_le_weak.
Qed.

Lemma rnd53_pos_lower x : 0 < x -> pow2 (ilog2 x) <= rnd53_pos x.
Proof.
  intros Hx. rewrite rnd53_pos_val.
  destruct (rne_scaled_range x Hx) as [H _].
  rewrite Zle_Qle, pow2_inject in H by lia.
  set (L := ilog2 x) in *.
  assert (E : pow2 52 * pow2 (L - 52) == pow2 L).
  { rewrite <- pow2_plus. replace (52 + (L - 52))%Z with L by lia. reflexivity. }
  rewrite <- E. apply Qmult_le_compat_r; [exact H|]. apply Qlt_le_weak, pow2_pos.
Qed.

Lemma rnd53_pos_upper x : 0 < x -> rnd53_pos x <= pow2 (ilog2 x + 1).
Proof.
  intros Hx. rewrite rnd53_pos_val.
  destruct (rne_scaled_range x Hx) as [_ H].
  rewrite Zle_Qle, pow2_inject in H by lia.
  set (L := ilog2 x) in *.
  assert (E : pow2 53 * pow2 (L - 52) == pow2 (L + 1)).
  { rewrite <- pow2_plus. replace (53 + (L - 52))%Z with (L + 1)%Z by lia. reflexivity. }
  rewrite <- E. apply Qmult_le_compat_r; [exact H|]. apply Qlt_le_weak, pow2_pos.
Qed.

Lemma rnd53_pos_gt0 x : 0 < x -> 0 < rnd53_pos x.
Proof.
  intros Hx. eapply Qlt_le_trans; [apply (pow2_pos (ilog2 x)) | now apply rnd53_pos_lower].
Qed.

Lemma rnd53_pos_mono x y : 0 < x -> x <= y -> rnd53_pos x <= rnd53_pos y.
Proof.
  intros Hx Hxy.
  assert (Hy : 0 < y) by (eapply Qlt_le_trans; eassumption).
  pose proof (ilog2_mono x y Hx Hxy) as HL.
  destruct (Z.eq_dec (ilog2 x) (ilog2 y)) as [E|N].
  - rewrite !rnd53_pos_val, E.
    apply Qmult_le_compat_r; [| apply Qlt_le_weak, pow2_pos].
    rewrite <- Zle_Qle. apply rne_mono.
    apply Qmult_le_compat_r; [exact Hxy | apply Qlt_le_weak, pow2_pos].
  - eapply Qle_trans; [apply rnd53_pos_upper; exact Hx|].
    eapply Qle_trans; [| apply rnd53_pos_lower; exact Hy].
    apply pow2_le. lia.
Qed.

(** The unit roundoff of binary64. *)
Definition u53 : Q := pow2 (-53).

Lemma rnd53_pos_err x :
  0 < x -> rnd53_pos x - x <= x * u53 /\ x - rnd53_pos x <= x * u53.
Proof.
  intros Hx. destruct (ilog2_spec x Hx) as [H1 _].
  pose proof (rnd53_pos_val x) as Hv.
  set (L := ilog2 x) in *.
  destruct (rne_near (x * pow2 (- (L - 52)))) as [N1 N2].
  set (m := inject_Z (rne (x * pow2 (- (L - 52))))) in *.
  pose proof (pow2_pos (L - 52)) as Hp.
  pose proof (pow2_cancel (L - 52)) as Hc.
  assert (Eh : pow2 (L - 52) == 2 * (pow2 L * u53)).
  { unfold u53. rewrite <- pow2_plus, <- pow2_S.
    replace (L + -53 + 1)%Z with (L - 52)%Z by lia. reflexivity. }
  assert (Hu : 0 < u53) by apply pow2_pos.
  set (p := pow2 (L - 52)) in *. set (q := pow2 (- (L - 52))) in *.
  assert (Ex : x == (x * q) * p) by (rewrite <- Qmult_assoc, Hc; ring).
  set (s := x * q) in *.
  assert (B : pow2 L * u53 <= x * u53)
    by (apply Qmult_le_compat_r; [exact H1 | now apply Qlt_le_weak]).
  rewrite Hv. split; nra.
Qed.

Lemma rnd53_pos_exact x k :
  0 < x -> x * pow2 (- (ilog2 x - 52)) == inject_Z k -> rnd53_pos x == x.
Proof.
  intros Hx Hk. rewrite rnd53_pos_val, (rne_eq _ _ Hk), <- Hk.
  rewrite <- Qmult_assoc, pow2_cancel. ring.
Qed.

Lemma rnd53_pos_int x n :
  x == inject_Z n -> (0 < n <= 2 ^ 53)%Z -> rnd53_pos x == x.
Proof.
  intros Hn Hr.
  assert (Hx : 0 < x) by (rewrite Hn; change 0 with (inject_Z 0); rewrite <- Zlt_Qlt; lia).
  destruct (Z.eq_dec n (2 ^ 53)) as [E|N].
  - assert (HL : ilog2 x = 53%Z).
    { apply ilog2_unique; rewrite Hn, E, pow2_inject by lia;
        [apply Qle_refl | apply pow2_lt; lia]. }
    apply rnd53_pos_exact with (k := (2 ^ 52)%Z); [exact Hx|].
    rewrite HL, Hn, E, !pow2_inject, <- pow2_plus by lia. reflexivity.
  - destruct (ilog2_spec x Hx) as [H1 H2].
    assert (H0 : (0 <= ilog2 x)%Z).
    { assert (pow2 0 < pow2 (ilog2 x + 1)).
      { eapply Qle_lt_trans; [|exact H2]. rewrite Hn.
        change (pow2 0) with (inject_Z 1). rewrite <- Zle_Qle. lia. }
      apply pow2_lt_inv in H. lia. }
    assert (HL : (ilog2 x < 53)%Z).
    { apply pow2_lt_inv. eapply Qle_lt_trans; [exact H1|].
      rewrite Hn, <- pow2_inject, <- Zlt_Qlt by lia. lia. }
    apply rnd53_pos_exact with (k := (n * 2 ^ (52 - ilog2 x))%Z); [exact Hx|].
    rewrite inject_Z_mult, pow2_inject, <- Hn by lia.
    replace (- (ilog2 x - 52))%Z with (52 - ilog2 x)%Z by lia. reflexivity.
Qed.

(** *** Rounding to 53 bits: all arguments *)

Lemma rnd53_zero x : x == 0 -> rnd53 x = 0.
Proof.
  intros E. unfold rnd53.
  destruct (Qcompare_spec x 0) as [_|C|C]; [reflexivity | exfalso; lra ..].
Qed.

Lemma rnd53_gt x : 0 < x -> rnd53 x = rnd53_pos x.
Proof.
  intros H. unfold rnd53.
  destruct (Qcompare_spec x 0) as [C|C|C]; [exfalso; lra .. | reflexivity].
Qed.

Lemma rnd53_lt x : x < 0 -> rnd53 x = - rnd53_pos (- x).
Proof.
  intros H. unfold rnd53.
  destruct (Qcompare_spec x 0) as [C|C|C]; [exfalso; lra | reflexivity | exfalso; lra].
Qed.

Lemma rnd53_sign_cases x :
  (x < 0 /\ rnd53 x < 0) \/ (x == 0 /\ rnd53 x == 0) \/ (0 < x /\ 0 < rnd53 x).
Proof.
  destruct (Qcompare_spec x 0) as [C|C|C].
  - right; left. split; [exact C|]. rewrite (rnd53_zero x C). reflexivity.
  - left. split; [exact C|]. rewrite (rnd53_lt x C).
    assert (0 < rnd53_pos (- x)) by (apply rnd53_pos_gt0; lra). lra.
  - right; right. split; [exact C|]. rewrite (rnd53_gt x C).
    now apply rnd53_pos_gt0.
Qed.

Lemma rnd53_mono x y : x <= y -> rnd53 x <= rnd53 y.
Proof.
  intros Hxy.
  destruct (Qcompare_spec x 0) as [Cx|Cx|Cx], (Qcompare_spec y 0) as [Cy|Cy|Cy];
    try (exfalso; lra).
  - rewrite (rnd53_zero x Cx), (rnd53_zero y Cy). apply Qle_refl.
  - rewrite (rnd53_zero x Cx), (rnd53_gt y Cy).
    apply Qlt_le_weak, rnd53_pos_gt0, Cy.
  - rewrite (rnd53_lt x Cx), (rnd53_zero y Cy).
    assert (0 < rnd53_pos (- x)) by (apply rnd53_pos_gt0; lra). lra.
  - rewrite (rnd53_lt x Cx), (rnd53_lt y Cy).
    assert (rnd53_pos (- y) <= rnd53_pos (- x)) by (apply rnd53_pos_mono; lra). lra.
  - rewrite (rnd53_lt x Cx), (rnd53_gt y Cy).
    assert (0 < rnd53_pos (- x)) by (apply rnd53_pos_gt0; lra).
    assert (0 < rnd53_pos y) by (apply rnd53_pos_gt0; lra). lra.
  - rewrite (rnd53_gt x Cx), (rnd53_gt y Cy). now apply rnd53_pos_mono.
Qed.

#[global] Instance rnd53_comp : Proper (Qeq ==> Qeq) rnd53.
Proof.
  intros x y E. apply Qle_antisym; apply rnd53_mono; lra.
Qed.

Lemma rnd53_nonneg x : 0 <= x -> 0 <= rnd53 x.
Proof.
  intros H. change 0 with (rnd53 0). now apply rnd53_mono.
Qed.

(** Integers up to [2^53] in magnitude are binary64 values. *)
Lemma rnd53_int x n :
  x == inject_Z n -> (Z.abs n <= 2 ^ 53)%Z -> rnd53 x == x.
Proof.
  intros Hn Hr.
  destruct (Z.lt_trichotomy n 0) as [C|[C|C]].
  - assert (Hx : x < 0) by (rewrite Hn; change 0 with (inject_Z 0); rewrite <- Zlt_Qlt; lia).
    rewrite (rnd53_lt x Hx).
    rewrite (rnd53_pos_int (- x) (- n)); [ring | rewrite Hn, inject_Z_opp; reflexivity | lia].
  - subst n. rewrite (rnd53_zero x Hn). symmetry. exact Hn.
  - assert (Hx : 0 < x) by (rewrite Hn; change 0 with (inject_Z 0); rewrite <- Zlt_Qlt; lia).
    rewrite (rnd53_gt x Hx). apply (rnd53_pos_int x n); [exact Hn | lia].
Qed.

Lemma of_int_exact n : (Z.abs n <= 2 ^ 53)%Z -> of_int n == inject_Z n.
Proof. intros H. apply (rnd53_int _ n); [reflexivity | exact H]. Qed.

(** The standard model of rounding: the relative error is at most [u53]. *)
Lemma rnd53_err x :
  0 <= x -> x * (1 - u53) <= rnd53 x /\ rnd53 x <= x * (1 + u53).
Proof.
  intros H. destruct (Qcompare_spec x 0) as [C|C|C]; [| exfalso; lra |].
  - rewrite (rnd53_zero x C), C. split; ring_simplify; apply Qle_refl.
  - rewrite (rnd53_gt x C). destruct (rnd53_pos_err x C). split; lra.
Qed.

Lemma u53_val : u53 == 1 # 9007199254740992.
Proof. reflexivity. Qed.

(** Rounding is idempotent: a binary64 value rounds to itself. *)
Lemma rnd53_pos_idem x : 0 < x -> rnd53_pos (rnd53_pos x) == rnd53_pos x.
Proof.
  intros Hx.
  pose proof (rnd53_pos_gt0 x Hx) as Hv.
  pose proof (rnd53_pos_val x) as Ev.
  destruct (rne_scaled_range x Hx) as [M1 M2].
  set (L := ilog2 x) in *. set (m := rne (x * pow2 (- (L - 52)))) in *.
  set (v := rnd53_pos x) in *.
  destruct (Z.eq_dec m (2 ^ 53)) as [E|N].
  - assert (Ev' : v == pow2 (L + 1)).
    { rewrite Ev, E, pow2_inject, <- pow2_plus by lia.
      replace (53 + (L - 52))%Z with (L + 1)%Z by lia. reflexivity. }
    assert (HL : ilog2 v = (L + 1)%Z).
    { apply ilog2_unique; rewrite Ev'; [apply Qle_refl | apply pow2_lt; lia]. }
    apply rnd53_pos_exact with (k := (2 ^ 52)%Z); [exact Hv|].
    rewrite HL, Ev', pow2_inject, <- pow2_plus by lia.
    replace (L + 1 + - (L + 1 - 52))%Z with 52%Z by lia. reflexivity.
  - assert (E1 : pow2 52 * pow2 (L - 52) == pow2 L).
    { rewrite <- pow2_plus. replace (52 + (L - 52))%Z with L by lia. reflexivity. }
    assert (E2 : pow2 53 * pow2 (L - 52) == pow2 (L + 1)).
    { rewrite <- pow2_plus. replace (53 + (L - 52))%Z with (L + 1)%Z by lia. reflexivity. }
    pose proof (pow2_pos (L - 52)) as Hp.
    assert (HL : ilog2 v = L).
    { apply ilog2_unique; rewrite Ev.
      - rewrite <- E1. apply Qmult_le_compat_r; [| now apply Qlt_le_weak].
        rewrite <- pow2_inject, <- Zle_Qle by lia. exact M1.
      - rewrite <- E2. apply Qmult_lt_r; [exact Hp|].
        rewrite <- pow2_inject, <- Zlt_Qlt by lia. lia. }
    apply rnd53_pos_exact with (k := m); [exact Hv|].
    rewrite HL, Ev, <- Qmult_assoc.
    rewrite (Qmult_comm (pow2 (L - 52))), pow2_cancel. ring.
Qed.

Lemma rnd53_idem x : rnd53 (rnd53 x) == rnd53 x.
Proof.
  destruct (Qcompare_spec x 0) as [C|C|C].
  - rewrite (rnd53_zero x C). reflexivity.
  - rewrite (rnd53_lt x C).
    assert (H : 0 < rnd53_pos (- x)) by (apply rnd53_pos_gt0; lra).
    rewrite rnd53_lt by lra.
    assert (E : - - rnd53_pos (- x) == rnd53_pos (- x)) by ring.
    assert (E' : rnd53_pos (- - rnd53_pos (- x)) == rnd53_pos (rnd53_pos (- x))).
    { apply Qle_antisym; apply rnd53_pos_mono; lra. }
    rewrite E', rnd53_pos_idem by lra. reflexivity.
  - rewrite (rnd53_gt x C), rnd53_gt by (now apply rnd53_pos_gt0).
    now apply rnd53_pos_idem.
Qed.

Lemma Qmult_le_l' x y z : 0 <= z -> x <= y -> z * x <= z * y.
Proof.
  intros Hz Hxy. rewrite !(Qmult_comm z). now apply Qmult_le_compat_r.
Qed.

(** Two roundings in a row, as in [arange * (delta / div)]. *)
Lemma u53_small : 0 < u53 /\ u53 <= 1 # 4.
Proof. split; [apply pow2_pos | rewrite u53_val; discriminate]. Qed.

Lemma two_roundings k x :
  0 <= k -> 0 <= x ->
  k * x * (1 - 2 * u53) <= rnd53 (k * rnd53 x) /\
  rnd53 (k * rnd53 x) <= k * x * (1 + 3 * u53).
Proof.
  intros Hk Hx.
  destruct u53_small as [Hu0 Hu1].
  destruct (rnd53_err x Hx) as [S1 S2].
  assert (Hs : 0 <= rnd53 x) by now apply rnd53_nonneg.
  assert (Ht : 0 <= k * rnd53 x) by now apply Qmult_le_0_compat.
  destruct (rnd53_err _ Ht) as [Y1 Y2].
  assert (Hw : 0 <= k * x) by now apply Qmult_le_0_compat.
  assert (T1 : k * (x * (1 - u53)) <= k * rnd53 x) by (apply Qmult_le_l' ; assumption).
  assert (T2 : k * rnd53 x <= k * (x * (1 + u53))) by (apply Qmult_le_l'; assumption).
  assert (U1 : k * (x * (1 - u53)) * (1 - u53) <= k * rnd53 x * (1 - u53))
    by (apply Qmult_le_compat_r; [assumption | lra]).
  assert (U2 : k * rnd53 x * (1 + u53) <= k * (x * (1 + u53)) * (1 + u53))
    by (apply Qmult_le_compat_r; [assumption | lra]).
  assert (Q1 : 0 <= (k * x) * (u53 * u53)).
  { apply Qmult_le_0_compat; [assumption|]. apply Qmult_le_0_compat; lra. }
  assert (Q2 : (k * x) * (u53 * u53) <= (k * x) * u53).
  { apply Qmult_le_l'; [assumption|]. nra. }
  split.
  - eapply Qle_trans; [|exact Y1]. eapply Qle_trans; [|exact U1].
    ring_simplify. ring_simplify in Q1. lra.
  - eapply Qle_trans; [exact Y2|]. eapply Qle_trans; [exact U2|].
    ring_simplify. ring_simplify in Q2. lra.
Qed.

End Float64.

(** ** The partition of the pairs across the clusters *)

Module Partition.

Import Float64.
Local Open Scope Q_scope.

(** [np.arange(0, num, dtype=float)]. *)
Definition arange (num : Z) : list Q :=
  map (fun i => of_int (Z.of_nat i)) (seq 0 (Z.to_nat num)).

(** [y[-1] = v] on a non-empty array. *)
Definition set_last (y : list Q) (v : Q) : list Q :=
  match y with
  | [] => []
  | _ :: _ => removelast y ++ [v]
  end.

(** [np.linspace(start, stop, num)] with the default [endpoint=True], as
    NumPy computes it: [step = delta / div], [y = arange(num) * step + start],
    and the last sample overwritten by [stop].  A zero step takes NumPy's
    alternative order of operations. *)
Definition linspace (start stop num : Z) : list Q :=
  let div := (num - 1)%Z in
  let start_f := of_int start in
  let stop_f := of_int stop in
  let delta := fsub stop_f start_f in
  let y := arange num in
  let y :=
    if (0 <? div)%Z then
      let step := fdiv delta (of_int div) in
      if Qeq_bool step 0
      then map (fun v => fmul (fdiv v (of_int div)) delta) y
      else map (fun v => fmul v step) y
    else map (fun v => fmul v delta) y in
  let y := map (fun v => fadd v start_f) y in
  if (1 <? num)%Z then set_last y stop_f else y.

(** [np.diff]: consecutive differences. *)
Fixpoint np_diff (l : list Q) : list Q :=
  match l with
  | [] => []
  | a :: t =>
      match t with
      | [] => []
      | b :: _ => fsub b a :: np_diff t
      end
  end.

(** [np.diff(np.floor(np.linspace(0, n_pairs, n_clusters + 1))).astype(int)]. *)
Definition n_pairs_per_cluster (n_pairs n_clusters : Z) : list Z :=
  map astype_int
    (np_diff (map ffloor (linspace 0 n_pairs (n_clusters + 1)))).

(** Specification-side helpers: integer differences and sums. *)

Fixpoint zdiff (l : list Z) : list Z :=
  match l with
  | [] => []
  | a :: t =>
      match t with
      | [] => []
      | b :: _ => (b - a)%Z :: zdiff t
      end
  end.

Definition zsum (l : list Z) : Z := fold_right Z.add 0%Z l.

(** Item [i] of [np.linspace], before the last sample is overwritten. *)
Definition linspace_item (start stop num : Z) (i : nat) : Q :=
  let div := (num - 1)%Z in
  let delta := fsub (of_int stop) (of_int start) in
  let v := of_int (Z.of_nat i) in
  fadd
    (if (0 <? div)%Z then
       if Qeq_bool (fdiv delta (of_int div)) 0
       then fmul (fdiv v (of_int div)) delta
       else fmul v (fdiv delta (of_int div))
     else fmul v delta)
    (of_int start).

(** The floors of the breakpoints. *)
Definition breaks (n_pairs n_clusters : Z) : list Z :=
  map Qfloor (linspace 0 n_pairs (n_clusters + 1)).

(** *** Structure of [linspace] *)

Lemma linspace_items start stop num :
  linspace start stop num =
  let items := map (linspace_item start stop num) (seq 0 (Z.to_nat num)) in
  if (1 <? num)%Z then set_last items (of_int stop) else items.
Proof.
  unfold linspace, linspace_item, arange. cbv zeta.
  destruct (0 <? num - 1)%Z; [destruct (Qeq_bool _ 0)|]; rewrite !map_map; reflexivity.
Qed.

Lemma set_last_snoc l a v : set_last (l ++ [a]) v = l ++ [v].
Proof.
  unfold set_last. destruct (l ++ [a]) eqn:E.
  - destruct l; discriminate.
  - rewrite <- E, removelast_last. reflexivity.
Qed.

Lemma linspace_snoc stop n :
  (1 <= n)%Z ->
  linspace 0 stop (n + 1) =
  map (linspace_item 0 stop (n + 1)) (seq 0 (Z.to_nat n)) ++ [of_int stop].
Proof.
  intros Hn. rewrite linspace_items. cbv zeta.
  replace (1 <? n + 1)%Z with true by (symmetry; apply Z.ltb_lt; lia).
  replace (Z.to_nat (n + 1)) with (S (Z.to_nat n)) by lia.
  rewrite seq_S, map_app. simpl map at 2. apply set_last_snoc.
Qed.

Lemma linspace_length stop n :
  (1 <= n)%Z -> length (linspace 0 stop (n + 1)) = S (Z.to_nat n).
Proof.
  intros Hn. rewrite linspace_snoc by assumption.
  rewrite length_app, length_map, length_seq. simpl. lia.
Qed.

(** *** Differences of integer-valued arrays *)

Lemma astype_int_eq x n : x == inject_Z n -> astype_int x = n.
Proof.
  unfold astype_int, Qeq. simpl. intros E.
  rewrite Z.mul_1_r in E. rewrite E. apply Z.quot_mul. discriminate.
Qed.

Lemma zdiff_length l : length (zdiff l) = pred (length l).
Proof.
  induction l as [|a [|b t] IH]; try reflexivity.
  change (zdiff (a :: b :: t)) with ((b - a)%Z :: zdiff (b :: t)).
  simpl length in *. rewrite IH. reflexivity.
Qed.

Lemma np_diff_floor (zs : list Z) :
  Forall (fun z => (0 <= z <= 2 ^ 53)%Z) zs ->
  map astype_int (np_diff (map inject_Z zs)) = zdiff zs.
Proof.
  induction zs as [|a [|b t] IH]; intros H; try reflexivity.
  inversion H as [|? ? Ha Ht]; subst.
  inversion Ht as [|? ? Hb _]; subst.
  change (zdiff (a :: b :: t)) with ((b - a)%Z :: zdiff (b :: t)).
  rewrite <- (IH Ht). cbn [map np_diff]. f_equal.
  apply astype_int_eq. unfold fsub.
  rewrite (rnd53_int _ (b - a)); [| | lia];
    unfold Zminus; rewrite inject_Z_plus, inject_Z_opp; reflexivity.
Qed.

Lemma zdiff_prefix_sum (zs : list Z) (k : nat) :
  (k < length zs)%nat ->
  zsum (firstn k (zdiff zs)) = (nth k zs 0 - nth 0 zs 0)%Z.
Proof.
  revert k. induction zs as [|a [|b t] IH]; intros k Hk.
  - simpl in Hk. lia.
  - simpl in Hk. assert (k = 0%nat) by lia. subst. simpl. lia.
  - change (zdiff (a :: b :: t)) with ((b - a)%Z :: zdiff (b :: t)).
    destruct k as [|k]; [simpl; lia|].
    cbn [firstn zsum fold_right]. fold (zsum (firstn k (zdiff (b :: t)))).
    rewrite IH by (simpl in *; lia). simpl nth. lia.
Qed.

Lemma zdiff_total (zs : list Z) :
  zs <> [] -> zsum (zdiff zs) = (last zs 0 - nth 0 zs 0)%Z.
Proof.
  induction zs as [|a [|b t] IH]; intros H; [congruence | simpl; lia |].
  change (zdiff (a :: b :: t)) with ((b - a)%Z :: zdiff (b :: t)).
  change (last (a :: b :: t) 0%Z) with (last (b :: t) 0%Z).
  cbn [zsum fold_right]. fold (zsum (zdiff (b :: t))).
  rewrite IH by discriminate. simpl nth. lia.
Qed.

Lemma zdiff_nonneg (zs : list Z) :
  (forall i, (S i < length zs)%nat -> (nth i zs 0 <= nth (S i) zs 0)%Z) ->
  Forall (fun c => (0 <= c)%Z) (zdiff zs).
Proof.
  induction zs as [|a [|b t] IH]; intros H; try constructor.
  - specialize (H 0%nat). simpl in H. lia.
  - apply IH. intros i Hi. apply (H (S i)). simpl in *. lia.
Qed.

Lemma zdiff_nth (zs : list Z) (i : nat) :
  (S i < length zs)%nat ->
  nth i (zdiff zs) 0%Z = (nth (S i) zs 0 - nth i zs 0)%Z.
Proof.
  revert i. induction zs as [|a [|b t] IH]; intros i Hi; simpl in Hi; try lia.
  change (zdiff (a :: b :: t)) with ((b - a)%Z :: zdiff (b :: t)).
  destruct i as [|i]; [reflexivity|].
  cbn [nth]. apply IH. simpl. lia.
Qed.

(** *** The breakpoints in closed form *)

(** Breakpoint [k] of [linspace(0, P, N + 1)] for [k < N]:
    [fl(fl(k) * fl(P / N))]. *)
Definition bp (P N k : Z) : Q :=
  rnd53 (inject_Z k * rnd53 (inject_Z P / inject_Z N)).

Lemma of_int_0 : of_int 0 = 0.
Proof. reflexivity. Qed.

Lemma rnd53_eq0 x : rnd53 x == 0 -> x == 0.
Proof.
  intros H. destruct (rnd53_sign_cases x) as [[_ C]|[[C _]|[_ C]]];
    [exfalso; lra | exact C | exfalso; lra].
Qed.

Lemma linspace_item_val P N k :
  (0 <= P <= 2 ^ 53)%Z -> (1 <= N <= 2 ^ 53)%Z -> (Z.of_nat k <= 2 ^ 53)%Z ->
  linspace_item 0 P (N + 1) k == bp P N (Z.of_nat k).
Proof.
  intros HP HN Hk. unfold linspace_item, bp. cbv zeta.
  replace (N + 1 - 1)%Z with N by lia.
  replace (0 <? N)%Z with true by (symmetry; apply Z.ltb_lt; lia).
  rewrite of_int_0.
  assert (Hd : fsub (of_int P) 0 == inject_Z P).
  { unfold fsub. rewrite of_int_exact by lia.
    assert (E : inject_Z P - 0 == inject_Z P) by ring.
    rewrite E. apply (rnd53_int _ P); [reflexivity | lia]. }
  assert (Hs : fdiv (fsub (of_int P) 0) (of_int N) == rnd53 (inject_Z P / inject_Z N)).
  { unfold fdiv. rewrite Hd, of_int_exact by lia. reflexivity. }
  assert (Hv : of_int (Z.of_nat k) == inject_Z (Z.of_nat k)) by (apply of_int_exact; lia).
  destruct (Qeq_bool _ 0) eqn:E.
  - apply Qeq_bool_iff in E. rewrite Hs in E.
    unfold fadd, fmul. rewrite Hd, E.
    apply rnd53_eq0 in E.
    assert (HP0 : inject_Z P == 0).
    { assert (Hn : ~ inject_Z N == 0).
      { change 0 with (inject_Z 0). rewrite inject_Z_injective. lia. }
      assert (E' : inject_Z P == inject_Z P / inject_Z N * inject_Z N) by (field; exact Hn).
      rewrite E', E. ring. }
    rewrite HP0, !Qmult_0_r. reflexivity.
  - unfold fadd, fmul. rewrite Qplus_0_r, rnd53_idem, Hs, Hv. reflexivity.
Qed.

Section Breakpoints.

Variables P N : Z.
Hypothesis HP : (0 <= P <= 2 ^ 53)%Z.
Hypothesis HN : (1 <= N <= 2 ^ 53)%Z.

Let p := inject_Z P.
Let n := inject_Z N.

Lemma n_pos : 1 <= n.
Proof. unfold n. change 1 with (inject_Z 1). rewrite <- Zle_Qle. lia. Qed.

Lemma p_nonneg : 0 <= p.
Proof. unfold p. change 0 with (inject_Z 0). rewrite <- Zle_Qle. lia. Qed.

Lemma share_nonneg : 0 <= p / n.
Proof.
  pose proof n_pos. pose proof p_nonneg.
  apply Qle_shift_div_l; lra.
Qed.

Lemma bp_nonneg k : (0 <= k)%Z -> 0 <= bp P N k.
Proof.
  intros Hk. unfold bp. apply rnd53_nonneg.
  apply Qmult_le_0_compat.
  - change 0 with (inject_Z 0). rewrite <- Zle_Qle. exact Hk.
  - apply rnd53_nonneg, share_nonneg.
Qed.

Lemma bp_0 : bp P N 0 == 0.
Proof.
  unfold bp. change (inject_Z 0) with 0. rewrite Qmult_0_l. reflexivity.
Qed.

Lemma bp_mono k k' : (k <= k')%Z -> bp P N k <= bp P N k'.
Proof.
  intros Hk. unfold bp. apply rnd53_mono.
  apply Qmult_le_compat_r.
  - rewrite <- Zle_Qle. exact Hk.
  - apply rnd53_nonneg, share_nonneg.
Qed.

(** The breakpoints before the last stay below [stop]: the division
    may round up, but by less than the remaining share. *)
Lemma bp_le_stop k : (0 <= k < N)%Z -> bp P N k <= p.
Proof.
  intros Hk.
  assert (E : p == rnd53 p).
  { symmetry. apply (rnd53_int _ P); [reflexivity | lia]. }
  rewrite E. unfold bp. apply rnd53_mono.
  pose proof n_pos as Hn. pose proof p_nonneg as Hp. pose proof share_nonneg as Hx.
  destruct (rnd53_err _ Hx) as [_ S2]. fold p n in S2 |- *.
  assert (Hk' : inject_Z k <= n - 1).
  { unfold n. change 1 with (inject_Z 1).
    unfold Qminus. rewrite <- inject_Z_opp, <- inject_Z_plus, <- Zle_Qle. lia. }
  assert (Hk0 : 0 <= inject_Z k).
  { change 0 with (inject_Z 0). rewrite <- Zle_Qle. lia. }
  assert (Hu : (n - 1) * u53 <= 1).
  { assert (n <= inject_Z (2 ^ 53)) by (unfold n; rewrite <- Zle_Qle; lia).
    rewrite u53_val. change (inject_Z (2 ^ 53)) with 9007199254740992 in H. lra. }
  assert (Ex : p / n * n == p) by (field; lra).
  set (x := p / n) in *. set (s := rnd53 x) in *.
  assert (Hs : 0 <= s) by (apply rnd53_nonneg; exact Hx).
  assert (A1 : inject_Z k * s <= (n - 1) * s)
    by (apply Qmult_le_compat_r; assumption).
  assert (A2 : (n - 1) * s <= (n - 1) * (x * (1 + u53)))
    by (apply Qmult_le_l'; [lra | assumption]).
  assert (A3 : x * ((n - 1) * u53) <= x * 1)
    by (apply Qmult_le_l'; assumption).
  eapply Qle_trans; [exact A1|]. eapply Qle_trans; [exact A2|].
  rewrite <- Ex. ring_simplify. ring_simplify in A3. lra.
Qed.

End Breakpoints.

(** *** The breakpoints and the counts, for arguments below [2^53] *)

Section Counts.

Variables P N : Z.
Hypothesis HP : (0 <= P <= 2 ^ 53)%Z.
Hypothesis HN : (1 <= N <= 2 ^ 53)%Z.

Lemma breaks_length : length (breaks P N) = S (Z.to_nat N).
Proof. unfold breaks. rewrite length_map. apply linspace_length. lia. Qed.

Lemma breaks_nth_lt i :
  (i < Z.to_nat N)%nat ->
  nth i (breaks P N) 0%Z = Qfloor (bp P N (Z.of_nat i)).
Proof.
  intros Hi. unfold breaks. rewrite linspace_snoc by lia.
  rewrite map_app, app_nth1 by (rewrite !length_map, length_seq; exact Hi).
  rewrite map_map.
  rewrite (nth_indep _ 0%Z (Qfloor (linspace_item 0 P (N + 1) 0)))
    by (rewrite length_map, length_seq; exact Hi).
  rewrite (map_nth (fun x => Qfloor (linspace_item 0 P (N + 1) x))).
  rewrite seq_nth by exact Hi. simpl plus.
  apply Qfloor_comp, linspace_item_val; lia.
Qed.

Lemma breaks_nth_last : nth (Z.to_nat N) (breaks P N) 0%Z = P.
Proof.
  unfold breaks. rewrite linspace_snoc by lia.
  rewrite map_app, app_nth2; rewrite !length_map, length_seq; [|lia].
  rewrite Nat.sub_diag. simpl.
  rewrite (Qfloor_comp _ _ (of_int_exact P ltac:(lia))). apply Qfloor_Z.
Qed.

Lemma breaks_last : last (breaks P N) 0%Z = P.
Proof.
  unfold breaks. rewrite linspace_snoc by lia.
  rewrite map_app. change (map Qfloor [of_int P]) with [Qfloor (of_int P)].
  rewrite last_last.
  rewrite (Qfloor_comp _ _ (of_int_exact P ltac:(lia))). apply Qfloor_Z.
Qed.

Lemma breaks_nth_0 : nth 0 (breaks P N) 0%Z = 0%Z.
Proof.
  rewrite breaks_nth_lt by lia. change (Z.of_nat 0) with 0%Z.
  rewrite (Qfloor_comp _ _ (bp_0 P N)). reflexivity.
Qed.

Lemma floor_bp_range k :
  (0 <= k < N)%Z -> (0 <= Qfloor (bp P N k) <= P)%Z.
Proof.
  intros Hk. split.
  - change 0%Z with (Qfloor 0). apply Qfloor_resp_le, bp_nonneg; lia.
  - pose proof (Qfloor_resp_le _ _ (bp_le_stop P N HP HN k Hk)) as H.
    rewrite Qfloor_Z in H. exact H.
Qed.

Lemma breaks_range : Forall (fun z => (0 <= z <= P)%Z) (breaks P N).
Proof.
  apply Forall_nth. intros i d Hi. rewrite breaks_length in Hi.
  rewrite (nth_indep _ d 0%Z) by (rewrite breaks_length; exact Hi).
  destruct (Nat.eq_dec i (Z.to_nat N)) as [->|Ne].
  - rewrite breaks_nth_last. lia.
  - rewrite breaks_nth_lt by lia. apply floor_bp_range. lia.
Qed.

Lemma breaks_sorted i :
  (S i < length (breaks P N))%nat ->
  (nth i (breaks P N) 0 <= nth (S i) (breaks P N) 0)%Z.
Proof.
  rewrite breaks_length. intros Hi.
  rewrite breaks_nth_lt by lia.
  destruct (Nat.eq_dec (S i) (Z.to_nat N)) as [E|Ne].
  - rewrite E, breaks_nth_last. apply floor_bp_range. lia.
  - rewrite breaks_nth_lt by lia. apply Qfloor_resp_le, bp_mono; lia.
Qed.

(** The float differences of the floors are the integer differences. *)
Lemma counts_zdiff : n_pairs_per_cluster P N = zdiff (breaks P N).
Proof.
  unfold n_pairs_per_cluster, breaks.
  replace (map ffloor (linspace 0 P (N + 1)))
    with (map inject_Z (map Qfloor (linspace 0 P (N + 1))))
    by (rewrite map_map; reflexivity).
  apply np_diff_floor. fold (breaks P N).
  eapply Forall_impl; [|exact breaks_range]. simpl. intros z Hz. lia.
Qed.

Lemma counts_length : length (n_pairs_per_cluster P N) = Z.to_nat N.
Proof. rewrite counts_zdiff, zdiff_length, breaks_length. reflexivity. Qed.

Lemma counts_nonneg : Forall (fun c => (0 <= c)%Z) (n_pairs_per_cluster P N).
Proof. rewrite counts_zdiff. apply zdiff_nonneg, breaks_sorted. Qed.

Lemma counts_sum : zsum (n_pairs_per_cluster P N) = P.
Proof.
  rewrite counts_zdiff, zdiff_total.
  - rewrite breaks_last, breaks_nth_0. lia.
  - intros E. pose proof breaks_length as L. rewrite E in L. discriminate.
Qed.

Lemma counts_prefix_sum k :
  (k <= Z.to_nat N)%nat ->
  zsum (firstn k (n_pairs_per_cluster P N)) = nth k (breaks P N) 0%Z.
Proof.
  intros Hk. rewrite counts_zdiff, zdiff_prefix_sum by (rewrite breaks_length; lia).
  rewrite breaks_nth_0. lia.
Qed.

End Counts.

(** *** Accuracy of the breakpoints, for [P * N <= 2^50] *)

Section Accuracy.

Variables P N : Z.
Hypothesis HP : (0 <= P)%Z.
Hypothesis HN : (1 <= N <= 2 ^ 53)%Z.
Hypothesis Hsmall : (P * N <= 2 ^ 50)%Z.

Let p := inject_Z P.
Let n := inject_Z N.

Lemma accuracy_facts k :
  (0 <= k <= N)%Z ->
  let w := inject_Z k * (p / n) in
  1 <= n /\ 0 <= p /\ 0 <= w /\ w <= p /\
  w * n == inject_Z (k * P) /\ u53 * (n * p) <= 1 # 8 /\
  w * (1 - 2 * u53) <= bp P N k /\ bp P N k <= w * (1 + 3 * u53).
Proof.
  intros Hk w.
  assert (Hn : 1 <= n).
  { unfold n. change 1 with (inject_Z 1). rewrite <- Zle_Qle. lia. }
  assert (Hp : 0 <= p).
  { unfold p. change 0 with (inject_Z 0). rewrite <- Zle_Qle. lia. }
  assert (Hk0 : 0 <= inject_Z k).
  { change 0 with (inject_Z 0). rewrite <- Zle_Qle. lia. }
  assert (Hkn : inject_Z k <= n) by (unfold n; rewrite <- Zle_Qle; lia).
  assert (Hx : 0 <= p / n) by (apply Qle_shift_div_l; lra).
  assert (Ex : p / n * n == p) by (field; lra).
  assert (Hw : 0 <= w) by (apply Qmult_le_0_compat; assumption).
  assert (Hwp : w <= p).
  { unfold w. rewrite <- Ex at 2. rewrite (Qmult_comm (p / n) n).
    apply Qmult_le_compat_r; assumption. }
  assert (Ew : w * n == inject_Z (k * P)).
  { unfold w. rewrite inject_Z_mult. fold p. rewrite <- Ex at 2. ring. }
  assert (Hpn : u53 * (n * p) <= 1 # 8).
  { assert (H : n * p <= inject_Z (2 ^ 50)).
    { unfold n, p. rewrite <- inject_Z_mult, <- Zle_Qle. lia. }
    change (inject_Z (2 ^ 50)) with 1125899906842624 in H.
    rewrite u53_val. lra. }
  repeat split; try assumption; apply two_roundings; assumption.
Qed.

Lemma floor_bp_le k :
  (0 <= k <= N)%Z -> (Qfloor (bp P N k) <= k * P / N)%Z.
Proof.
  intros Hk.
  destruct (accuracy_facts k Hk) as (Hn & Hp & Hw & Hwp & Ew & Hpn & _ & Hy).
  cbv zeta in *. set (w := inject_Z k * (p / n)) in *.
  pose proof (Z.div_mod (k * P) N ltac:(lia)) as Hdm.
  pose proof (Z.mod_pos_bound (k * P) N ltac:(lia)) as Hr.
  set (K := (k * P / N)%Z) in *. set (R := ((k * P) mod N)%Z) in *.
  assert (Ekp : inject_Z (k * P) == n * inject_Z K + inject_Z R).
  { rewrite Hdm at 1. rewrite inject_Z_plus, inject_Z_mult. reflexivity. }
  assert (HR : inject_Z R <= n - 1).
  { unfold n. change 1 with (inject_Z 1).
    unfold Qminus. rewrite <- inject_Z_opp, <- inject_Z_plus, <- Zle_Qle. lia. }
  destruct u53_small as [Hu0 Hu1].
  assert (Hlt : bp P N k < inject_Z (K + 1)).
  { rewrite inject_Z_plus. change (inject_Z 1) with 1.
    apply Qnot_le_lt. intros C.
    assert (A : n * (inject_Z K + 1) <= n * (w * (1 + 3 * u53))).
    { apply Qmult_le_l'; [lra|]. eapply Qle_trans; eassumption. }
    assert (B : u53 * (n * w) <= u53 * (n * p)).
    { apply Qmult_le_l'; [lra|]. apply Qmult_le_l'; [lra | assumption]. }
    ring_simplify in A. ring_simplify in B. ring_simplify in Hpn.
    rewrite Ekp in Ew. ring_simplify in Ew. lra. }
  pose proof (Qfloor_le (bp P N k)) as Hf.
  assert (Hz : inject_Z (Qfloor (bp P N k)) < inject_Z (K + 1))
    by (eapply Qle_lt_trans; eassumption).
  rewrite <- Zlt_Qlt in Hz. lia.
Qed.

Lemma floor_bp_ge k :
  (0 <= k <= N)%Z -> ((k * P) mod N <> 0)%Z ->
  (k * P / N <= Qfloor (bp P N k))%Z.
Proof.
  intros Hk Hnz.
  destruct (accuracy_facts k Hk) as (Hn & Hp & Hw & Hwp & Ew & Hpn & Hy & _).
  cbv zeta in *. set (w := inject_Z k * (p / n)) in *.
  pose proof (Z.div_mod (k * P) N ltac:(lia)) as Hdm.
  pose proof (Z.mod_pos_bound (k * P) N ltac:(lia)) as Hr.
  set (K := (k * P / N)%Z) in *. set (R := ((k * P) mod N)%Z) in *.
  assert (Ekp : inject_Z (k * P) == n * inject_Z K + inject_Z R).
  { rewrite Hdm at 1. rewrite inject_Z_plus, inject_Z_mult. reflexivity. }
  assert (HR : 1 <= inject_Z R).
  { change 1 with (inject_Z 1). rewrite <- Zle_Qle. lia. }
  destruct u53_small as [Hu0 Hu1].
  assert (Hle : inject_Z K <= bp P N k).
  { apply Qnot_lt_le. intros C.
    assert (A : n * (w * (1 - 2 * u53)) <= n * inject_Z K).
    { apply Qmult_le_l'; [lra|]. eapply Qle_trans; [eassumption|]. lra. }
    assert (B : u53 * (n * w) <= u53 * (n * p)).
    { apply Qmult_le_l'; [lra|]. apply Qmult_le_l'; [lra | assumption]. }
    ring_simplify in A. ring_simplify in B. ring_simplify in Hpn.
    rewrite Ekp in Ew. ring_simplify in Ew. lra. }
  apply Qfloor_resp_le in Hle. rewrite Qfloor_Z in Hle. exact Hle.
Qed.

(** When [N] divides [P] the breakpoints are exact. *)
Lemma floor_bp_divides k :
  (0 <= k <= N)%Z -> (P mod N = 0)%Z ->
  Qfloor (bp P N k) = (k * P / N)%Z.
Proof.
  intros Hk Hd.
  pose proof (Z.div_mod P N ltac:(lia)) as Hdm. rewrite Hd, Z.add_0_r in Hdm.
  set (q := (P / N)%Z) in *.
  assert (Hq : (0 <= q)%Z) by (apply Z.div_pos; lia).
  assert (Hqk : (k * q <= P)%Z) by nia.
  assert (HP53 : (P <= 2 ^ 53)%Z) by nia.
  assert (Ex : p / n == inject_Z q).
  { unfold p, n. rewrite Hdm at 1. rewrite inject_Z_mult. field.
    change 0 with (inject_Z 0). rewrite inject_Z_injective. lia. }
  assert (E : bp P N k == inject_Z (k * q)).
  { unfold bp. fold p n. rewrite Ex.
    rewrite (rnd53_int (inject_Z q) q) by (reflexivity || lia).
    rewrite <- inject_Z_mult.
    apply (rnd53_int _ (k * q)); [reflexivity | lia]. }
  rewrite (Qfloor_comp _ _ E), Qfloor_Z.
  rewrite Hdm. replace (k * (N * q))%Z with (k * q * N)%Z by ring.
  rewrite Z.div_mul by lia. reflexivity.
Qed.

Lemma floor_bp_last :
  Qfloor (bp P N (N - 1)) = ((N - 1) * P / N)%Z.
Proof.
  destruct (Z.eq_dec (P mod N) 0) as [E|Ne].
  - apply floor_bp_divides; [lia | exact E].
  - apply Z.le_antisymm; [apply floor_bp_le; lia|].
    apply floor_bp_ge; [lia|].
    intros C. apply Ne.
    apply Z.mod_divide in C; [|lia]. apply Z.mod_divide; [lia|].
    destruct C as [c Hc]. exists (P - c)%Z. lia.
Qed.

End Accuracy.

End Partition.

(** ** Agreement with the Standard Library's IEEE 754 specification

    The breakpoints computed once more, with the binary64 operations of
    [SpecFloat] (precision 53, exponent bound 1024) in place of [rnd53]. *)

Module Binary64Check.

Import Float64 Partition.
Local Open Scope Q_scope.

Definition sf_of_Z (n : Z) : spec_float := binary_normalize 53 1024 n 0 false.

Definition sf_to_Q (x : spec_float) : Q :=
  match x with
  | S754_finite s m e =>
      Qred ((if s then -1 else 1) * inject_Z (Zpos m) * pow2 e)
  | _ => 0
  end.

Definition sf_linspace_item (start stop num : Z) (i : nat) : spec_float :=
  let div := (num - 1)%Z in
  let delta := SFsub 53 1024 (sf_of_Z stop) (sf_of_Z start) in
  let v := sf_of_Z (Z.of_nat i) in
  SFadd 53 1024
    (if (0 <? div)%Z then
       let step := SFdiv 53 1024 delta (sf_of_Z div) in
       if SFeqb step (sf_of_Z 0)
       then SFmul 53 1024 (SFdiv 53 1024 v (sf_of_Z div)) delta
       else SFmul 53 1024 v step
     else SFmul 53 1024 v delta)
    (sf_of_Z start).

(** Both computations of [linspace(0, P, N + 1)] agree on every item. *)
Definition agree (P N : Z) : bool :=
  forallb
    (fun i => Qeq_bool (sf_to_Q (sf_linspace_item 0 P (N + 1) i))
                       (linspace_item 0 P (N + 1) i))
    (seq 0 (Z.to_nat N)).

Definition agree_grid (pmax nmax : nat) : bool :=
  forallb
    (fun p => forallb (fun n => agree (Z.of_nat p) (Z.of_nat (S n))) (seq 0 nmax))
    (seq 0 (S pmax)).

Example agree_small : agree_grid 16 16 = true.
Proof. vm_compute. reflexivity. Qed.

Example agree_2_98 : agree 2 98 = true.
Proof. vm_compute. reflexivity. Qed.

(** The breakpoint behind the rounding of [2^27 - 2^-27] up to [2^27]. *)
Example agree_large :
  sf_to_Q (SFmul 53 1024 (sf_of_Z 134217727)
             (SFdiv 53 1024 (sf_of_Z 134217729) (sf_of_Z 134217728)))
  = bp 134217729 134217728 134217727 /\
  bp 134217729 134217728 134217727 = 134217728.
Proof. split; vm_compute; reflexivity. Qed.

Example agree_of_int :
  sf_to_Q (sf_of_Z 9007199254740993) = of_int 9007199254740993 /\
  of_int 9007199254740993 = 9007199254740992.
Proof. split; vm_compute; reflexivity. Qed.

(** The overflow threshold: a range of [2^1024] is an infinity in
    binary64 and not finite here; the largest number is finite. *)
Example agree_overflow :
  SFsub 53 1024 (sf_of_Z (2 ^ 1023)) (SFopp (sf_of_Z (2 ^ 1023)))
  = S754_infinity false /\
  isfinite (fsub (pow2 1023) (fneg (pow2 1023))) = false /\
  sf_to_Q (SFmax_float 53 1024) = Qred max_float /\
  isfinite (fsub max_float (fneg 0)) = true.
Proof. repeat split; vm_compute; reflexivity. Qed.

End Binary64Check.

(** ** The cluster sampler *)

Module Sampler.

Import Float64 Partition.
Local Open Scope Q_scope.

Definition PHI_MIN_DEGREES : Z := -180.
Definition PHI_MAX_DEGREES : Z := 180.
Definition THETA_MIN_DEGREES : Z := -90.
Definition THETA_MAX_DEGREES : Z := 90.

(** An array of shape [(n, 2)]: one row per pair, one column per point. *)
Definition rows := list (Q * Q).

Definition map_rows (f : Q -> Q) (a : rows) : rows :=
  map (fun r => (f (fst r), f (snd r))) a.

(** [np.clip(x, lo, hi)] is [minimum(maximum(x, lo), hi)]. *)
Definition clip (x lo hi : Q) : Q := Qmin (Qmax x lo) hi.

(** [range(n)]. *)
Definition range (n : Z) : list Z := map Z.of_nat (seq 0 (Z.to_nat n)).

(** The clusters visited by the loop of [generate_pairs]. *)
Definition sampled_clusters (n_clusters : Z) : list Z :=
  let n_clusters := if (n_clusters =? 1)%Z then 2%Z else n_clusters in
  range (n_clusters - 1).

Section Generator.

(** The state of NumPy's global generator, and one draw of
    [np.random.uniform(low, high)]. *)
Variable rng : Type.
Variable uniform : Q -> Q -> rng -> Q * rng.

(** Computations that advance the generator and may raise. *)
Definition M (A : Type) : Type := rng -> option (A * rng).

Definition ret {A} (a : A) : M A := fun g => Some (a, g).
Definition raise {A} : M A := fun _ => None.
Definition bind {A B} (m : M A) (k : A -> M B) : M B :=
  fun g => match m g with
           | Some (a, g1) => k a g1
           | None => None
           end.

Notation "x <- m ;; k" := (bind m (fun x => k))
  (at level 61, m at next level, right associativity).

Definition assert (b : bool) : M unit := if b then ret tt else raise.

Fixpoint mapM {A B} (f : A -> M B) (l : list A) : M (list B) :=
  match l with
  | [] => ret []
  | a :: t => b <- f a ;; bs <- mapM f t ;; ret (b :: bs)
  end.

(** [n] successive draws. *)
Fixpoint uniform_n (low high : Q) (n : nat) (g : rng) : list Q * rng :=
  match n with
  | O => ([], g)
  | S k =>
      let (x, g1) := uniform low high g in
      let (xs, g2) := uniform_n low high k g1 in
      (x :: xs, g2)
  end.

Fixpoint uniform_n2 (low high : Q) (n : nat) (g : rng) : rows * rng :=
  match n with
  | O => ([], g)
  | S k =>
      let (x0, g1) := uniform low high g in
      let (x1, g2) := uniform low high g1 in
      let (xs, g3) := uniform_n2 low high k g2 in
      ((x0, x1) :: xs, g3)
  end.

(** [np.random.uniform(low, high, n)]; a range [high - low] that is not
    finite raises OverflowError, a negative size raises ValueError. *)
Definition uniform_vec (low high : Q) (n : Z) : M (list Q) :=
  fun g => if negb (isfinite (fsub high low)) then None
           else if (n <? 0)%Z then None
           else Some (uniform_n low high (Z.to_nat n) g).

(** [np.random.uniform(low, high, (n, 2))]. *)
Definition uniform_rows (low high : Q) (n : Z) : M rows :=
  fun g => if negb (isfinite (fsub high low)) then None
           else if (n <? 0)%Z then None
           else Some (uniform_n2 low high (Z.to_nat n) g).

(** [a / b] on Python integers; a zero divisor raises ZeroDivisionError. *)
Definition true_divide (a b : Z) : M Q :=
  if (b =? 0)%Z then raise else ret (rnd53 (inject_Z a / inject_Z b)).

(** [l[i]]; an index out of range raises IndexError. *)
Definition getitem {A} (l : list A) (i : Z) : M A :=
  let j := if (i <? 0)%Z then (Z.of_nat (length l) + i)%Z else i in
  if (j <? 0)%Z then raise
  else match nth_error l (Z.to_nat j) with
       | Some a => ret a
       | None => raise
       end.

(** [np.vstack]; an empty sequence raises ValueError. *)
Definition vstack (blocks : list rows) : M rows :=
  match blocks with
  | [] => raise
  | _ :: _ => ret (concat blocks)
  end.

Definition generate_cluster (n_pairs : Z) (phi theta dphi dtheta : Q)
  : M (rows * rows) :=
  us <- uniform_rows (fneg dphi) dphi n_pairs ;;
  let phis := map_rows (fun u => fadd phi u) us in
  let phis :=
    map_rows (fun x => clip x (of_int PHI_MIN_DEGREES) (of_int PHI_MAX_DEGREES)) phis in
  vs <- uniform_rows (fneg dtheta) dtheta n_pairs ;;
  let thetas := map_rows (fun v => fadd theta v) vs in
  let thetas :=
    map_rows (fun x => clip x (of_int THETA_MIN_DEGREES) (of_int THETA_MAX_DEGREES)) thetas in
  ret (phis, thetas).

(** [generate_pairs] up to the end of its loop: the lists [phis_all]
    and [thetas_all], one block per visited cluster. *)
Definition generate_pairs_blocks (n_pairs n_clusters : Z)
  : M (list rows * list rows) :=
  phis_center <-
    uniform_vec (of_int PHI_MIN_DEGREES) (of_int PHI_MAX_DEGREES) n_clusters ;;
  thetas_center <-
    uniform_vec (of_int THETA_MIN_DEGREES) (of_int THETA_MAX_DEGREES) n_clusters ;;
  let n_pairs_per_cluster := n_pairs_per_cluster n_pairs n_clusters in
  dphi <- true_divide (PHI_MAX_DEGREES - PHI_MIN_DEGREES) n_clusters ;;
  dtheta <- true_divide (THETA_MAX_DEGREES - THETA_MIN_DEGREES) n_clusters ;;
  _ <- assert (length phis_center =? length thetas_center)%nat ;;
  _ <- assert (length n_pairs_per_cluster =? length phis_center)%nat ;;
  blocks <-
    mapM (fun i =>
            n <- getitem n_pairs_per_cluster i ;;
            phi <- getitem phis_center i ;;
            theta <- getitem thetas_center i ;;
            generate_cluster n phi theta dphi dtheta)
         (sampled_clusters n_clusters) ;;
  ret (map fst blocks, map snd blocks).

Definition generate_pairs (n_pairs n_clusters : Z) : M (rows * rows) :=
  all <- generate_pairs_blocks n_pairs n_clusters ;;
  phis <- vstack (fst all) ;;
  thetas <- vstack (snd all) ;;
  ret (phis, thetas).

End Generator.

(** A deterministic stand-in for the generator: draw number [g] is
    [low + (high - low) * (g mod 8) / 8]. *)
Definition counter_uniform (low high : Q) (g : nat) : Q * nat :=
  (Qred (low + (high - low) * (inject_Z (Z.of_nat (g mod 8)) / 8)), S g).

(** *** Facts about the sampler *)

Definition in_range (lo hi : Q) (r : Q * Q) : Prop :=
  (lo <= fst r /\ fst r <= hi) /\ (lo <= snd r /\ snd r <= hi).

Lemma clip_bounds x lo hi : lo <= hi -> lo <= clip x lo hi /\ clip x lo hi <= hi.
Proof.
  intros H. unfold clip. split.
  - apply Q.min_glb; [apply Q.le_max_r | exact H].
  - apply Q.le_min_r.
Qed.

Lemma map_rows_clip a lo hi :
  lo <= hi -> Forall (in_range lo hi) (map_rows (fun x => clip x lo hi) a).
Proof.
  intros H. unfold map_rows. apply Forall_map, Forall_forall.
  intros r _. unfold in_range. simpl. split; apply clip_bounds; exact H.
Qed.

Lemma range_length n : length (range n) = Z.to_nat n.
Proof. unfold range. now rewrite length_map, length_seq. Qed.

Lemma range_In n i : In i (range n) <-> (0 <= i < n)%Z.
Proof.
  unfold range. rewrite in_map_iff. split.
  - intros (k & <- & Hk). apply in_seq in Hk. lia.
  - intros Hi. exists (Z.to_nat i). split; [lia | apply in_seq; lia].
Qed.

Lemma sampled_clusters_range n :
  (1 <= n)%Z -> sampled_clusters n = range (Z.max n 2 - 1).
Proof.
  intros Hn. unfold sampled_clusters.
  destruct (Z.eqb_spec n 1) as [->|Ne]; [reflexivity|].
  now replace (Z.max n 2) with n by lia.
Qed.



Section GeneratorFacts.

Variable rng : Type.
Variable uniform : Q -> Q -> rng -> Q * rng.

Lemma bind_Some {A B} (m : M rng A) (k : A -> M rng B) g r :
  bind rng m k g = Some r <->
  exists a g1, m g = Some (a, g1) /\ k a g1 = Some r.
Proof.
  unfold bind. split.
  - destruct (m g) as [[a g1]|]; [|discriminate]. intros H. now exists a, g1.
  - intros (a & g1 & -> & H). exact H.
Qed.

Lemma uniform_n_length low high n g :
  length (fst (uniform_n rng uniform low high n g)) = n.
Proof.
  revert g. induction n as [|n IH]; intros g; [reflexivity|].
  simpl. destruct (uniform low high g) as [x g1].
  specialize (IH g1). destruct (uniform_n rng uniform low high n g1) as [xs g2].
  simpl in *. now rewrite IH.
Qed.

Lemma uniform_n2_length low high n g :
  length (fst (uniform_n2 rng uniform low high n g)) = n.
Proof.
  revert g. induction n as [|n IH]; intros g; [reflexivity|].
  simpl. destruct (uniform low high g) as [x0 g1].
  destruct (uniform low high g1) as [x1 g2].
  specialize (IH g2). destruct (uniform_n2 rng uniform low high n g2) as [xs g3].
  simpl in *. now rewrite IH.
Qed.

Lemma uniform_vec_Some low high n g cs g' :
  uniform_vec rng uniform low high n g = Some (cs, g') ->
  (0 <= n)%Z /\ length cs = Z.to_nat n.
Proof.
  unfold uniform_vec. destruct (isfinite (fsub high low)); [|discriminate].
  cbn [negb]. destruct (Z.ltb_spec n 0) as [|Hn]; [discriminate|].
  intros [= H]. split; [assumption|].
  rewrite <- (uniform_n_length low high (Z.to_nat n) g), H. reflexivity.
Qed.

Lemma uniform_rows_Some low high n g us g' :
  uniform_rows rng uniform low high n g = Some (us, g') ->
  (0 <= n)%Z /\ length us = Z.to_nat n.
Proof.
  unfold uniform_rows. destruct (isfinite (fsub high low)); [|discriminate].
  cbn [negb]. destruct (Z.ltb_spec n 0) as [|Hn]; [discriminate|].
  intros [= H]. split; [assumption|].
  rewrite <- (uniform_n2_length low high (Z.to_nat n) g), H. reflexivity.
Qed.

Lemma map_rows_length f a : length (map_rows f a) = length a.
Proof. apply length_map. Qed.

(** What a successful call of [generate_cluster] returns. *)
Lemma generate_cluster_Some n phi theta dphi dtheta g phis thetas g' :
  generate_cluster rng uniform n phi theta dphi dtheta g = Some (phis, thetas, g') ->
  (0 <= n)%Z /\
  length phis = Z.to_nat n /\ length thetas = Z.to_nat n /\
  Forall (in_range (-180) 180) phis /\ Forall (in_range (-90) 90) thetas.
Proof.
  unfold generate_cluster. intros H.
  apply bind_Some in H. destruct H as (us & g1 & Hu & H).
  apply bind_Some in H. destruct H as (vs & g2 & Hv & H).
  unfold ret in H. injection H as <- <- <-.
  apply uniform_rows_Some in Hu. apply uniform_rows_Some in Hv.
  destruct Hu as [Hn Lu], Hv as [_ Lv].
  rewrite !map_rows_length.
  repeat split; try assumption.
  - exact (map_rows_clip _ (-180) 180 ltac:(discriminate)).
  - exact (map_rows_clip _ (-90) 90 ltac:(discriminate)).
Qed.

Lemma generate_cluster_total n phi theta dphi dtheta g :
  (0 <= n)%Z ->
  isfinite (fsub dphi (fneg dphi)) = true ->
  isfinite (fsub dtheta (fneg dtheta)) = true ->
  exists r g', generate_cluster rng uniform n phi theta dphi dtheta g = Some (r, g').
Proof.
  intros Hn Hp Ht. unfold generate_cluster, bind, uniform_rows, ret.
  rewrite Hp, Ht. cbn [negb].
  replace (n <? 0)%Z with false by (symmetry; apply Z.ltb_ge; exact Hn).
  destruct (uniform_n2 rng uniform (fneg dphi) dphi (Z.to_nat n) g) as [us g1].
  destruct (uniform_n2 rng uniform (fneg dtheta) dtheta (Z.to_nat n) g1) as [vs g2].
  eauto.
Qed.

(** *** The loop over the clusters *)

Lemma mapM_Some {A B} (f : A -> M rng B) l g bs g' :
  mapM rng f l g = Some (bs, g') ->
  Forall2 (fun a b => exists g1 g2, f a g1 = Some (b, g2)) l bs.
Proof.
  revert g bs. induction l as [|a t IH]; intros g bs H; simpl in H.
  - unfold ret in H. injection H as <- _. constructor.
  - apply bind_Some in H. destruct H as (b & g1 & Hb & H).
    apply bind_Some in H. destruct H as (bs' & g2 & Ht & H).
    unfold ret in H. injection H as <- <-.
    constructor; [now exists g, g1 | exact (IH _ _ Ht)].
Qed.

Lemma mapM_total {A B} (f : A -> M rng B) l :
  (forall a, In a l -> forall g, exists b g', f a g = Some (b, g')) ->
  forall g, exists bs g', mapM rng f l g = Some (bs, g').
Proof.
  induction l as [|a t IH]; intros Hf g; simpl.
  - unfold ret. eauto.
  - destruct (Hf a (or_introl eq_refl) g) as (b & g1 & Hb).
    destruct (IH (fun x Hx => Hf x (or_intror Hx)) g1) as (bs & g2 & Ht).
    unfold bind, ret. rewrite Hb, Ht. eauto.
Qed.

Lemma getitem_Some {A} (l : list A) i g a g' :
  (0 <= i)%Z -> getitem rng l i g = Some (a, g') ->
  nth_error l (Z.to_nat i) = Some a /\ g' = g.
Proof.
  intros Hi. unfold getitem. cbv zeta.
  rewrite (proj2 (Z.ltb_ge i 0) Hi). cbv iota. rewrite (proj2 (Z.ltb_ge i 0) Hi).
  unfold ret, raise.
  destruct (nth_error l (Z.to_nat i)); [|discriminate].
  intros [= -> ->]. auto.
Qed.

Lemma getitem_total {A} (l : list A) i g :
  (0 <= i < Z.of_nat (length l))%Z ->
  exists a, getitem rng l i g = Some (a, g) /\ nth_error l (Z.to_nat i) = Some a.
Proof.
  intros Hi. unfold getitem. cbv zeta.
  assert (Hi0 : (0 <= i)%Z) by lia.
  rewrite (proj2 (Z.ltb_ge i 0) Hi0). cbv iota. rewrite (proj2 (Z.ltb_ge i 0) Hi0).
  destruct (nth_error l (Z.to_nat i)) as [a|] eqn:E.
  - exists a. unfold ret. auto.
  - apply nth_error_None in E. lia.
Qed.

(** A block sampled for cluster [i]: its size is the count of that
    cluster, and its coordinates are clamped. *)
Definition block_of (counts : list Z) (i : Z) (b : rows * rows) : Prop :=
  exists n,
    nth_error counts (Z.to_nat i) = Some n /\ (0 <= n)%Z /\
    length (fst b) = Z.to_nat n /\ length (snd b) = Z.to_nat n /\
    Forall (in_range (-180) 180) (fst b) /\ Forall (in_range (-90) 90) (snd b).

Lemma generate_pairs_blocks_Some n_pairs n_clusters g phis_all thetas_all g' :
  generate_pairs_blocks rng uniform n_pairs n_clusters g
    = Some (phis_all, thetas_all, g') ->
  (1 <= n_clusters)%Z /\
  exists blocks,
    phis_all = map fst blocks /\ thetas_all = map snd blocks /\
    Forall2 (block_of (n_pairs_per_cluster n_pairs n_clusters))
            (sampled_clusters n_clusters) blocks.
Proof.
  unfold generate_pairs_blocks. intros H.
  apply bind_Some in H. destruct H as (pc & g1 & Hpc & H).
  apply bind_Some in H. destruct H as (tc & g2 & Htc & H).
  apply bind_Some in H. destruct H as (dphi & g3 & Hdp & H).
  apply bind_Some in H. destruct H as (dtheta & g4 & Hdt & H).
  apply bind_Some in H. destruct H as (_ & g5 & _ & H).
  apply bind_Some in H. destruct H as (_ & g6 & _ & H).
  apply bind_Some in H. destruct H as (blocks & g7 & Hb & H).
  unfold ret in H. injection H as <- <- <-.
  apply uniform_vec_Some in Hpc. destruct Hpc as [Hn0 _].
  assert (Hn : (1 <= n_clusters)%Z).
  { unfold true_divide in Hdp. destruct (Z.eqb_spec n_clusters 0); [discriminate | lia]. }
  split; [exact Hn|]. exists blocks. repeat split.
  apply mapM_Some in Hb.
  assert (Hidx : Forall (fun i => (0 <= i)%Z) (sampled_clusters n_clusters)).
  { apply Forall_forall. intros i Hi.
    rewrite sampled_clusters_range in Hi by exact Hn. apply range_In in Hi. lia. }
  revert Hb Hidx. generalize (sampled_clusters n_clusters).
  intros l Hb. induction Hb as [|i b l bs (ga & gb & Hib) _ IH]; intros Hidx.
  - constructor.
  - inversion Hidx as [|? ? Hi Hl]; subst.
    constructor; [|exact (IH Hl)].
    apply bind_Some in Hib. destruct Hib as (n & ga1 & Hgn & Hib).
    apply bind_Some in Hib. destruct Hib as (phi & ga2 & _ & Hib).
    apply bind_Some in Hib. destruct Hib as (theta & ga3 & _ & Hib).
    apply (getitem_Some _ _ _ _ _ Hi) in Hgn. destruct Hgn as [Hgn _].
    destruct b as [bp bt].
    apply generate_cluster_Some in Hib.
    destruct Hib as (Hn1 & L1 & L2 & F1 & F2).
    exists n. simpl. auto 10.
Qed.

Lemma generate_pairs_Some n_pairs n_clusters g phis thetas g' :
  generate_pairs rng uniform n_pairs n_clusters g = Some (phis, thetas, g') ->
  (1 <= n_clusters)%Z /\
  exists blocks,
    phis = concat (map fst blocks) /\ thetas = concat (map snd blocks) /\
    Forall2 (block_of (n_pairs_per_cluster n_pairs n_clusters))
            (sampled_clusters n_clusters) blocks.
Proof.
  unfold generate_pairs. intros H.
  apply bind_Some in H. destruct H as ([pa ta] & g1 & Hb & H).
  apply bind_Some in H. destruct H as (ps & g2 & Hp & H).
  apply bind_Some in H. destruct H as (ts & g3 & Ht & H).
  unfold ret in H. injection H as <- <- <-.
  apply generate_pairs_blocks_Some in Hb.
  destruct Hb as (Hn & blocks & -> & -> & HF).
  split; [exact Hn|]. exists blocks.
  simpl in Hp, Ht. unfold vstack, ret, raise in Hp, Ht.
  repeat split; [| | exact HF].
  - destruct blocks; [discriminate|]. now injection Hp as <- _.
  - destruct blocks; [discriminate|]. now injection Ht as <- _.
Qed.

(** *** How many pairs are emitted *)

Lemma skipn_nth_error {A} (l : list A) s a :
  nth_error l s = Some a -> skipn s l = a :: skipn (S s) l.
Proof.
  revert l. induction s as [|s IH]; intros [|x t] H; try discriminate.
  - injection H as ->. reflexivity.
  - simpl in H. rewrite skipn_cons, (IH _ H). reflexivity.
Qed.

Lemma blocks_sizes_from counts k : forall s blocks,
  Forall2 (block_of counts) (map Z.of_nat (seq s k)) blocks ->
  Z.of_nat (length (concat (map fst blocks))) = zsum (firstn k (skipn s counts)) /\
  Z.of_nat (length (concat (map snd blocks))) = zsum (firstn k (skipn s counts)).
Proof.
  induction k as [|k IH]; intros s blocks H; simpl in H.
  - inversion H; subst. simpl. auto.
  - inversion H as [|i b l bs Hb Hbs]; subst.
    destruct Hb as (n & Hn & Hn0 & L1 & L2 & _).
    rewrite Nat2Z.id in Hn.
    destruct (IH _ _ Hbs) as [E1 E2].
    rewrite (skipn_nth_error _ _ _ Hn). cbn [firstn zsum fold_right map concat].
    fold (zsum (firstn k (skipn (S s) counts))).
    rewrite !length_app, !Nat2Z.inj_add, E1, E2, L1, L2. lia.
Qed.

Lemma generate_pairs_emitted n_pairs n_clusters g phis thetas g' :
  generate_pairs rng uniform n_pairs n_clusters g = Some (phis, thetas, g') ->
  let sampled := Z.to_nat (Z.max n_clusters 2 - 1) in
  Z.of_nat (length phis)
    = zsum (firstn sampled (n_pairs_per_cluster n_pairs n_clusters)) /\
  Z.of_nat (length thetas)
    = zsum (firstn sampled (n_pairs_per_cluster n_pairs n_clusters)).
Proof.
  intros H. apply generate_pairs_Some in H.
  destruct H as (Hn & blocks & -> & -> & HF).
  rewrite sampled_clusters_range in HF by exact Hn. unfold range in HF.
  exact (blocks_sizes_from _ _ 0%nat blocks HF).
Qed.

(** *** The ranges that [generate_pairs] draws from are finite *)

Lemma phi_range_finite :
  isfinite (fsub (of_int PHI_MAX_DEGREES) (of_int PHI_MIN_DEGREES)) = true.
Proof. vm_compute. reflexivity. Qed.

Lemma theta_range_finite :
  isfinite (fsub (of_int THETA_MAX_DEGREES) (of_int THETA_MIN_DEGREES)) = true.
Proof. vm_compute. reflexivity. Qed.

Lemma deviation_finite (a N : Z) :
  (0 <= a <= 1000)%Z -> (1 <= N)%Z ->
  let d := rnd53 (inject_Z a / inject_Z N) in
  isfinite (fsub d (fneg d)) = true.
Proof.
  intros Ha HN d.
  assert (Hn : 1 <= inject_Z N) by (rewrite Zle_Qle in HN; exact HN).
  assert (Ha0 : 0 <= inject_Z a) by (rewrite Zle_Qle in Ha; apply Ha).
  assert (Ha1 : inject_Z a <= 1000)
    by (destruct Ha as [_ Ha]; rewrite Zle_Qle in Ha; exact Ha).
  assert (Hq : 0 <= inject_Z a / inject_Z N <= 1000).
  { split.
    - apply Qle_shift_div_l; lra.
    - apply Qle_shift_div_r; [lra|]. nra. }
  assert (Hd : 0 <= d <= 1000).
  { split; [apply rnd53_nonneg; apply Hq|].
    rewrite <- (rnd53_int 1000 1000) by (reflexivity || discriminate).
    apply rnd53_mono, Hq. }
  assert (Hs : 0 <= fsub d (fneg d) <= 2000).
  { unfold fsub, fneg. split; [apply rnd53_nonneg; lra|].
    rewrite <- (rnd53_int 2000 2000) by (reflexivity || discriminate).
    apply rnd53_mono. lra. }
  unfold isfinite. apply Qle_bool_iff.
  rewrite Qabs_pos by apply Hs.
  apply Qle_trans with 2000; [apply Hs|].
  apply Qle_bool_iff. vm_compute. reflexivity.
Qed.

(** *** The sampler returns, for arguments below [2^53] *)

Lemma generate_pairs_total n_pairs n_clusters g :
  (0 <= n_pairs <= 2 ^ 53)%Z -> (1 <= n_clusters <= 2 ^ 53)%Z ->
  exists phis thetas g',
    generate_pairs rng uniform n_pairs n_clusters g = Some (phis, thetas, g').
Proof.
  intros HP HN.
  pose proof (counts_length n_pairs n_clusters HP HN) as Lc.
  pose proof (counts_nonneg n_pairs n_clusters HP HN) as Hc.
  assert (Hb : exists a g1,
    generate_pairs_blocks rng uniform n_pairs n_clusters g = Some (a, g1) /\
    fst a <> [] /\ snd a <> []).
  { unfold generate_pairs_blocks, bind at 1 2, uniform_vec.
    rewrite phi_range_finite, theta_range_finite. cbn [negb].
    replace (n_clusters <? 0)%Z with false by (symmetry; apply Z.ltb_ge; lia).
    pose proof (uniform_n_length
                  (of_int PHI_MIN_DEGREES) (of_int PHI_MAX_DEGREES)
                  (Z.to_nat n_clusters) g) as L1.
    destruct (uniform_n rng uniform (of_int PHI_MIN_DEGREES) _ _ g) as [pc g1].
    pose proof (uniform_n_length
                  (of_int THETA_MIN_DEGREES) (of_int THETA_MAX_DEGREES)
                  (Z.to_nat n_clusters) g1) as L2.
    destruct (uniform_n rng uniform (of_int THETA_MIN_DEGREES) _ _ g1) as [tc g2].
    simpl in L1, L2. unfold true_divide.
    replace (n_clusters =? 0)%Z with false by (symmetry; apply Z.eqb_neq; lia).
    unfold bind at 1 2, ret at 1 2.
    rewrite L1, L2, Lc, Nat.eqb_refl. unfold assert, bind at 1 2, ret at 1 2.
    match goal with
    | |- context [mapM rng ?f ?l] =>
        destruct (mapM_total f l) with (g := g2) as (blocks & g3 & Hm)
    end.
    { intros i Hi g0.
      rewrite sampled_clusters_range in Hi by lia. apply range_In in Hi.
      destruct (getitem_total (n_pairs_per_cluster n_pairs n_clusters) i g0)
        as (n & Gn & En); [lia|].
      destruct (getitem_total pc i g0) as (phi & Gp & _); [lia|].
      destruct (getitem_total tc i g0) as (theta & Gt & _); [lia|].
      unfold bind. rewrite Gn, Gp, Gt.
      apply generate_cluster_total;
        [| apply deviation_finite; [split; discriminate | lia] ..].
      apply nth_error_In in En.
      exact (proj1 (Forall_forall _ _) Hc n En). }
    exists (map fst blocks, map snd blocks), g3. split.
    { apply bind_Some. exists blocks, g3. split; [exact Hm | reflexivity]. }
    apply mapM_Some, Forall2_length in Hm.
    rewrite sampled_clusters_range, range_length in Hm by lia.
    simpl. destruct blocks; [simpl in Hm; lia | split; discriminate]. }
  destruct Hb as ([pa ta] & g1 & Hb & Hpa & Hta). simpl in Hpa, Hta.
  unfold generate_pairs, bind. rewrite Hb. simpl.
  destruct pa; [congruence|]. destruct ta; [congruence|].
  unfold vstack, ret. eauto.
Qed.

(** With two clusters or more, the emitted pairs are those below the
    last breakpoint but one. *)
Lemma generate_pairs_emitted_bp n_pairs n_clusters g phis thetas g' :
  (0 <= n_pairs <= 2 ^ 53)%Z -> (2 <= n_clusters <= 2 ^ 53)%Z ->
  generate_pairs rng uniform n_pairs n_clusters g = Some (phis, thetas, g') ->
  Z.of_nat (length phis) = Qfloor (bp n_pairs n_clusters (n_clusters - 1)) /\
  Z.of_nat (length thetas) = Qfloor (bp n_pairs n_clusters (n_clusters - 1)).
Proof.
  intros HP HN H. apply generate_pairs_emitted in H. cbv zeta in H.
  replace (Z.max n_clusters 2) with n_clusters in H by lia.
  rewrite counts_prefix_sum in H by lia.
  rewrite breaks_nth_lt in H by lia.
  rewrite Z2Nat.id in H by lia. exact H.
Qed.

(** With one cluster, the whole partition is emitted. *)
Lemma generate_pairs_emitted_single n_pairs g phis thetas g' :
  (0 <= n_pairs <= 2 ^ 53)%Z ->
  generate_pairs rng uniform n_pairs 1 g = Some (phis, thetas, g') ->
  Z.of_nat (length phis) = n_pairs /\ Z.of_nat (length thetas) = n_pairs.
Proof.
  intros HP H. apply generate_pairs_emitted in H. cbv zeta in H.
  assert (HN : (1 <= 1 <= 2 ^ 53)%Z) by lia.
  pose proof (counts_length n_pairs 1 HP HN) as L.
  change (Z.to_nat (Z.max 1 2 - 1)) with (Z.to_nat 1) in H.
  rewrite <- L, firstn_all, (counts_sum n_pairs 1 HP HN) in H. exact H.
Qed.

Lemma generate_pairs_in_range n_pairs n_clusters g phis thetas g' :
  generate_pairs rng uniform n_pairs n_clusters g = Some (phis, thetas, g') ->
  Forall (in_range (-180) 180) phis /\ Forall (in_range (-90) 90) thetas.
Proof.
  intros H. apply generate_pairs_Some in H.
  destruct H as (_ & blocks & -> & -> & HF).
  revert HF. generalize (sampled_clusters n_clusters). intros l HF.
  induction HF as [|i b l bs Hb _ [IH1 IH2]]; [split; constructor|].
  destruct Hb as (n & _ & _ & _ & _ & F1 & F2).
  cbn [map concat]. split; apply Forall_app; auto.
Qed.

End GeneratorFacts.

End Sampler.

(** ** The distance engine *)

Module Distance.

(** The binary64 operations that [haversine_distance] applies, kept
    abstract: the structure of the computation does not depend on how
    they round.  [f_neg] is not used by the engine; the laws of the
    arithmetic are stated with it. *)
Class Scalar (F : Type) : Type := {
  f_of_int : Z -> F;
  f_neg : F -> F;
  f_add : F -> F -> F;
  f_sub : F -> F -> F;
  f_mul : F -> F -> F;
  f_div : F -> F -> F;
  np_radians : F -> F;
  np_sin : F -> F;
  np_cos : F -> F;
  np_sqrt : F -> F;
  np_asin : F -> F
}.

Section Engine.

Context {F : Type} `{Scalar F}.

Fixpoint zip_with (op : F -> F -> F) (a b : list F) : list F :=
  match a, b with
  | x :: a', y :: b' => op x y :: zip_with op a' b'
  | _, _ => []
  end.

(** A binary operation on one-dimensional arrays, with NumPy's
    broadcasting: equal lengths combine element by element, a
    length-1 array is stretched, anything else raises ValueError. *)
Definition broadcast2 (op : F -> F -> F) (a b : list F) : option (list F) :=
  if (length a =? length b)%nat then Some (zip_with op a b)
  else
    match a, b with
    | [x], _ => Some (map (fun y => op x y) b)
    | _, [y] => Some (map (fun x => op x y) a)
    | _, _ => None
    end.

(** [x / 2] and [x ** 2] on an array. *)
Definition halve (a : list F) : list F := map (fun x => f_div x (f_of_int 2)) a.
Definition square (a : list F) : list F := map (fun x => f_mul x x) a.

Definition obind {A B} (m : option A) (k : A -> option B) : option B :=
  match m with
  | Some a => k a
  | None => None
  end.

(** [root_term_0 + root_term_1]: the argument of the square root. *)
Definition haversine_root (phis0 thetas0 phis1 thetas1 : list F) : option (list F) :=
  obind (broadcast2 f_sub phis0 phis1) (fun d =>
  let dphis := map np_radians d in
  let thetas0 := map np_radians thetas0 in
  let thetas1 := map np_radians thetas1 in
  obind (broadcast2 f_sub thetas1 thetas0) (fun dthetas =>
  let root_term_0 := square (map np_sin (halve dthetas)) in
  obind (broadcast2 f_mul (map np_cos thetas0) (map np_cos thetas1)) (fun cc =>
  obind (broadcast2 f_mul cc (square (map np_sin (halve dphis)))) (fun root_term_1 =>
  broadcast2 f_add root_term_0 root_term_1)))).

(** [2 * radius * np.asin(np.sqrt(a))]. *)
Definition haversine_scale (radius : F) (a : list F) : list F :=
  map (fun x => f_mul (f_mul (f_of_int 2) radius) x) (map np_asin (map np_sqrt a)).

Definition haversine_distance (phis0 thetas0 phis1 thetas1 : list F) (radius : F)
  : option (list F) :=
  obind (haversine_root phis0 thetas0 phis1 thetas1)
        (fun a => Some (haversine_scale radius a)).

(** The haversine formula for one pair, as the specification writes it. *)
Definition haversine_formula_root (phi0 theta0 phi1 theta1 : F) : F :=
  let dphi := np_radians (f_sub phi0 phi1) in
  let theta0' := np_radians theta0 in
  let theta1' := np_radians theta1 in
  let dtheta := f_sub theta1' theta0' in
  let sq x := f_mul x x in
  let half x := f_div x (f_of_int 2) in
  f_add (sq (np_sin (half dtheta)))
        (f_mul (f_mul (np_cos theta0') (np_cos theta1')) (sq (np_sin (half dphi)))).

Definition haversine_formula (phi0 theta0 phi1 theta1 radius : F) : F :=
  f_mul (f_mul (f_of_int 2) radius)
        (np_asin (np_sqrt (haversine_formula_root phi0 theta0 phi1 theta1))).

(** The formula applied to aligned pairs. *)
Fixpoint aligned (f : F -> F -> F -> F -> F) (l0 l1 l2 l3 : list F) : list F :=
  match l0, l1, l2, l3 with
  | a :: l0', b :: l1', c :: l2', d :: l3' => f a b c d :: aligned f l0' l1' l2' l3'
  | _, _, _, _ => []
  end.

End Engine.

(** Laws of binary64 arithmetic used for the symmetry of the distance:
    swapping the operands of a subtraction negates the difference, or
    leaves it as it is (in IEEE 754 [x - x] and [y - y] are both [+0]);
    negation is exact, so it commutes with the scaling by [pi / 180] and
    with halving; multiplication is commutative; the sine is odd, so its
    square is even. *)
Class ScalarLaws (F : Type) `{Scalar F} : Prop := {
  f_sub_swap : forall x y,
    f_sub y x = f_neg (f_sub x y) \/ f_sub y x = f_sub x y;
  np_radians_neg : forall x, np_radians (f_neg x) = f_neg (np_radians x);
  f_half_neg : forall x, f_div (f_neg x) (f_of_int 2) = f_neg (f_div x (f_of_int 2));
  np_sin_neg_sq : forall x, f_mul (np_sin (f_neg x)) (np_sin (f_neg x))
                            = f_mul (np_sin x) (np_sin x);
  f_mul_comm : forall x y, f_mul x y = f_mul y x
}.

Section EngineFacts.

Context {F : Type} `{Scalar F}.

Lemma zip_with_length op (a b : list F) :
  length a = length b -> length (zip_with op a b) = length a.
Proof.
  revert b. induction a as [|x a IH]; intros [|y b] E; simpl in *; try lia.
  now rewrite IH by lia.
Qed.

Lemma broadcast2_same op (a b : list F) :
  length a = length b -> broadcast2 op a b = Some (zip_with op a b).
Proof. intros E. unfold broadcast2. now rewrite E, Nat.eqb_refl. Qed.

Lemma halve_length (a : list F) : length (halve a) = length a.
Proof. apply length_map. Qed.

Lemma square_length (a : list F) : length (square a) = length a.
Proof. apply length_map. Qed.

Ltac lengths :=
  repeat first
    [ rewrite length_map | rewrite square_length | rewrite halve_length
    | rewrite zip_with_length by lengths ];
  try lia.

Lemma aligned_length f (l0 l1 l2 l3 : list F) :
  length l1 = length l0 -> length l2 = length l0 -> length l3 = length l0 ->
  length (aligned f l0 l1 l2 l3) = length l0.
Proof.
  revert l1 l2 l3. induction l0 as [|a l0 IH]; intros [|b l1] [|c l2] [|d l3];
    simpl; intros; try lia.
  now rewrite IH by lia.
Qed.

Lemma aligned_nth f (l0 l1 l2 l3 : list F) i d :
  length l1 = length l0 -> length l2 = length l0 -> length l3 = length l0 ->
  (i < length l0)%nat ->
  nth i (aligned f l0 l1 l2 l3) d = f (nth i l0 d) (nth i l1 d) (nth i l2 d) (nth i l3 d).
Proof.
  revert l1 l2 l3 i. induction l0 as [|a l0 IH]; intros [|b l1] [|c l2] [|e l3] i;
    simpl; intros; try lia.
  destruct i as [|i]; [reflexivity|]. apply IH; lia.
Qed.

Lemma aligned_swap f (l0 l1 l2 l3 : list F) :
  aligned f l0 l1 l2 l3 = aligned (fun a b c d => f c d a b) l2 l3 l0 l1.
Proof.
  revert l1 l2 l3. induction l0 as [|a l0 IH]; intros [|b l1] [|c l2] [|d l3];
    simpl; try reflexivity.
  now rewrite IH.
Qed.

Lemma aligned_ext f g (l0 l1 l2 l3 : list F) :
  (forall a b c d, f a b c d = g a b c d) ->
  aligned f l0 l1 l2 l3 = aligned g l0 l1 l2 l3.
Proof.
  intros E. revert l1 l2 l3.
  induction l0 as [|a l0 IH]; intros [|b l1] [|c l2] [|d l3]; simpl; try reflexivity.
  now rewrite E, IH.
Qed.

(** The whole-array computation is the formula, pair by pair. *)
Lemma root_aligned (phis0 thetas0 phis1 thetas1 : list F) :
  length thetas0 = length phis0 -> length phis1 = length phis0 ->
  length thetas1 = length phis0 ->
  haversine_root phis0 thetas0 phis1 thetas1
  = Some (aligned haversine_formula_root phis0 thetas0 phis1 thetas1).
Proof.
  intros L1 L2 L3. unfold haversine_root. cbv zeta.
  rewrite (broadcast2_same f_sub phis0 phis1) by lia. cbn [obind].
  rewrite (broadcast2_same f_sub) by lengths. cbn [obind].
  rewrite (broadcast2_same f_mul) by lengths. cbn [obind].
  rewrite (broadcast2_same f_mul) by lengths. cbn [obind].
  rewrite (broadcast2_same f_add) by lengths.
  f_equal. clear L1 L2 L3. revert thetas0 phis1 thetas1.
  induction phis0 as [|a l0 IH]; intros [|b l1] [|c l2] [|d l3]; try reflexivity.
  cbn -[haversine_formula_root]. f_equal. apply IH.
Qed.

Lemma haversine_aligned (phis0 thetas0 phis1 thetas1 : list F) radius :
  length thetas0 = length phis0 -> length phis1 = length phis0 ->
  length thetas1 = length phis0 ->
  haversine_distance phis0 thetas0 phis1 thetas1 radius
  = Some (aligned (fun a b c d => haversine_formula a b c d radius)
                  phis0 thetas0 phis1 thetas1).
Proof.
  intros L1 L2 L3. unfold haversine_distance.
  rewrite root_aligned by assumption. cbn [obind]. f_equal.
  clear. revert thetas0 phis1 thetas1.
  induction phis0 as [|a l0 IH]; intros [|b l1] [|c l2] [|d l3]; try reflexivity.
  unfold haversine_scale in *. cbn [aligned map]. f_equal. apply IH.
Qed.

Lemma formula_root_sym `{!ScalarLaws F} phi0 theta0 phi1 theta1 :
  haversine_formula_root phi1 theta1 phi0 theta0
  = haversine_formula_root phi0 theta0 phi1 theta1.
Proof.
  unfold haversine_formula_root. cbv zeta.
  rewrite (f_mul_comm (np_cos (np_radians theta1))).
  assert (Ephi :
    f_mul (np_sin (f_div (np_radians (f_sub phi1 phi0)) (f_of_int 2)))
          (np_sin (f_div (np_radians (f_sub phi1 phi0)) (f_of_int 2)))
    = f_mul (np_sin (f_div (np_radians (f_sub phi0 phi1)) (f_of_int 2)))
            (np_sin (f_div (np_radians (f_sub phi0 phi1)) (f_of_int 2)))).
  { destruct (f_sub_swap phi0 phi1) as [E|E]; rewrite E; [|reflexivity].
    now rewrite np_radians_neg, f_half_neg, np_sin_neg_sq. }
  assert (Etheta :
    f_mul (np_sin (f_div (f_sub (np_radians theta0) (np_radians theta1)) (f_of_int 2)))
          (np_sin (f_div (f_sub (np_radians theta0) (np_radians theta1)) (f_of_int 2)))
    = f_mul (np_sin (f_div (f_sub (np_radians theta1) (np_radians theta0)) (f_of_int 2)))
            (np_sin (f_div (f_sub (np_radians theta1) (np_radians theta0)) (f_of_int 2)))).
  { destruct (f_sub_swap (np_radians theta1) (np_radians theta0)) as [E|E];
      rewrite E; [|reflexivity].
    now rewrite f_half_neg, np_sin_neg_sq. }
  now rewrite Ephi, Etheta.
Qed.

End EngineFacts.

(** *** Shapes: when broadcasting fails *)

Definition bshape (n m : nat) : option nat :=
  if (n =? m)%nat then Some n
  else if (n =? 1)%nat then Some m
  else if (m =? 1)%nat then Some n
  else None.

(** The shape of the result of [haversine_distance], operation by operation. *)
Definition haversine_shape (n0 m0 n1 m1 : nat) : option nat :=
  match bshape n0 n1 with
  | None => None
  | Some l1 =>
      match bshape m1 m0 with
      | None => None
      | Some l2 =>
          match bshape m0 m1 with
          | None => None
          | Some l3 =>
              match bshape l3 l1 with
              | None => None
              | Some l4 => bshape l2 l4
              end
          end
      end
  end.

Section Shapes.

Context {F : Type} `{Scalar F}.

Lemma broadcast2_shape op (a b : list F) :
  option_map (@length F) (broadcast2 op a b) = bshape (length a) (length b).
Proof.
  unfold broadcast2, bshape.
  destruct (Nat.eqb_spec (length a) (length b)) as [E|N].
  - simpl. now rewrite zip_with_length.
  - destruct a as [|x [|x' a]]; destruct b as [|y [|y' b]];
      simpl in *; try congruence; now rewrite ?length_map.
Qed.

Lemma broadcast2_Some op (a b c : list F) :
  broadcast2 op a b = Some c -> bshape (length a) (length b) = Some (length c).
Proof. intros E. now rewrite <- (broadcast2_shape op), E. Qed.

Lemma broadcast2_None op (a b : list F) :
  broadcast2 op a b = None -> bshape (length a) (length b) = None.
Proof. intros E. now rewrite <- (broadcast2_shape op), E. Qed.

Lemma haversine_root_shape (phis0 thetas0 phis1 thetas1 : list F) :
  option_map (@length F) (haversine_root phis0 thetas0 phis1 thetas1)
  = haversine_shape (length phis0) (length thetas0) (length phis1) (length thetas1).
Proof.
  unfold haversine_root, haversine_shape. cbv zeta.
  destruct (broadcast2 f_sub phis0 phis1) as [d|] eqn:E1;
    [apply broadcast2_Some in E1 | apply broadcast2_None in E1];
    rewrite E1; [|reflexivity].
  cbn [obind].
  destruct (broadcast2 f_sub (map np_radians thetas1) _) as [dt|] eqn:E2;
    [apply broadcast2_Some in E2 | apply broadcast2_None in E2];
    rewrite !length_map in E2; rewrite E2; [|reflexivity].
  cbn [obind].
  destruct (broadcast2 f_mul (map np_cos _) _) as [cc|] eqn:E3;
    [apply broadcast2_Some in E3 | apply broadcast2_None in E3];
    rewrite !length_map in E3; rewrite E3; [|reflexivity].
  cbn [obind].
  destruct (broadcast2 f_mul cc _) as [r1|] eqn:E4;
    [apply broadcast2_Some in E4 | apply broadcast2_None in E4];
    rewrite square_length, length_map, halve_length, length_map in E4;
    rewrite E4; [|reflexivity].
  cbn [obind].
  rewrite broadcast2_shape, square_length, length_map, halve_length. reflexivity.
Qed.

Lemma haversine_distance_shape (phis0 thetas0 phis1 thetas1 : list F) radius :
  option_map (@length F) (haversine_distance phis0 thetas0 phis1 thetas1 radius)
  = haversine_shape (length phis0) (length thetas0) (length phis1) (length thetas1).
Proof.
  rewrite <- haversine_root_shape. unfold haversine_distance.
  destruct (haversine_root _ _ _ _); [|reflexivity].
  simpl. unfold haversine_scale. now rewrite !length_map.
Qed.

End Shapes.

(** Two lengths are compatible when NumPy can broadcast them. *)
Definition compatible (n m : nat) : Prop := n = m \/ n = 1%nat \/ m = 1%nat.

Lemma haversine_shape_None n0 m0 n1 m1 :
  haversine_shape n0 m0 n1 m1 = None <->
  exists n m, In n [n0; m0; n1; m1] /\ In m [n0; m0; n1; m1] /\ ~ compatible n m.
Proof.
  unfold haversine_shape, bshape, compatible. split.
  - intros E.
    repeat match type of E with
           | context [(?a =? ?b)%nat] => destruct (Nat.eqb_spec a b); subst
           end;
      try discriminate; try (exfalso; congruence);
      match goal with
      | Ha : ?a <> ?b, H1 : ?a <> 1%nat, H2 : ?b <> 1%nat |- _ =>
          exists a, b; simpl; repeat split; [auto 6 | auto 6 | lia]
      end.
  - intros (n & m & Hn & Hm & Hc). simpl in Hn, Hm.
    repeat match goal with
           | |- context [(?a =? ?b)%nat] => destruct (Nat.eqb_spec a b); subst
           end;
      try reflexivity; exfalso; apply Hc; lia.
Qed.

(** *** A model of the operations: real numbers with NaN

    Arithmetic is exact; [np.sqrt] and [np.asin] return NaN outside their
    domain, as NumPy does, and NaN propagates through every operation.
    There is no infinity: a division by zero gives NaN too (the engine
    only ever divides by 2). *)

Local Open Scope R_scope.

Inductive npreal : Type :=
  | NaN
  | Fin (r : R).

Definition lift1 (f : R -> R) (x : npreal) : npreal :=
  match x with
  | Fin a => Fin (f a)
  | NaN => NaN
  end.

Definition lift2 (f : R -> R -> R) (x y : npreal) : npreal :=
  match x, y with
  | Fin a, Fin b => Fin (f a b)
  | _, _ => NaN
  end.

Definition re_div (x y : npreal) : npreal :=
  match x, y with
  | Fin a, Fin b => if Req_EM_T b 0 then NaN else Fin (a / b)
  | _, _ => NaN
  end.

Definition re_sqrt (x : npreal) : npreal :=
  match x with
  | Fin a => if Rlt_dec a 0 then NaN else Fin (sqrt a)
  | NaN => NaN
  end.

Definition re_asin (x : npreal) : npreal :=
  match x with
  | Fin a => if Rlt_dec a (-1) then NaN else if Rlt_dec 1 a then NaN else Fin (asin a)
  | NaN => NaN
  end.

#[global] Instance npreal_scalar : Scalar npreal := {|
  f_of_int z := Fin (IZR z);
  f_neg := lift1 Ropp;
  f_add := lift2 Rplus;
  f_sub := lift2 Rminus;
  f_mul := lift2 Rmult;
  f_div := re_div;
  np_radians := lift1 (fun x => x * (PI / 180));
  np_sin := lift1 sin;
  np_cos := lift1 cos;
  np_sqrt := re_sqrt;
  np_asin := re_asin
|}.

#[global] Instance npreal_laws : ScalarLaws npreal.
Proof.
  constructor.
  - intros [|x] [|y]; left; simpl; try reflexivity. f_equal. ring.
  - intros [|x]; simpl; try reflexivity. f_equal. ring.
  - intros [|x]; simpl; try reflexivity.
    destruct (Req_EM_T 2 0) as [E|_]; [exfalso; Lra.lra|]. simpl. f_equal. field.
  - intros [|x]; simpl; try reflexivity. rewrite sin_neg. f_equal. ring.
  - intros [|x] [|y]; simpl; try reflexivity. f_equal. ring.
Qed.

(** The root term of one pair, in exact arithmetic. *)
Definition root_term (phi0 theta0 phi1 theta1 : R) : R :=
  let dphi := (phi0 - phi1) * (PI / 180) in
  let t0 := theta0 * (PI / 180) in
  let t1 := theta1 * (PI / 180) in
  sin ((t1 - t0) / 2) * sin ((t1 - t0) / 2)
  + cos t0 * cos t1 * (sin (dphi / 2) * sin (dphi / 2)).

Lemma formula_root_real phi0 theta0 phi1 theta1 :
  haversine_formula_root (Fin phi0) (Fin theta0) (Fin phi1) (Fin theta1)
  = Fin (root_term phi0 theta0 phi1 theta1).
Proof.
  unfold haversine_formula_root, root_term. simpl.
  destruct (Req_EM_T 2 0) as [E|_]; [exfalso; Lra.lra|]. reflexivity.
Qed.

Lemma sin_sqr_bound x : 0 <= sin x * sin x <= 1.
Proof. pose proof (SIN_bound x). Lra.nra. Qed.

(** The haversine of an angle: [sin²(x / 2) = (1 - cos x) / 2]. *)
Lemma sin_half_sqr x : sin (x / 2) * sin (x / 2) = (1 - cos x) / 2.
Proof.
  replace x with (2 * (x / 2)) at 3 by field.
  rewrite cos_2a_sin. field.
Qed.

Lemma root_term_unit phi0 theta0 phi1 theta1 :
  0 <= root_term phi0 theta0 phi1 theta1 <= 1.
Proof.
  unfold root_term. cbv zeta.
  set (t0 := theta0 * (PI / 180)). set (t1 := theta1 * (PI / 180)).
  set (d := (phi0 - phi1) * (PI / 180)).
  pose proof (sin_sqr_bound (d / 2)) as HB.
  pose proof (sin_sqr_bound ((t1 - t0) / 2)) as HA.
  pose proof (sin_half_sqr (t1 - t0)) as EA. rewrite cos_minus in EA.
  pose proof (COS_bound (t1 + t0)) as HC. rewrite cos_plus in HC.
  set (A := sin ((t1 - t0) / 2) * sin ((t1 - t0) / 2)) in *.
  set (B := sin (d / 2) * sin (d / 2)) in *.
  set (c0 := cos t0) in *. set (c1 := cos t1) in *.
  set (s0 := sin t0) in *. set (s1 := sin t1) in *.
  assert (HAc : 0 <= A + c0 * c1 <= 1) by Lra.lra.
  assert (E : A + c0 * c1 * B = A * (1 - B) + (A + c0 * c1) * B) by ring.
  rewrite E. split.
  - apply Rplus_le_le_0_compat; apply Rmult_le_pos; Lra.lra.
  - assert (A * (1 - B) <= 1 * (1 - B)) by (apply Rmult_le_compat_r; Lra.lra).
    assert ((A + c0 * c1) * B <= 1 * B) by (apply Rmult_le_compat_r; Lra.lra).
    Lra.lra.
Qed.

Lemma scale_out_of_domain radius a :
  a < 0 \/ 1 < a -> haversine_scale radius [Fin a] = [NaN].
Proof.
  intros Ha. unfold haversine_scale.
  cbn [map np_sqrt np_asin npreal_scalar f_mul f_of_int].
  assert (E : re_asin (re_sqrt (Fin a)) = NaN).
  { unfold re_sqrt. destruct (Rlt_dec a 0) as [|Hn]; [reflexivity|].
    destruct Ha as [Ha|Ha]; [contradiction|].
    unfold re_asin.
    assert (1 < sqrt a) by (rewrite <- sqrt_1; apply sqrt_lt_1; Lra.lra).
    destruct (Rlt_dec (sqrt a) (-1)); [reflexivity|].
    destruct (Rlt_dec 1 (sqrt a)); [reflexivity | contradiction]. }
  rewrite E. destruct radius; reflexivity.
Qed.

Lemma scale_in_domain radius a :
  0 <= a <= 1 ->
  haversine_scale (Fin radius) [Fin a] = [Fin (2 * radius * asin (sqrt a))].
Proof.
  intros Ha. unfold haversine_scale. simpl.
  destruct (Rlt_dec a 0) as [C|_]; [exfalso; Lra.lra|].
  assert (0 <= sqrt a) by apply sqrt_pos.
  assert (sqrt a <= 1) by (rewrite <- sqrt_1; apply sqrt_le_1; Lra.lra).
  unfold re_asin.
  destruct (Rlt_dec (sqrt a) (-1)) as [C|_]; [exfalso; Lra.lra|].
  destruct (Rlt_dec 1 (sqrt a)) as [C|_]; [exfalso; Lra.lra|].
  reflexivity.
Qed.

End Distance.

(** ** The distance engine over IEEE 754 binary64

    The arithmetic that the code runs on: the operations of [SpecFloat]
    at precision 53 and exponent bound 1024.  The sine, the cosine and
    the arc sine are the C library's; they stay parameters. *)

Module Binary64Engine.

Import Distance.

Local Open Scope Z_scope.

Definition b64_of_Z (z : Z) : spec_float := binary_normalize 53 1024 z 0 false.

(** [NPY_PI], the binary64 number nearest to pi, and the factor
    [NPY_PI / 180.0] by which [np.radians] multiplies. *)
Definition b64_pi : spec_float := S754_finite false 7074237752028440 (-51).
Definition deg2rad : spec_float := SFdiv 53 1024 b64_pi (b64_of_Z 180).

Definition binary64 (sin64 cos64 asin64 : spec_float -> spec_float)
  : Scalar spec_float := {|
  f_of_int := b64_of_Z;
  f_neg := SFopp;
  f_add := SFadd 53 1024;
  f_sub := SFsub 53 1024;
  f_mul := SFmul 53 1024;
  f_div := SFdiv 53 1024;
  np_radians := fun x => SFmul 53 1024 x deg2rad;
  np_sin := sin64;
  np_cos := cos64;
  np_sqrt := SFsqrt 53 1024;
  np_asin := asin64
|}.

(** [x < y] on binary64; false when either is NaN. *)
Definition b64_lt (x y : spec_float) : bool := SFltb x y.

(** The clamp that the specification asks for, [min(max(a, 0), 1)], and
    the variant of [haversine_distance] that applies it before the
    square root. *)
Definition b64_max (x y : spec_float) : spec_float := if b64_lt x y then y else x.
Definition b64_min (x y : spec_float) : spec_float := if b64_lt y x then y else x.
Definition b64_clamp01 (a : spec_float) : spec_float :=
  b64_min (b64_max a (b64_of_Z 0)) (b64_of_Z 1).

Definition haversine_distance_clamped
  (sin64 cos64 asin64 : spec_float -> spec_float)
  (phis0 thetas0 phis1 thetas1 : list spec_float) (radius : spec_float)
  : option (list spec_float) :=
  obind (@haversine_root _ (binary64 sin64 cos64 asin64) phis0 thetas0 phis1 thetas1)
        (fun a => Some (@haversine_scale _ (binary64 sin64 cos64 asin64) radius
                          (map b64_clamp01 a))).

(** The values that the C library returns at the arguments reached from
    the points (0, 91) and (180, 89):
    [sin(-0x1.1df46a2529d40p-6) = -0x1.1df0b2b89dd25p-6],
    [sin(-0x1.921fb54442d18p+0) = -1.0],
    [cos(0x1.969786ecd778dp+0) = -0x1.1df0b2b89dd14p-6],
    [cos(0x1.8da7e39bae2a3p+0) = 0x1.1df0b2b89dd37p-6],
    [asin(NaN) = NaN] and [asin(+0) = +0]. *)
Definition libm_sample (sin64 cos64 asin64 : spec_float -> spec_float) : Prop :=
  sin64 (S754_finite true 5030569068109120 (-58))
  = S754_finite true 5030313672170789 (-58) /\
  sin64 (S754_finite true 7074237752028440 (-52))
  = S754_finite true 4503599627370496 (-52) /\
  cos64 (S754_finite false 7152840393717645 (-52))
  = S754_finite true 5030313672170772 (-58) /\
  cos64 (S754_finite false 6995635110339235 (-52))
  = S754_finite false 5030313672170807 (-58) /\
  asin64 S754_nan = S754_nan /\
  asin64 (S754_zero false) = S754_zero false.

(** A function given by finitely many of its values, NaN elsewhere. *)
Definition b64_same (x y : spec_float) : bool :=
  match x, y with
  | S754_zero s, S754_zero s' => Bool.eqb s s'
  | S754_infinity s, S754_infinity s' => Bool.eqb s s'
  | S754_nan, S754_nan => true
  | S754_finite s m e, S754_finite s' m' e' =>
      Bool.eqb s s' && (m =? m')%positive && (e =? e')
  | _, _ => false
  end.

Fixpoint tabulated (t : list (spec_float * spec_float)) (x : spec_float)
  : spec_float :=
  match t with
  | [] => S754_nan
  | (a, v) :: t' => if b64_same x a then v else tabulated t' x
  end.

Definition sample_sin : spec_float -> spec_float :=
  tabulated [(S754_finite true 5030569068109120 (-58),
              S754_finite true 5030313672170789 (-58));
             (S754_finite true 7074237752028440 (-52),
              S754_finite true 4503599627370496 (-52))].

Definition sample_cos : spec_float -> spec_float :=
  tabulated [(S754_finite false 7152840393717645 (-52),
              S754_finite true 5030313672170772 (-58));
             (S754_finite false 6995635110339235 (-52),
              S754_finite false 5030313672170807 (-58))].

Definition sample_asin : spec_float -> spec_float :=
  tabulated [(S754_zero false, S754_zero false)].

(** *** Negation and the operations *)

Lemma binary_round_aux_opp s m e l :
  binary_round_aux 53 1024 (negb s) m e l
  = SFopp (binary_round_aux 53 1024 s m e l).
Proof.
  unfold binary_round_aux.
  destruct (shr_fexp 53 1024 m e l) as [mrs' e'].
  destruct (shr_fexp 53 1024 _ e' loc_Exact) as [mrs'' e''].
  destruct (shr_m mrs''); try reflexivity.
  destruct (e'' <=? 1024 - 53); reflexivity.
Qed.

Lemma binary_round_opp s m e :
  binary_round 53 1024 (negb s) m e = SFopp (binary_round 53 1024 s m e).
Proof.
  unfold binary_round.
  destruct (shl_align m e _) as [mz ez]. apply binary_round_aux_opp.
Qed.

Lemma binary_normalize_opp m e :
  binary_normalize 53 1024 (- m) e false
  = SFopp (binary_normalize 53 1024 m e false) \/
  binary_normalize 53 1024 (- m) e false = binary_normalize 53 1024 m e false.
Proof.
  destruct m as [|p|p]; cbn [Z.opp binary_normalize].
  - right. reflexivity.
  - left. exact (binary_round_opp false p e).
  - left. exact (binary_round_opp true p e).
Qed.

Lemma SFsub_swap x y :
  SFsub 53 1024 y x = SFopp (SFsub 53 1024 x y) \/
  SFsub 53 1024 y x = SFsub 53 1024 x y.
Proof.
  destruct x as [sx|sx| |sx mx ex], y as [sy|sy| |sy my ey];
    try (destruct sx; destruct sy; cbn; auto; fail);
    try (destruct sx; cbn; auto; fail);
    try (destruct sy; cbn; auto; fail);
    try (cbn; auto; fail).
  cbn [SFsub]. rewrite (Z.min_comm ey ex).
  set (ez := Z.min ex ey).
  set (a := cond_Zopp sx (Zpos (fst (shl_align mx ex ez)))).
  set (b := cond_Zopp sy (Zpos (fst (shl_align my ey ez)))).
  replace (b - a) with (- (a - b)) by ring.
  apply binary_normalize_opp.
Qed.

Lemma SFmul_opp_l x y :
  SFmul 53 1024 (SFopp x) y = SFopp (SFmul 53 1024 x y).
Proof.
  destruct x as [sx|sx| |sx mx ex], y as [sy|sy| |sy my ey];
    try reflexivity;
    try (destruct sx, sy; reflexivity).
  cbn [SFmul SFopp].
  replace (xorb (negb sx) sy) with (negb (xorb sx sy)) by (now destruct sx, sy).
  apply binary_round_aux_opp.
Qed.

Lemma SFdiv_opp_l x y :
  SFdiv 53 1024 (SFopp x) y = SFopp (SFdiv 53 1024 x y).
Proof.
  destruct x as [sx|sx| |sx mx ex], y as [sy|sy| |sy my ey];
    try reflexivity;
    try (destruct sx, sy; reflexivity).
  cbn [SFdiv SFopp].
  destruct (SFdiv_core_binary 53 1024 (Z.pos mx) ex (Z.pos my) ey) as [[mz ez] lz].
  replace (xorb (negb sx) sy) with (negb (xorb sx sy)) by (now destruct sx, sy).
  apply binary_round_aux_opp.
Qed.

Lemma SFmul_opp_opp x :
  SFmul 53 1024 (SFopp x) (SFopp x) = SFmul 53 1024 x x.
Proof. destruct x as [s|s| |s m e]; try reflexivity; destruct s; reflexivity. Qed.

Lemma SFmul_comm x y : SFmul 53 1024 x y = SFmul 53 1024 y x.
Proof.
  destruct x as [sx|sx| |sx mx ex], y as [sy|sy| |sy my ey];
    try reflexivity;
    try (destruct sx, sy; reflexivity).
  cbn [SFmul].
  now rewrite (Bool.xorb_comm sx sy), (Pos.mul_comm mx my), (Z.add_comm ex ey).
Qed.

(** Binary64 arithmetic satisfies the laws, for every sine that is odd. *)
Lemma binary64_laws (sin64 cos64 asin64 : spec_float -> spec_float) :
  (forall x, sin64 (SFopp x) = SFopp (sin64 x)) ->
  @ScalarLaws spec_float (binary64 sin64 cos64 asin64).
Proof.
  intros Hodd. constructor; cbn.
  - intros x y. apply SFsub_swap.
  - intros x. apply SFmul_opp_l.
  - intros x. apply SFdiv_opp_l.
  - intros x. rewrite Hodd. apply SFmul_opp_opp.
  - intros x y. apply SFmul_comm.
Qed.

(** *** The square root and the arc sine out of their domains *)

Lemma sqrt_negative a :
  b64_lt a (S754_zero false) = true -> SFsqrt 53 1024 a = S754_nan.
Proof.
  destruct a as [s|s| |s m e]; try discriminate; destruct s; try discriminate;
    reflexivity.
Qed.

Lemma SFmul_nan_r x : SFmul 53 1024 x S754_nan = S754_nan.
Proof. now destruct x. Qed.

Lemma root_out_of_domain (sin64 cos64 asin64 : spec_float -> spec_float) radius a :
  asin64 S754_nan = S754_nan ->
  (forall x, b64_lt (b64_of_Z 1) x = true -> asin64 x = S754_nan) ->
  b64_lt a (S754_zero false) = true \/
  b64_lt (b64_of_Z 1) (SFsqrt 53 1024 a) = true ->
  SFmul 53 1024 (SFmul 53 1024 (b64_of_Z 2) radius) (asin64 (SFsqrt 53 1024 a))
  = S754_nan.
Proof.
  intros Hnan Hdom [Ha|Ha].
  - now rewrite (sqrt_negative a Ha), Hnan, SFmul_nan_r.
  - now rewrite (Hdom _ Ha), SFmul_nan_r.
Qed.

Lemma scale_nth_error {F : Type} `{Scalar F} (radius : F) (roots : list F) i a :
  nth_error roots i = Some a ->
  nth_error (haversine_scale radius roots) i
  = Some (f_mul (f_mul (f_of_int 2) radius) (np_asin (np_sqrt a))).
Proof.
  intros Hi. unfold haversine_scale. rewrite !map_map.
  now rewrite nth_error_map, Hi.
Qed.

(** Evaluation of the closed arguments of the library functions. *)
Ltac eval_args f :=
  repeat match goal with
         | |- context [f ?x] =>
             lazymatch x with
             | S754_finite _ _ _ => fail
             | S754_zero _ => fail
             | S754_infinity _ => fail
             | S754_nan => fail
             | _ => let v := eval vm_compute in x in change x with v
             end
         end.

Lemma sample_point_root (sin64 cos64 asin64 : spec_float -> spec_float) :
  libm_sample sin64 cos64 asin64 ->
  @haversine_root _ (binary64 sin64 cos64 asin64)
    [b64_of_Z 0] [b64_of_Z 91] [b64_of_Z 180] [b64_of_Z 89]
  = Some [S754_finite true 4503599627370496 (-116)].
Proof.
  intros (Hs1 & Hs2 & Hc0 & Hc1 & Han & Ha0).
  rewrite root_aligned by reflexivity. cbn [aligned].
  unfold haversine_formula_root. cbv zeta.
  cbn [binary64 f_of_int f_neg f_add f_sub f_mul f_div
       np_radians np_sin np_cos np_sqrt np_asin].
  eval_args sin64. eval_args cos64. rewrite Hs1, Hs2, Hc0, Hc1.
  reflexivity.
Qed.

Lemma sample_point_distance (sin64 cos64 asin64 : spec_float -> spec_float) :
  libm_sample sin64 cos64 asin64 ->
  @haversine_distance _ (binary64 sin64 cos64 asin64)
    [b64_of_Z 0] [b64_of_Z 91] [b64_of_Z 180] [b64_of_Z 89] (b64_of_Z 1)
  = Some [S754_nan].
Proof.
  intros (Hs1 & Hs2 & Hc0 & Hc1 & Han & Ha0).
  rewrite haversine_aligned by reflexivity. cbn [aligned].
  unfold haversine_formula, haversine_formula_root. cbv zeta.
  cbn [binary64 f_of_int f_neg f_add f_sub f_mul f_div
       np_radians np_sin np_cos np_sqrt np_asin].
  eval_args sin64. eval_args cos64. rewrite Hs1, Hs2, Hc0, Hc1.
  eval_args asin64. rewrite Han. reflexivity.
Qed.

Lemma sample_point_clamped (sin64 cos64 asin64 : spec_float -> spec_float) :
  libm_sample sin64 cos64 asin64 ->
  haversine_distance_clamped sin64 cos64 asin64
    [b64_of_Z 0] [b64_of_Z 91] [b64_of_Z 180] [b64_of_Z 89] (b64_of_Z 1)
  = Some [S754_zero false].
Proof.
  intros (Hs1 & Hs2 & Hc0 & Hc1 & Han & Ha0).
  unfold haversine_distance_clamped.
  rewrite root_aligned by reflexivity. cbn [aligned obind map].
  unfold haversine_scale, haversine_formula_root. cbv zeta.
  cbn [binary64 f_of_int f_neg f_add f_sub f_mul f_div
       np_radians np_sin np_cos np_sqrt np_asin map].
  eval_args sin64. eval_args cos64. rewrite Hs1, Hs2, Hc0, Hc1.
  eval_args asin64. rewrite Ha0. reflexivity.
Qed.

Lemma libm_sample_tabulated : libm_sample sample_sin sample_cos sample_asin.
Proof. repeat split. Qed.

End Binary64Engine.

(** * The claims about the sampler *)

Module SamplerClaims.

Import Float64 Partition Sampler.
Local Open Scope Z_scope.



(** C3: every coordinate that [generate_pairs] emits satisfies
    [-180 <= phi <= 180] and [-90 <= theta <= 90], whatever the generator
    draws; the bounds come from the clamp alone, and no draw is rejected:
    the number of emitted pairs is the sum of the counts of the visited
    clusters. *)
Theorem C3_emitted_coordinates_clamped
  (rng : Type) (uniform : Q -> Q -> rng -> Q * rng) (n_pairs n_clusters : Z)
  (g g' : rng) (phis thetas : rows) :
  0 <= n_pairs -> 1 <= n_clusters ->
  generate_pairs rng uniform n_pairs n_clusters g = Some (phis, thetas, g') ->
  Forall (in_range (-180) 180) phis /\ Forall (in_range (-90) 90) thetas /\
  Z.of_nat (length phis)
    = zsum (firstn (Z.to_nat (Z.max n_clusters 2 - 1))
                   (n_pairs_per_cluster n_pairs n_clusters)) /\
  length thetas = length phis.
Proof.
  intros _ _ H.
  destruct (generate_pairs_in_range _ _ _ _ _ _ _ _ H) as [F1 F2].
  destruct (generate_pairs_emitted _ _ _ _ _ _ _ _ H) as [E1 E2].
  cbv zeta in E1, E2. repeat split; try assumption. lia.
Qed.

Lemma C3_emitted_coordinates_clamped_witness :
  exists phis thetas g',
    generate_pairs nat counter_uniform 5 3 5%nat = Some (phis, thetas, g') /\
    Forall (in_range (-180) 180) phis /\ Forall (in_range (-90) 90) thetas /\
    length phis = 3%nat.
Proof.
  assert (H : generate_pairs nat counter_uniform 5 3 5%nat
              = Some ([(15, 45); (180, -30); (0, 30)]%Q,
                      [(-75, -60); (-165 # 2, -135 # 2); (-105 # 2, -75 # 2)]%Q,
                      23%nat)) by (vm_compute; reflexivity).
  destruct (C3_emitted_coordinates_clamped nat counter_uniform 5 3 _ _ _ _
              ltac:(lia) ltac:(lia) H) as (F1 & F2 & _).
  eexists _, _, _.
  split; [exact H | split; [exact F1 | split; [exact F2 | reflexivity]]].
Defined.

(** *** Shares of the first and the last cluster *)

Section Shares.

Variables P N : Z.
Hypothesis HP : 0 <= P.
Hypothesis HN : 1 <= N.
Hypothesis Hsmall : (P + 1) * N <= 2 ^ 50.

Lemma small_bounds : P <= 2 ^ 53 /\ N <= 2 ^ 53 /\ P * N <= 2 ^ 50.
Proof. assert (2 ^ 50 < 2 ^ 53) by reflexivity. nia. Qed.

Lemma floor_bp_exact k :
  0 <= k <= N -> (k * P) mod N <> 0 \/ P mod N = 0 ->
  Qfloor (bp P N k) = k * P / N.
Proof.
  destruct small_bounds as (B1 & B2 & B3).
  intros Hk [Hm|Hm].
  - apply Z.le_antisymm; [apply floor_bp_le | apply floor_bp_ge]; auto; lia.
  - apply floor_bp_divides; auto; lia.
Qed.

Lemma prefix_le_share k :
  (k <= Z.to_nat N)%nat ->
  zsum (firstn k (n_pairs_per_cluster P N)) <= Z.of_nat k * P / N.
Proof.
  destruct small_bounds as (B1 & B2 & B3). intros Hk.
  rewrite counts_prefix_sum by lia.
  destruct (Nat.eq_dec k (Z.to_nat N)) as [->|Ne].
  - rewrite breaks_nth_last by lia. rewrite Z2Nat.id by lia.
    rewrite Z.mul_comm, Z.div_mul by lia. lia.
  - rewrite breaks_nth_lt by lia. apply floor_bp_le; lia.
Qed.

Lemma first_count : nth 0 (n_pairs_per_cluster P N) 0 = P / N.
Proof.
  destruct small_bounds as (B1 & B2 & B3).
  rewrite counts_zdiff by lia.
  rewrite zdiff_nth by (rewrite breaks_length by lia; lia).
  rewrite breaks_nth_0 by lia.
  destruct (Z.eq_dec N 1) as [->|Ne].
  - change 1%nat with (Z.to_nat 1). rewrite breaks_nth_last by lia.
    rewrite Z.div_1_r. lia.
  - rewrite breaks_nth_lt by lia. change (Z.of_nat 1) with 1.
    rewrite floor_bp_exact.
    + rewrite Z.mul_1_l. lia.
    + lia.
    + rewrite Z.mul_1_l. destruct (Z.eq_dec (P mod N) 0); auto.
Qed.

Lemma last_count :
  nth (Z.to_nat (N - 1)) (n_pairs_per_cluster P N) 0 = - (- P / N).
Proof.
  destruct small_bounds as (B1 & B2 & B3).
  rewrite counts_zdiff by lia.
  rewrite zdiff_nth by (rewrite breaks_length by lia; lia).
  replace (S (Z.to_nat (N - 1))) with (Z.to_nat N) by lia.
  rewrite breaks_nth_last, breaks_nth_lt by lia.
  rewrite Z2Nat.id by lia.
  rewrite floor_bp_last by lia.
  replace ((N - 1) * P) with (- P + P * N) by ring.
  rewrite Z.div_add by lia. lia.
Qed.

End Shares.

(** C4 (as stated): the counts sum to [n_pairs] for every [n_pairs >= 0].
    It fails beyond [2^53]: [linspace] works on binary64 values, and
    [2^53 + 1] is not one. *)
Lemma C4_counts_partition_counterexample :
  n_pairs_per_cluster 9007199254740993 1 = [9007199254740992] /\
  zsum (n_pairs_per_cluster 9007199254740993 1) = 9007199254740993 - 1.
Proof. split; vm_compute; reflexivity. Qed.

(** C4 (amended): for [0 <= n_pairs <= 2^53] and [1 <= n_clusters <= 2^53]
    there is one count per cluster, every count is a non-negative integer,
    and the counts sum to exactly [n_pairs]. *)
Theorem C4_counts_partition (n_pairs n_clusters : Z) :
  0 <= n_pairs <= 2 ^ 53 -> 1 <= n_clusters <= 2 ^ 53 ->
  length (n_pairs_per_cluster n_pairs n_clusters) = Z.to_nat n_clusters /\
  Forall (fun c => 0 <= c) (n_pairs_per_cluster n_pairs n_clusters) /\
  zsum (n_pairs_per_cluster n_pairs n_clusters) = n_pairs.
Proof.
  intros HP HN. split; [|split].
  - now apply counts_length.
  - now apply counts_nonneg.
  - now apply counts_sum.
Qed.

Lemma C4_counts_partition_witness :
  Forall (fun c => 0 <= c) (n_pairs_per_cluster 10 4) /\
  zsum (n_pairs_per_cluster 10 4) = 10.
Proof.
  assert (H1 : 0 <= 10 <= 2 ^ 53) by (split; discriminate).
  assert (H2 : 1 <= 4 <= 2 ^ 53) by (split; discriminate).
  exact (proj2 (C4_counts_partition 10 4 H1 H2)).
Defined.

(** C5 (as stated): unequal counts put the larger ones first.  One pair
    over two clusters gives the counts [0; 1], and four pairs over three
    clusters give [1; 1; 2]: the larger count comes last. *)
Lemma C5_remainder_counterexample :
  n_pairs_per_cluster 1 2 = [0; 1] /\ n_pairs_per_cluster 4 3 = [1; 1; 2] /\
  nth 0 (n_pairs_per_cluster 1 2) 0 < nth 1 (n_pairs_per_cluster 1 2) 0.
Proof. repeat split; vm_compute; reflexivity. Qed.

(** C5 (amended): the remainder is absorbed by the later clusters.  For
    [(n_pairs + 1) * n_clusters <= 2^50], the first [k] clusters together
    hold at most [floor(k * n_pairs / n_clusters)] pairs, for every [k];
    the first cluster holds [floor(n_pairs / n_clusters)] and the last one
    [ceil(n_pairs / n_clusters)]. *)
Theorem C5_remainder_on_later_clusters (n_pairs n_clusters : Z) :
  0 <= n_pairs -> 1 <= n_clusters -> (n_pairs + 1) * n_clusters <= 2 ^ 50 ->
  (forall k, (k <= Z.to_nat n_clusters)%nat ->
     zsum (firstn k (n_pairs_per_cluster n_pairs n_clusters))
       <= Z.of_nat k * n_pairs / n_clusters) /\
  zsum (n_pairs_per_cluster n_pairs n_clusters) = n_pairs /\
  nth 0 (n_pairs_per_cluster n_pairs n_clusters) 0 = n_pairs / n_clusters /\
  nth (Z.to_nat (n_clusters - 1)) (n_pairs_per_cluster n_pairs n_clusters) 0
    = - (- n_pairs / n_clusters).
Proof.
  intros HP HN Hs.
  destruct (small_bounds n_pairs n_clusters HP HN Hs) as (B1 & B2 & B3).
  split; [|split; [|split]].
  - intros k Hk. now apply prefix_le_share.
  - apply counts_sum; lia.
  - now apply first_count.
  - now apply last_count.
Qed.

Lemma C5_remainder_on_later_clusters_witness :
  zsum (firstn 2 (n_pairs_per_cluster 4 3)) <= 2 /\
  nth 0 (n_pairs_per_cluster 4 3) 0 = 1 /\
  nth 2 (n_pairs_per_cluster 4 3) 0 = 2.
Proof.
  assert (H0 : 0 <= 4) by discriminate.
  assert (H1 : 1 <= 3) by discriminate.
  assert (H2 : (4 + 1) * 3 <= 2 ^ 50) by discriminate.
  destruct (C5_remainder_on_later_clusters 4 3 H0 H1 H2) as (A & _ & B & C).
  split; [exact (A 2%nat ltac:(vm_compute; lia)) | split; [exact B | exact C]].
Defined.

(** C6 (as stated): with one cluster, the pairs allocated to it are not
    emitted.  They are: three pairs over one cluster are allocated as [3],
    and [generate_pairs] emits three pairs. *)
Lemma C6_single_cluster_counterexample :
  n_pairs_per_cluster 3 1 = [3] /\
  exists phis thetas g',
    generate_pairs nat counter_uniform 3 1 0%nat = Some (phis, thetas, g') /\
    length phis = 3%nat /\ length thetas = 3%nat.
Proof.
  split; [vm_compute; reflexivity|].
  eexists _, _, _. split; [vm_compute; reflexivity|].
  split; reflexivity.
Qed.

(** C6 (amended): with one cluster the loop runs once, over that cluster:
    for [0 <= n_pairs <= 2^53] the partition allocates [n_pairs] to it,
    [generate_pairs] returns, and it emits exactly those [n_pairs] pairs. *)
Theorem C6_single_cluster_emitted
  (rng : Type) (uniform : Q -> Q -> rng -> Q * rng) (n_pairs : Z) (g : rng) :
  0 <= n_pairs <= 2 ^ 53 ->
  n_pairs_per_cluster n_pairs 1 = [n_pairs] /\
  sampled_clusters 1 = [0] /\
  (exists phis thetas g',
     generate_pairs rng uniform n_pairs 1 g = Some (phis, thetas, g')) /\
  (forall phis thetas g',
     generate_pairs rng uniform n_pairs 1 g = Some (phis, thetas, g') ->
     Z.of_nat (length phis) = n_pairs /\ Z.of_nat (length thetas) = n_pairs).
Proof.
  intros HP.
  assert (HN : 1 <= 1 <= 2 ^ 53) by (split; discriminate).
  split; [|split; [reflexivity | split]].
  - pose proof (counts_length n_pairs 1 HP HN) as L.
    pose proof (counts_sum n_pairs 1 HP HN) as S.
    destruct (n_pairs_per_cluster n_pairs 1) as [|c [|c' t]]; try discriminate.
    unfold zsum in S. simpl in S. f_equal. lia.
  - now apply generate_pairs_total.
  - intros phis thetas g' H. now apply (generate_pairs_emitted_single _ _ _ _ _ _ _ HP H).
Qed.

Lemma C6_single_cluster_emitted_witness :
  n_pairs_per_cluster 7 1 = [7] /\
  exists phis thetas g',
    generate_pairs nat counter_uniform 7 1 0%nat = Some (phis, thetas, g').
Proof.
  assert (HP : 0 <= 7 <= 2 ^ 53) by (split; discriminate).
  destruct (C6_single_cluster_emitted nat counter_uniform 7 0%nat HP) as (A & _ & B & _).
  split; [exact A | exact B].
Defined.

(** C10 (as stated): with two clusters or more, exactly
    [floor(n_pairs * (n_clusters - 1) / n_clusters)] pairs are emitted.
    For [n_pairs = 2^27 + 1] over [2^27] clusters that is [2^27 - 1], but
    the breakpoint [(2^27 - 1) * fl((2^27 + 1) / 2^27) = 2^27 - 2^-27]
    rounds up to [2^27], and [2^27] pairs are emitted. *)
Lemma C10_emitted_total_counterexample :
  134217729 * (134217728 - 1) / 134217728 = 134217727 /\
  exists phis thetas g',
    generate_pairs nat counter_uniform 134217729 134217728 0%nat
      = Some (phis, thetas, g') /\
    Z.of_nat (length phis) = 134217728.
Proof.
  split; [reflexivity|].
  assert (HP : 0 <= 134217729 <= 2 ^ 53) by (split; discriminate).
  assert (HN : 2 <= 134217728 <= 2 ^ 53) by (split; discriminate).
  assert (HN' : 1 <= 134217728 <= 2 ^ 53) by (split; discriminate).
  destruct (generate_pairs_total nat counter_uniform 134217729 134217728 0%nat HP HN')
    as (phis & thetas & g' & H).
  exists phis, thetas, g'. split; [exact H|].
  destruct (generate_pairs_emitted_bp _ _ _ _ _ _ _ _ HP HN H) as [E _].
  rewrite E. vm_compute. reflexivity.
Qed.

(** C10 (amended): for [n_clusters >= 2] and
    [(n_pairs + 1) * n_clusters <= 2^50], [generate_pairs] returns and emits
    exactly [floor(n_pairs * (n_clusters - 1) / n_clusters)] pairs: the sum
    of the first [n_clusters - 1] counts. *)
Theorem C10_emitted_total
  (rng : Type) (uniform : Q -> Q -> rng -> Q * rng) (n_pairs n_clusters : Z) (g : rng) :
  0 <= n_pairs -> 2 <= n_clusters -> (n_pairs + 1) * n_clusters <= 2 ^ 50 ->
  (exists phis thetas g',
     generate_pairs rng uniform n_pairs n_clusters g = Some (phis, thetas, g')) /\
  (forall phis thetas g',
     generate_pairs rng uniform n_pairs n_clusters g = Some (phis, thetas, g') ->
     Z.of_nat (length phis) = n_pairs * (n_clusters - 1) / n_clusters /\
     Z.of_nat (length thetas) = n_pairs * (n_clusters - 1) / n_clusters /\
     Z.of_nat (length phis)
       = zsum (firstn (Z.to_nat (n_clusters - 1))
                      (n_pairs_per_cluster n_pairs n_clusters))).
Proof.
  intros HP HN Hs.
  destruct (small_bounds n_pairs n_clusters HP ltac:(lia) Hs) as (B1 & B2 & B3).
  split.
  - apply generate_pairs_total; lia.
  - intros phis thetas g' H.
    destruct (generate_pairs_emitted_bp _ _ _ _ _ _ _ _
                (conj HP B1) (conj HN B2) H) as [E1 E2].
    rewrite floor_bp_last in E1, E2 by lia.
    rewrite (Z.mul_comm n_pairs). repeat split; try assumption.
    apply generate_pairs_emitted in H. cbv zeta in H.
    replace (Z.max n_clusters 2) with n_clusters in H by lia. apply H.
Qed.

Lemma C10_emitted_total_witness :
  exists phis thetas g',
    generate_pairs nat counter_uniform 5 3 5%nat = Some (phis, thetas, g') /\
    Z.of_nat (length phis) = 3.
Proof.
  assert (H0 : 0 <= 5) by discriminate.
  assert (H1 : 2 <= 3) by discriminate.
  assert (H2 : (5 + 1) * 3 <= 2 ^ 50) by discriminate.
  destruct (C10_emitted_total nat counter_uniform 5 3 5%nat H0 H1 H2)
    as ((phis & thetas & g' & H) & E).
  exists phis, thetas, g'. split; [exact H|].
  exact (proj1 (E phis thetas g' H)).
Defined.

(** For [0 <= n_pairs <= 2^53] and [1 <= n_clusters <= 2^53],
    [generate_pairs] returns: no index is out of range, no count is
    negative, both assertions hold, and there is a block to stack. *)
Theorem generate_pairs_returns
  (rng : Type) (uniform : Q -> Q -> rng -> Q * rng) (n_pairs n_clusters : Z) (g : rng) :
  0 <= n_pairs <= 2 ^ 53 -> 1 <= n_clusters <= 2 ^ 53 ->
  exists phis thetas g',
    generate_pairs rng uniform n_pairs n_clusters g = Some (phis, thetas, g').
Proof. intros HP HN. now apply generate_pairs_total. Qed.

Lemma generate_pairs_returns_witness :
  exists phis thetas g',
    generate_pairs nat counter_uniform 4 2 0%nat = Some (phis, thetas, g').
Proof.
  assert (HP : 0 <= 4 <= 2 ^ 53) by (split; discriminate).
  assert (HN : 1 <= 2 <= 2 ^ 53) by (split; discriminate).
  exact (generate_pairs_returns nat counter_uniform 4 2 0%nat HP HN).
Defined.

End SamplerClaims.

(** * The claims about the distance engine *)

Module DistanceClaims.

Import Distance Binary64Engine.

(** C2: for aligned coordinate arrays (all of one length) and any radius,
    [haversine_distance] returns one distance per pair, and the distance
    of pair [i] is [2 * radius * asin(sqrt(a))] with
    [a = sin²(dtheta/2) + cos(theta0') * cos(theta1') * sin²(dphi/2)],
    [dphi = radians(phi0 - phi1)], [theta0' = radians(theta0)],
    [theta1' = radians(theta1)], [dtheta = theta1' - theta0'], whatever
    the arithmetic operations are. *)
Theorem C2_haversine_formula
  (F : Type) (S : Scalar F) (phis0 thetas0 phis1 thetas1 : list F) (radius : F) :
  length thetas0 = length phis0 -> length phis1 = length phis0 ->
  length thetas1 = length phis0 ->
  exists ds,
    haversine_distance phis0 thetas0 phis1 thetas1 radius = Some ds /\
    length ds = length phis0 /\
    forall i d, (i < length phis0)%nat ->
      nth i ds d
      = haversine_formula (nth i phis0 d) (nth i thetas0 d)
                          (nth i phis1 d) (nth i thetas1 d) radius.
Proof.
  intros L1 L2 L3. eexists. split; [now apply haversine_aligned|]. split.
  - now apply aligned_length.
  - intros i d Hi.
    now rewrite (aligned_nth (fun a b c e => haversine_formula a b c e radius)).
Qed.

Lemma C2_haversine_formula_witness :
  exists ds,
    haversine_distance [Fin 0; Fin 10] [Fin 0; Fin 20] [Fin 180; Fin 10] [Fin 0; Fin 20]
                       (Fin 6371) = Some ds /\
    length ds = 2%nat.
Proof.
  destruct (C2_haversine_formula npreal npreal_scalar
              [Fin 0; Fin 10] [Fin 0; Fin 20] [Fin 180; Fin 10] [Fin 0; Fin 20]
              (Fin 6371) eq_refl eq_refl eq_refl) as (ds & H & L & _).
  exists ds. split; [exact H | exact L].
Defined.

(** C7: [haversine_distance] is symmetric: for coordinate arrays of one
    length and any radius, swapping [(phis0, thetas0)] with
    [(phis1, thetas1)] gives the same distances.  The arithmetic enters
    through the laws of [ScalarLaws] only, which IEEE 754 binary64 with
    an odd sine satisfies ([binary64_laws]), as do the exact reals. *)
Theorem C7_haversine_symmetric
  (F : Type) (S : Scalar F) (L : ScalarLaws F)
  (phis0 thetas0 phis1 thetas1 : list F) (radius : F) :
  length thetas0 = length phis0 -> length phis1 = length phis0 ->
  length thetas1 = length phis0 ->
  haversine_distance phis1 thetas1 phis0 thetas0 radius
  = haversine_distance phis0 thetas0 phis1 thetas1 radius.
Proof.
  intros L1 L2 L3.
  rewrite !haversine_aligned by congruence. f_equal.
  rewrite aligned_swap. apply aligned_ext. intros a b c d.
  unfold haversine_formula. now rewrite formula_root_sym.
Qed.

(** The theorem at two real points, and over binary64 with an odd sine. *)
Lemma C7_haversine_symmetric_witness :
  haversine_distance [Fin 180; Fin 10] [Fin 0; Fin 20] [Fin 0; Fin 30] [Fin 0; Fin 40]
                     (Fin 6371)
  = haversine_distance [Fin 0; Fin 30] [Fin 0; Fin 40] [Fin 180; Fin 10] [Fin 0; Fin 20]
                       (Fin 6371) /\
  (forall (sin64 cos64 asin64 : spec_float -> spec_float)
          (phis0 thetas0 phis1 thetas1 : list spec_float) (radius : spec_float),
     (forall x, sin64 (SFopp x) = SFopp (sin64 x)) ->
     length thetas0 = length phis0 -> length phis1 = length phis0 ->
     length thetas1 = length phis0 ->
     @haversine_distance _ (binary64 sin64 cos64 asin64)
       phis1 thetas1 phis0 thetas0 radius
     = @haversine_distance _ (binary64 sin64 cos64 asin64)
         phis0 thetas0 phis1 thetas1 radius).
Proof.
  split.
  - exact (C7_haversine_symmetric npreal npreal_scalar npreal_laws
             [Fin 0; Fin 30] [Fin 0; Fin 40] [Fin 180; Fin 10] [Fin 0; Fin 20]
             (Fin 6371) eq_refl eq_refl eq_refl).
  - intros sin64 cos64 asin64 phis0 thetas0 phis1 thetas1 radius Hodd L1 L2 L3.
    exact (C7_haversine_symmetric spec_float (binary64 sin64 cos64 asin64)
             (binary64_laws sin64 cos64 asin64 Hodd)
             phis0 thetas0 phis1 thetas1 radius L1 L2 L3).
Defined.

Local Open Scope R_scope.

Lemma aligned_root_unit (l0 l1 l2 l3 : list R) :
  Forall (fun x => exists a, x = Fin a /\ 0 <= a <= 1)
         (aligned haversine_formula_root
                  (map Fin l0) (map Fin l1) (map Fin l2) (map Fin l3)).
Proof.
  revert l1 l2 l3.
  induction l0 as [|a l0 IH]; intros [|b l1] [|c l2] [|d l3]; try constructor.
  - exists (root_term a b c d). split;
      [apply formula_root_real | apply root_term_unit].
  - apply IH.
Qed.

(** C8 (as stated): an out-of-domain [a] is clamped to [[0, 1]] before the
    square root.  It is not.  At the points (0, 91) and (180, 89), with
    radius 1, binary64 arithmetic and the C library's values of the sine
    and the cosine give [a = -2^-64]: [haversine_distance] takes the
    square root of it and returns NaN, where the clamped variant returns
    [0].  A library with these values exists. *)
Lemma C8_root_clamp_counterexample :
  (forall sin64 cos64 asin64 : spec_float -> spec_float,
     libm_sample sin64 cos64 asin64 ->
     @haversine_root _ (binary64 sin64 cos64 asin64)
       [b64_of_Z 0] [b64_of_Z 91] [b64_of_Z 180] [b64_of_Z 89]
     = Some [S754_finite true 4503599627370496 (-116)] /\
     @haversine_distance _ (binary64 sin64 cos64 asin64)
       [b64_of_Z 0] [b64_of_Z 91] [b64_of_Z 180] [b64_of_Z 89] (b64_of_Z 1)
     = Some [S754_nan] /\
     haversine_distance_clamped sin64 cos64 asin64
       [b64_of_Z 0] [b64_of_Z 91] [b64_of_Z 180] [b64_of_Z 89] (b64_of_Z 1)
     = Some [S754_zero false]) /\
  libm_sample sample_sin sample_cos sample_asin.
Proof.
  split; [|exact libm_sample_tabulated].
  intros sin64 cos64 asin64 Hs. split; [|split].
  - exact (sample_point_root sin64 cos64 asin64 Hs).
  - exact (sample_point_distance sin64 cos64 asin64 Hs).
  - exact (sample_point_clamped sin64 cos64 asin64 Hs).
Qed.

(** C8 (amended): [haversine_distance] passes [a] to the square root and
    to the arc sine as it is.  In binary64, with an arc sine that returns
    NaN for NaN and for an argument above 1, a root term [a] that is
    negative, or whose rounded square root exceeds 1, gives the distance
    NaN at its index, for every radius; an [a] one unit in the last place
    above 1 has the square root 1 and gives the distance of [a = 1].  In
    exact arithmetic no input produces an [a] outside [[0, 1]]: for
    aligned arrays of real coordinates every root term lies in [[0, 1]],
    and the distance is the number [2 * radius * asin(sqrt(a))]. *)
Theorem C8_root_unclamped :
  (forall (sin64 cos64 asin64 : spec_float -> spec_float)
          (phis0 thetas0 phis1 thetas1 roots : list spec_float)
          (radius : spec_float),
     asin64 S754_nan = S754_nan ->
     (forall x, b64_lt (b64_of_Z 1) x = true -> asin64 x = S754_nan) ->
     @haversine_root _ (binary64 sin64 cos64 asin64) phis0 thetas0 phis1 thetas1
     = Some roots ->
     exists ds,
       @haversine_distance _ (binary64 sin64 cos64 asin64)
         phis0 thetas0 phis1 thetas1 radius = Some ds /\
       length ds = length roots /\
       forall i a,
         nth_error roots i = Some a ->
         b64_lt a (S754_zero false) = true \/
         b64_lt (b64_of_Z 1) (SFsqrt 53 1024 a) = true ->
         nth_error ds i = Some S754_nan) /\
  (forall (sin64 cos64 asin64 : spec_float -> spec_float) (radius : spec_float),
     @haversine_scale _ (binary64 sin64 cos64 asin64) radius
       [S754_finite false 4503599627370497 (-52)]
     = @haversine_scale _ (binary64 sin64 cos64 asin64) radius [b64_of_Z 1]) /\
  (forall radius a, 0 <= a <= 1 ->
     haversine_scale (Fin radius) [Fin a] = [Fin (2 * radius * asin (sqrt a))]) /\
  (forall phis0 thetas0 phis1 thetas1 : list R,
     length thetas0 = length phis0 -> length phis1 = length phis0 ->
     length thetas1 = length phis0 ->
     exists roots,
       haversine_root (map Fin phis0) (map Fin thetas0) (map Fin phis1) (map Fin thetas1)
         = Some roots /\
       Forall (fun x => exists a, x = Fin a /\ 0 <= a <= 1) roots).
Proof.
  split; [|split; [|split; [exact scale_in_domain|]]].
  - intros sin64 cos64 asin64 phis0 thetas0 phis1 thetas1 roots radius
           Hnan Hdom Hroots.
    unfold haversine_distance. rewrite Hroots. cbn [obind].
    eexists. split; [reflexivity|]. split.
    + unfold haversine_scale. now rewrite !length_map.
    + intros i a Hi Ha. rewrite (scale_nth_error radius roots i a Hi).
      cbn [binary64 f_of_int f_mul np_asin np_sqrt]. f_equal.
      now apply root_out_of_domain.
  - intros sin64 cos64 asin64 radius. reflexivity.
  - intros phis0 thetas0 phis1 thetas1 L1 L2 L3.
    eexists. split.
    + apply root_aligned; rewrite !length_map; assumption.
    + apply aligned_root_unit.
Qed.

Lemma C8_root_unclamped_witness :
  exists ds,
    @haversine_distance _ (binary64 sample_sin sample_cos sample_asin)
      [b64_of_Z 0] [b64_of_Z 91] [b64_of_Z 180] [b64_of_Z 89] (b64_of_Z 6371)
    = Some ds /\
    nth_error ds 0 = Some S754_nan.
Proof.
  destruct C8_root_unclamped as (A & _).
  assert (Hdom : forall x, b64_lt (b64_of_Z 1) x = true -> sample_asin x = S754_nan).
  { intros [[|]|s| |s m e] Hx; try reflexivity. discriminate Hx. }
  destruct (A sample_sin sample_cos sample_asin
              [b64_of_Z 0] [b64_of_Z 91] [b64_of_Z 180] [b64_of_Z 89]
              [S754_finite true 4503599627370496 (-116)] (b64_of_Z 6371)
              eq_refl Hdom
              (sample_point_root sample_sin sample_cos sample_asin
                 libm_sample_tabulated))
    as (ds & Hd & _ & Hn).
  exists ds. split; [exact Hd|].
  apply (Hn 0%nat (S754_finite true 4503599627370496 (-116)) eq_refl).
  left. reflexivity.
Defined.

(** C9 (as stated): arrays of mismatched lengths make [haversine_distance]
    fail.  A length-1 array is broadcast instead: one first point against
    two second points gives two distances. *)
Lemma C9_mismatched_lengths_counterexample :
  exists d0 d1,
    haversine_distance [Fin 0] [Fin 0] [Fin 0; Fin 90] [Fin 0; Fin 0] (Fin 1)
    = Some [d0; d1].
Proof.
  eexists _, _. unfold haversine_distance, haversine_root, broadcast2.
  cbn [length Nat.eqb map obind halve square zip_with haversine_scale].
  reflexivity.
Qed.

(** C9 (amended): [haversine_distance] has no length check of its own; it
    fails exactly when NumPy cannot broadcast the arrays: when two of the
    four lengths differ and neither of the two is 1.  Then it raises and
    returns no distance at all; otherwise it returns a full array, of the
    length of its root terms. *)
Theorem C9_mismatched_lengths
  (F : Type) (S : Scalar F) (phis0 thetas0 phis1 thetas1 : list F) (radius : F) :
  (haversine_distance phis0 thetas0 phis1 thetas1 radius = None <->
   exists n m,
     In n [length phis0; length thetas0; length phis1; length thetas1] /\
     In m [length phis0; length thetas0; length phis1; length thetas1] /\
     ~ compatible n m) /\
  (forall ds,
     haversine_distance phis0 thetas0 phis1 thetas1 radius = Some ds ->
     haversine_shape (length phis0) (length thetas0) (length phis1) (length thetas1)
     = Some (length ds)).
Proof.
  pose proof (haversine_distance_shape phis0 thetas0 phis1 thetas1 radius) as E.
  split.
  - rewrite <- haversine_shape_None, <- E.
    destruct (haversine_distance _ _ _ _ _); simpl; split; congruence.
  - intros ds H. rewrite H in E. simpl in E. now rewrite E.
Qed.

(** In exact arithmetic, the distance from a point to itself is zero. *)
Theorem same_point_zero_distance (phi theta radius : R) :
  haversine_distance [Fin phi] [Fin theta] [Fin phi] [Fin theta] (Fin radius)
  = Some [Fin 0].
Proof.
  unfold haversine_distance.
  rewrite root_aligned by reflexivity. cbn [aligned obind].
  rewrite formula_root_real.
  assert (E : root_term phi theta phi theta = 0).
  { unfold root_term. cbv zeta.
    replace ((theta * (PI / 180) - theta * (PI / 180)) / 2) with 0 by field.
    replace ((phi - phi) * (PI / 180) / 2) with 0 by field.
    rewrite sin_0. ring. }
  rewrite E, scale_in_domain by Lra.lra.
  rewrite sqrt_0, asin_0, Rmult_0_r. reflexivity.
Qed.

(** In exact arithmetic, two antipodal points on the equator are
    [pi * radius] apart. *)
Theorem antipodal_distance (radius : R) :
  haversine_distance [Fin 0] [Fin 0] [Fin 180] [Fin 0] (Fin radius)
  = Some [Fin (PI * radius)].
Proof.
  unfold haversine_distance.
  rewrite root_aligned by reflexivity. cbn [aligned obind].
  rewrite formula_root_real.
  assert (E : root_term 0 0 180 0 = 1).
  { unfold root_term. cbv zeta.
    replace ((0 * (PI / 180) - 0 * (PI / 180)) / 2) with 0 by field.
    replace (0 * (PI / 180)) with 0 by field.
    replace ((0 - 180) * (PI / 180) / 2) with (- (PI / 2)) by field.
    rewrite sin_0, cos_0, sin_neg, sin_PI2. ring. }
  rewrite E, scale_in_domain by Lra.lra.
  rewrite sqrt_1, asin_1.
  replace (2 * radius * (PI / 2)) with (PI * radius) by field. reflexivity.
Qed.

End DistanceClaims.

(** * Further properties of the sampler *)

Module SamplerMore.

Import Float64 Partition Sampler SamplerClaims.
Local Open Scope Z_scope.

(** ** The counts are near-equal *)

Section NearEqual.

Variables P N : Z.
Hypothesis HP : 0 <= P.
Hypothesis HN : 1 <= N.
Hypothesis Hsmall : (P + 1) * N <= 2 ^ 50.

(** A breakpoint never falls more than one below the exact floor. *)
Lemma floor_bp_ge_weak k :
  0 <= k <= N -> k * P / N - 1 <= Qfloor (bp P N k).
Proof.
  destruct (small_bounds P N HP HN Hsmall) as (B1 & B2 & B3).
  intros Hk.
  destruct (accuracy_facts P N HP (conj HN B2) B3 k Hk)
    as (Hn & Hp & Hw & Hwp & Ew & Hpn & Hy & _).
  cbv zeta in *.
  set (w := (inject_Z k * (inject_Z P / inject_Z N))%Q) in *.
  pose proof (Z.div_mod (k * P) N ltac:(lia)) as Hdm.
  pose proof (Z.mod_pos_bound (k * P) N ltac:(lia)) as Hr.
  set (K := k * P / N) in *. set (R := (k * P) mod N) in *.
  assert (Ekp : (inject_Z (k * P) == inject_Z N * inject_Z K + inject_Z R)%Q).
  { rewrite Hdm at 1. rewrite inject_Z_plus, inject_Z_mult. reflexivity. }
  assert (HR : (0 <= inject_Z R)%Q).
  { change 0%Q with (inject_Z 0). rewrite <- Zle_Qle. lia. }
  destruct u53_small as [Hu0 Hu1].
  assert (Hle : (inject_Z (K - 1) <= bp P N k)%Q).
  { unfold Zminus. rewrite inject_Z_plus. change (inject_Z (- (1))) with (- (1))%Q.
    apply Qnot_lt_le. intros C.
    assert (A : (inject_Z N * (w * (1 - 2 * u53))
                 <= inject_Z N * (inject_Z K + - (1)))%Q).
    { apply Qmult_le_l'; [lra|]. eapply Qle_trans; [eassumption|]. lra. }
    assert (B : (u53 * (inject_Z N * w) <= u53 * (inject_Z N * inject_Z P))%Q).
    { apply Qmult_le_l'; [lra|]. apply Qmult_le_l'; [lra | assumption]. }
    ring_simplify in A. ring_simplify in B. ring_simplify in Hpn.
    rewrite Ekp in Ew. ring_simplify in Ew. lra. }
  apply Qfloor_resp_le in Hle. rewrite Qfloor_Z in Hle. exact Hle.
Qed.

(** The floor of breakpoint [k], for every [k <= N]. *)
Definition brk (k : Z) : Z :=
  if k =? N then P else Qfloor (bp P N k).

Lemma brk_nth k :
  (k <= Z.to_nat N)%nat -> nth k (breaks P N) 0 = brk (Z.of_nat k).
Proof.
  destruct (small_bounds P N HP HN Hsmall) as (B1 & B2 & B3).
  intros Hk. unfold brk.
  destruct (Z.eqb_spec (Z.of_nat k) N) as [E|Ne].
  - replace k with (Z.to_nat N) by lia. apply breaks_nth_last; lia.
  - apply breaks_nth_lt; lia.
Qed.

Lemma brk_upper k : 0 <= k <= N -> brk k <= k * P / N.
Proof.
  destruct (small_bounds P N HP HN Hsmall) as (B1 & B2 & B3).
  intros Hk. unfold brk. destruct (Z.eqb_spec k N) as [->|Ne].
  - rewrite Z.mul_comm, Z.div_mul by lia. lia.
  - apply floor_bp_le; lia.
Qed.

Lemma brk_lower k : 0 <= k <= N -> k * P / N - 1 <= brk k.
Proof.
  intros Hk. unfold brk. destruct (Z.eqb_spec k N) as [->|Ne].
  - rewrite Z.mul_comm, Z.div_mul by lia. lia.
  - now apply floor_bp_ge_weak.
Qed.

Lemma brk_exact k :
  0 <= k <= N -> (k * P) mod N <> 0 \/ P mod N = 0 -> brk k = k * P / N.
Proof.
  intros Hk Hm. unfold brk. destruct (Z.eqb_spec k N) as [->|Ne].
  - rewrite Z.mul_comm, Z.div_mul by lia. lia.
  - now apply floor_bp_exact.
Qed.

Lemma brk_step k :
  0 <= k < N -> P / N <= brk (k + 1) - brk k <= P / N + 1.
Proof.
  intros Hk.
  pose proof (brk_upper k ltac:(lia)) as U0.
  pose proof (brk_upper (k + 1) ltac:(lia)) as U1.
  pose proof (brk_lower k ltac:(lia)) as L0.
  pose proof (brk_lower (k + 1) ltac:(lia)) as L1.
  pose proof (brk_exact k ltac:(lia)) as X0.
  pose proof (brk_exact (k + 1) ltac:(lia)) as X1.
  pose proof (Z.div_mod P N ltac:(lia)) as DP.
  pose proof (Z.mod_pos_bound P N ltac:(lia)) as RP.
  pose proof (Z.div_mod (k * P) N ltac:(lia)) as D0.
  pose proof (Z.mod_pos_bound (k * P) N ltac:(lia)) as R0.
  pose proof (Z.div_mod ((k + 1) * P) N ltac:(lia)) as D1.
  pose proof (Z.mod_pos_bound ((k + 1) * P) N ltac:(lia)) as R1.
  set (q := P / N) in *. set (r := P mod N) in *.
  set (K0 := k * P / N) in *. set (r0 := (k * P) mod N) in *.
  set (K1 := (k + 1) * P / N) in *. set (r1 := ((k + 1) * P) mod N) in *.
  assert (E : N * (K1 - K0 - q) = r0 + r - r1) by lia.
  assert (Hd : K1 - K0 - q = 0 \/ K1 - K0 - q = 1) by nia.
  destruct (Z.eq_dec r 0) as [Hr|Hr].
  - rewrite X0, X1 by auto. lia.
  - destruct (Z.eq_dec r0 0) as [H0|H0], (Z.eq_dec r1 0) as [H1|H1].
    + exfalso. nia.
    + rewrite X1 by auto. assert (K1 - K0 - q = 0) by nia. lia.
    + rewrite X0 by auto. assert (K1 - K0 - q = 1) by nia. lia.
    + rewrite X0, X1 by auto. lia.
Qed.

Lemma count_near_equal i :
  (i < Z.to_nat N)%nat ->
  P / N <= nth i (n_pairs_per_cluster P N) 0 <= P / N + 1.
Proof.
  destruct (small_bounds P N HP HN Hsmall) as (B1 & B2 & B3).
  intros Hi.
  rewrite counts_zdiff by lia.
  rewrite zdiff_nth by (rewrite breaks_length by lia; lia).
  rewrite !brk_nth by lia.
  replace (Z.of_nat (S i)) with (Z.of_nat i + 1) by lia.
  apply brk_step. lia.
Qed.

End NearEqual.

(** For [(n_pairs + 1) * n_clusters <= 2^50] the split is near-equal:
    every cluster's count is [floor(n_pairs / n_clusters)] or one more, and
    all counts are equal when [n_clusters] divides [n_pairs]. *)
Theorem counts_near_equal (n_pairs n_clusters : Z) :
  0 <= n_pairs -> 1 <= n_clusters -> (n_pairs + 1) * n_clusters <= 2 ^ 50 ->
  Forall (fun c => n_pairs / n_clusters <= c <= n_pairs / n_clusters + 1)
         (n_pairs_per_cluster n_pairs n_clusters) /\
  (n_pairs mod n_clusters = 0 ->
   Forall (fun c => c = n_pairs / n_clusters)
          (n_pairs_per_cluster n_pairs n_clusters)).
Proof.
  intros HP HN Hs.
  destruct (small_bounds n_pairs n_clusters HP HN Hs) as (B1 & B2 & B3).
  pose proof (counts_length n_pairs n_clusters (conj HP B1) (conj HN B2)) as L.
  split.
  - apply Forall_nth. intros i d Hi.
    rewrite (nth_indep _ d 0) by exact Hi. rewrite L in Hi.
    now apply count_near_equal.
  - intros Hm. apply Forall_nth. intros i d Hi.
    rewrite (nth_indep _ d 0) by exact Hi. rewrite L in Hi.
    rewrite counts_zdiff by lia.
    rewrite zdiff_nth by (rewrite breaks_length by lia; lia).
    rewrite !(brk_nth n_pairs n_clusters HP HN Hs) by lia.
    rewrite !(brk_exact n_pairs n_clusters HP HN Hs) by (auto; lia).
    pose proof (Z.div_mod n_pairs n_clusters ltac:(lia)) as DP.
    rewrite Hm, Z.add_0_r in DP.
    set (q := n_pairs / n_clusters) in *.
    rewrite DP.
    replace (Z.of_nat (S i) * (n_clusters * q)) with (Z.of_nat (S i) * q * n_clusters) by ring.
    replace (Z.of_nat i * (n_clusters * q)) with (Z.of_nat i * q * n_clusters) by ring.
    rewrite !Z.div_mul by lia. lia.
Qed.

Lemma counts_near_equal_witness :
  Forall (fun c => 10 / 4 <= c <= 10 / 4 + 1) (n_pairs_per_cluster 10 4).
Proof.
  assert (H0 : 0 <= 10) by discriminate.
  assert (H1 : 1 <= 4) by discriminate.
  assert (H2 : (10 + 1) * 4 <= 2 ^ 50) by discriminate.
  exact (proj1 (counts_near_equal 10 4 H0 H1 H2)).
Defined.

(** ** Arguments that make [generate_pairs] raise *)

Lemma linspace_item_0 P num : (linspace_item 0 P num 0 == 0)%Q.
Proof.
  unfold linspace_item. cbv zeta. change (of_int (Z.of_nat 0)) with 0%Q.
  assert (Z0 : forall x, fmul 0 x = 0%Q).
  { intros x. unfold fmul. apply rnd53_zero. ring. }
  assert (D0 : forall x, fdiv 0 x = 0%Q).
  { intros x. unfold fdiv. apply rnd53_zero. unfold Qdiv. ring. }
  destruct (0 <? num - 1); [destruct (Qeq_bool _ 0)|];
    rewrite ?D0, !Z0; reflexivity.
Qed.

Lemma linspace_head P N :
  1 <= N ->
  exists t,
    linspace 0 P (N + 1)
    = linspace_item 0 P (N + 1) 0
      :: (if N =? 1 then of_int P else linspace_item 0 P (N + 1) 1) :: t.
Proof.
  intros HN. rewrite linspace_snoc by exact HN.
  destruct (Z.to_nat N) as [|[|n]] eqn:E; [lia | |].
  - replace (N =? 1) with true by (symmetry; apply Z.eqb_eq; lia).
    exists []. reflexivity.
  - replace (N =? 1) with false by (symmetry; apply Z.eqb_neq; lia).
    eexists. cbn [seq map app]. reflexivity.
Qed.

(** With a negative [n_pairs] the first count is negative. *)
Lemma first_count_negative P N :
  - 2 ^ 53 <= P < 0 -> 1 <= N <= 2 ^ 53 ->
  exists c, nth_error (n_pairs_per_cluster P N) 0 = Some c /\ c < 0.
Proof.
  intros HP HN.
  destruct (linspace_head P N ltac:(lia)) as (t & E).
  set (b1 := if N =? 1 then of_int P else linspace_item 0 P (N + 1) 1) in *.
  assert (Hp : (inject_Z P < 0)%Q).
  { change 0%Q with (inject_Z 0). rewrite <- Zlt_Qlt. lia. }
  assert (Hn : (1 <= inject_Z N)%Q).
  { change 1%Q with (inject_Z 1). rewrite <- Zle_Qle. lia. }
  assert (EP : (of_int P == inject_Z P)%Q) by (apply of_int_exact; lia).
  assert (Hb : (inject_Z P <= b1 /\ b1 < 0)%Q).
  { unfold b1. destruct (Z.eqb_spec N 1) as [E1|N1].
    - rewrite EP. split; [apply Qle_refl | exact Hp].
    - unfold linspace_item. cbv zeta.
      replace (N + 1 - 1) with N by lia.
      replace (0 <? N) with true by (symmetry; apply Z.ltb_lt; lia).
      rewrite of_int_0.
      assert (Hd : (fsub (of_int P) 0 == inject_Z P)%Q).
      { unfold fsub. rewrite EP.
        assert (E0 : (inject_Z P - 0 == inject_Z P)%Q) by ring.
        rewrite E0. apply (rnd53_int _ P); [reflexivity | lia]. }
      assert (Hs : (fdiv (fsub (of_int P) 0) (of_int N)
                    == rnd53 (inject_Z P / inject_Z N))%Q).
      { unfold fdiv. rewrite Hd, of_int_exact by lia. reflexivity. }
      assert (Hx : (inject_Z P <= inject_Z P / inject_Z N
                    /\ inject_Z P / inject_Z N < 0)%Q).
      { assert (Ex : (inject_Z P / inject_Z N * inject_Z N == inject_Z P)%Q)
          by (field; lra).
        set (x := (inject_Z P / inject_Z N)%Q) in *.
        split.
        - apply Qnot_lt_le. intros C. nra.
        - apply Qnot_le_lt. intros C. nra. }
      assert (Hr : (inject_Z P <= rnd53 (inject_Z P / inject_Z N)
                    /\ rnd53 (inject_Z P / inject_Z N) < 0)%Q).
      { split.
        - rewrite <- (rnd53_int (inject_Z P) P) at 1 by (reflexivity || lia).
          apply rnd53_mono, Hx.
        - destruct (rnd53_sign_cases (inject_Z P / inject_Z N))
            as [[_ C]|[[C _]|[C _]]]; [exact C | lra | lra]. }
      destruct (Qeq_bool _ 0) eqn:Eb.
      { apply Qeq_bool_iff in Eb. rewrite Hs in Eb. lra. }
      assert (E1 : (fadd (fmul (of_int (Z.of_nat 1))
                            (fdiv (fsub (of_int P) 0) (of_int N))) 0
                    == rnd53 (inject_Z P / inject_Z N))%Q).
      { unfold fadd, fmul. change (of_int (Z.of_nat 1)) with 1%Q.
        rewrite Qplus_0_r, rnd53_idem, Qmult_1_l, Hs, rnd53_idem. reflexivity. }
      rewrite E1. exact Hr. }
  destruct Hb as [Hb1 Hb2].
  assert (Hf : P <= Qfloor b1 < 0).
  { split.
    - rewrite <- (Qfloor_Z P). now apply Qfloor_resp_le.
    - pose proof (Qfloor_le b1) as F.
      assert (C : (inject_Z (Qfloor b1) < inject_Z 0)%Q)
        by (eapply Qle_lt_trans; [exact F | exact Hb2]).
      now rewrite <- Zlt_Qlt in C. }
  exists (Qfloor b1). split; [|lia].
  unfold n_pairs_per_cluster. rewrite E. cbn [map np_diff nth_error]. f_equal.
  apply astype_int_eq. unfold fsub, ffloor.
  rewrite (Qfloor_comp _ _ (linspace_item_0 P (N + 1))).
  change (Qfloor 0) with 0.
  assert (E0 : (inject_Z (Qfloor b1) - inject_Z 0 == inject_Z (Qfloor b1))%Q)
    by (change (inject_Z 0) with 0%Q; ring).
  rewrite E0. apply (rnd53_int _ (Qfloor b1)); [reflexivity | lia].
Qed.

Section Raises.

Variable rng : Type.
Variable uniform : Q -> Q -> rng -> Q * rng.

Lemma sampled_clusters_head n_clusters :
  1 <= n_clusters -> exists t, sampled_clusters n_clusters = 0 :: t.
Proof.
  intros Hn. rewrite sampled_clusters_range by exact Hn. unfold range.
  destruct (Z.to_nat (Z.max n_clusters 2 - 1)) eqn:E; [lia|].
  eexists. reflexivity.
Qed.

Lemma negative_count_raises n_pairs n_clusters g c :
  nth_error (n_pairs_per_cluster n_pairs n_clusters) 0 = Some c -> c < 0 ->
  generate_pairs rng uniform n_pairs n_clusters g = None.
Proof.
  intros Hc Hneg.
  destruct (generate_pairs rng uniform n_pairs n_clusters g)
    as [[[phis thetas] g']|] eqn:E; [exfalso | reflexivity].
  apply generate_pairs_Some in E.
  destruct E as (Hn & blocks & _ & _ & HF).
  destruct (sampled_clusters_head n_clusters Hn) as (t & Ht).
  rewrite Ht in HF. inversion HF as [|i b l bs Hb _]; subst.
  destruct Hb as (n & Hn0 & Hpos & _).
  change (Z.to_nat 0) with 0%nat in Hn0. rewrite Hc in Hn0.
  injection Hn0 as <-. lia.
Qed.

End Raises.

(** A cluster count that is zero or negative makes [generate_pairs]
    raise, whatever [n_pairs] is: nothing is returned. *)
Theorem generate_pairs_rejects_nonpositive_clusters
  (rng : Type) (uniform : Q -> Q -> rng -> Q * rng) (n_pairs n_clusters : Z) (g : rng) :
  n_clusters <= 0 ->
  generate_pairs rng uniform n_pairs n_clusters g = None.
Proof.
  intros Hn.
  destruct (generate_pairs rng uniform n_pairs n_clusters g)
    as [[[phis thetas] g']|] eqn:E; [exfalso | reflexivity].
  apply generate_pairs_Some in E. lia.
Qed.

Lemma generate_pairs_rejects_nonpositive_clusters_witness :
  generate_pairs nat counter_uniform 10 0 0%nat = None /\
  generate_pairs nat counter_uniform 10 (-3) 0%nat = None.
Proof.
  split.
  - apply generate_pairs_rejects_nonpositive_clusters. discriminate.
  - apply generate_pairs_rejects_nonpositive_clusters. discriminate.
Defined.

(** A negative [n_pairs] (down to [-2^53]) makes [generate_pairs] raise
    for every [1 <= n_clusters <= 2^53]: the first cluster's count is
    negative, and NumPy refuses it as an array size. *)
Theorem generate_pairs_rejects_negative_pairs
  (rng : Type) (uniform : Q -> Q -> rng -> Q * rng) (n_pairs n_clusters : Z) (g : rng) :
  - 2 ^ 53 <= n_pairs < 0 -> 1 <= n_clusters <= 2 ^ 53 ->
  generate_pairs rng uniform n_pairs n_clusters g = None.
Proof.
  intros HP HN.
  destruct (first_count_negative n_pairs n_clusters HP HN) as (c & Hc & Hneg).
  exact (negative_count_raises rng uniform _ _ g c Hc Hneg).
Qed.

Lemma generate_pairs_rejects_negative_pairs_witness :
  generate_pairs nat counter_uniform (-1) 2 0%nat = None.
Proof.
  assert (HP : - 2 ^ 53 <= -1 < 0) by (split; [discriminate | reflexivity]).
  assert (HN : 1 <= 2 <= 2 ^ 53) by (split; discriminate).
  exact (generate_pairs_rejects_negative_pairs nat counter_uniform (-1) 2 0%nat HP HN).
Defined.

(** With [n_pairs = 0], [generate_pairs] returns two empty arrays for every
    [1 <= n_clusters <= 2^53]. *)
Theorem generate_pairs_zero_pairs
  (rng : Type) (uniform : Q -> Q -> rng -> Q * rng) (n_clusters : Z) (g : rng) :
  1 <= n_clusters <= 2 ^ 53 ->
  exists g', generate_pairs rng uniform 0 n_clusters g = Some ([], [], g').
Proof.
  intros HN.
  assert (HP : 0 <= 0 <= 2 ^ 53) by (split; discriminate).
  destruct (generate_pairs_total rng uniform 0 n_clusters g HP HN)
    as (phis & thetas & g' & H).
  exists g'. rewrite H.
  destruct (generate_pairs_emitted _ _ _ _ _ _ _ _ H) as [E1 E2]. cbv zeta in E1, E2.
  rewrite counts_prefix_sum in E1, E2 by lia.
  pose proof (breaks_range 0 n_clusters HP HN) as R.
  assert (Hz : nth (Z.to_nat (Z.max n_clusters 2 - 1)) (breaks 0 n_clusters) 0 = 0).
  { assert (Hi : (Z.to_nat (Z.max n_clusters 2 - 1) < length (breaks 0 n_clusters))%nat)
      by (rewrite breaks_length by lia; lia).
    pose proof (proj1 (Forall_nth _ _) R _ 0 Hi) as B. simpl in B. lia. }
  rewrite Hz in E1, E2.
  destruct phis; [|simpl in E1; lia]. destruct thetas; [|simpl in E2; lia].
  reflexivity.
Qed.

Lemma generate_pairs_zero_pairs_witness :
  exists g', generate_pairs nat counter_uniform 0 3 0%nat = Some ([], [], g').
Proof.
  assert (HN : 1 <= 3 <= 2 ^ 53) by (split; discriminate).
  exact (generate_pairs_zero_pairs nat counter_uniform 3 0%nat HN).
Defined.

(** [generate_cluster] raises for a negative [n_pairs], and for a
    deviation whose range [dphi - (-dphi)] or [dtheta - (-dtheta)] is not
    finite in binary64; in every other case it returns, and both arrays
    have [n_pairs] rows. *)
Theorem generate_cluster_rows
  (rng : Type) (uniform : Q -> Q -> rng -> Q * rng)
  (n_pairs : Z) (phi theta dphi dtheta : Q) (g : rng) :
  (n_pairs < 0 ->
   generate_cluster rng uniform n_pairs phi theta dphi dtheta g = None) /\
  (isfinite (fsub dphi (fneg dphi)) = false \/
   isfinite (fsub dtheta (fneg dtheta)) = false ->
   generate_cluster rng uniform n_pairs phi theta dphi dtheta g = None) /\
  (0 <= n_pairs ->
   isfinite (fsub dphi (fneg dphi)) = true ->
   isfinite (fsub dtheta (fneg dtheta)) = true ->
   exists phis thetas g',
     generate_cluster rng uniform n_pairs phi theta dphi dtheta g
     = Some (phis, thetas, g') /\
     Z.of_nat (length phis) = n_pairs /\ Z.of_nat (length thetas) = n_pairs).
Proof.
  split; [|split].
  - intros Hn.
    destruct (generate_cluster rng uniform n_pairs phi theta dphi dtheta g)
      as [[[phis thetas] g']|] eqn:E; [exfalso | reflexivity].
    apply generate_cluster_Some in E. lia.
  - intros Hf. unfold generate_cluster, bind, uniform_rows.
    destruct (isfinite (fsub dphi (fneg dphi))); cbn [negb]; [|reflexivity].
    destruct Hf as [Hf|Hf]; [discriminate|]. rewrite Hf. cbn [negb].
    destruct (n_pairs <? 0); [reflexivity|].
    destruct (uniform_n2 rng uniform (fneg dphi) dphi (Z.to_nat n_pairs) g).
    reflexivity.
  - intros Hn Hp Ht.
    destruct (generate_cluster_total rng uniform n_pairs phi theta dphi dtheta g
                Hn Hp Ht) as ([phis thetas] & g' & E).
    exists phis, thetas, g'. split; [exact E|].
    apply generate_cluster_Some in E. lia.
Qed.

Lemma generate_cluster_rows_witness :
  generate_cluster nat counter_uniform (-1) 0%Q 0%Q 10%Q 10%Q 0%nat = None /\
  generate_cluster nat counter_uniform 1 0%Q 0%Q (pow2 1023) 1%Q 0%nat = None /\
  exists phis thetas g',
    generate_cluster nat counter_uniform 3 0%Q 0%Q 10%Q 10%Q 0%nat
    = Some (phis, thetas, g') /\
    Z.of_nat (length phis) = 3 /\ Z.of_nat (length thetas) = 3.
Proof.
  split; [|split].
  - destruct (generate_cluster_rows nat counter_uniform (-1) 0%Q 0%Q 10%Q 10%Q 0%nat)
      as (A & _). apply A. reflexivity.
  - destruct (generate_cluster_rows nat counter_uniform 1 0%Q 0%Q (pow2 1023) 1%Q 0%nat)
      as (_ & B & _). apply B. left. vm_compute. reflexivity.
  - destruct (generate_cluster_rows nat counter_uniform 3 0%Q 0%Q 10%Q 10%Q 0%nat)
      as (_ & _ & C). apply C.
    + discriminate.
    + vm_compute. reflexivity.
    + vm_compute. reflexivity.
Defined.

End SamplerMore.

(** * Further properties of the distance engine *)

Module DistanceMore.

Import Distance.

(** ** One point against many *)

Section OneToMany.

Context {F : Type} `{Scalar F}.

Lemma broadcast2_one_l op (x : F) (b : list F) :
  broadcast2 op [x] b = Some (map (fun y => op x y) b).
Proof.
  unfold broadcast2. destruct b as [|y [|y' b]]; reflexivity.
Qed.

Lemma broadcast2_one_r op (a : list F) (y : F) :
  broadcast2 op a [y] = Some (map (fun x => op x y) a).
Proof.
  unfold broadcast2. destruct a as [|x [|x' a]]; reflexivity.
Qed.

Lemma length_combine_same (a b : list F) :
  length a = length b -> length (combine a b) = length a.
Proof. intros E. rewrite length_combine, E. apply Nat.min_id. Qed.

Lemma one_to_many_root (phi0 theta0 : F) (phis1 thetas1 : list F) :
  length thetas1 = length phis1 ->
  haversine_root [phi0] [theta0] phis1 thetas1
  = Some (map (fun q => haversine_formula_root phi0 theta0 (fst q) (snd q))
              (combine phis1 thetas1)).
Proof.
  intros L. unfold haversine_root. cbv zeta.
  rewrite broadcast2_one_l. cbn [obind map].
  rewrite broadcast2_one_r. cbn [obind].
  rewrite broadcast2_one_l. cbn [obind].
  rewrite (broadcast2_same f_mul)
    by (unfold square, halve; rewrite !length_map; exact L).
  cbn [obind].
  rewrite (broadcast2_same f_add)
    by (unfold square, halve;
        rewrite zip_with_length by (rewrite !length_map; exact L);
        rewrite !length_map; reflexivity).
  f_equal. clear L. revert thetas1.
  induction phis1 as [|p l IH]; intros [|t l']; try reflexivity.
  cbn -[haversine_formula_root]. f_equal. apply IH.
Qed.

End OneToMany.

(** Broadcasting a single first point: for one [(phi0, theta0)] against
    [n] second points, [haversine_distance] returns the [n] distances from
    that point to each of them, in order. *)
Theorem one_to_many
  (F : Type) (S : Scalar F) (phi0 theta0 radius : F) (phis1 thetas1 : list F) :
  length thetas1 = length phis1 ->
  haversine_distance [phi0] [theta0] phis1 thetas1 radius
  = Some (map (fun q => haversine_formula phi0 theta0 (fst q) (snd q) radius)
              (combine phis1 thetas1)).
Proof.
  intros L. unfold haversine_distance.
  rewrite one_to_many_root by exact L. cbn [obind]. f_equal.
  unfold haversine_scale. rewrite !map_map. reflexivity.
Qed.

Lemma one_to_many_witness :
  haversine_distance [Fin 0] [Fin 0] [Fin 0; Fin 90; Fin 180] [Fin 0; Fin 0; Fin 0] (Fin 1)
  = Some [haversine_formula (Fin 0) (Fin 0) (Fin 0) (Fin 0) (Fin 1);
          haversine_formula (Fin 0) (Fin 0) (Fin 90) (Fin 0) (Fin 1);
          haversine_formula (Fin 0) (Fin 0) (Fin 180) (Fin 0) (Fin 1)].
Proof.
  exact (one_to_many npreal npreal_scalar (Fin 0) (Fin 0) (Fin 1)
           [Fin 0; Fin 90; Fin 180] [Fin 0; Fin 0; Fin 0] eq_refl).
Defined.

(** ** The range of the distances, in exact arithmetic *)

Local Open Scope R_scope.

Lemma asin_nonneg x : 0 <= x <= 1 -> 0 <= asin x.
Proof.
  intros Hx. destruct (Rle_or_lt 0 (asin x)) as [|C]; [assumption | exfalso].
  pose proof (asin_bound x) as B. pose proof PI_RGT_0 as Hpi.
  assert (Hs : sin (asin x) < 0) by (apply sin_lt_0_var; Lra.lra).
  rewrite sin_asin in Hs by Lra.lra. Lra.lra.
Qed.

Lemma formula_real phi0 theta0 phi1 theta1 radius :
  haversine_formula (Fin phi0) (Fin theta0) (Fin phi1) (Fin theta1) (Fin radius)
  = Fin (2 * radius * asin (sqrt (root_term phi0 theta0 phi1 theta1))).
Proof.
  pose proof (scale_in_domain radius _ (root_term_unit phi0 theta0 phi1 theta1)) as E.
  unfold haversine_formula. rewrite formula_root_real.
  unfold haversine_scale in E. cbn [map] in E. now injection E.
Qed.

Lemma formula_range phi0 theta0 phi1 theta1 radius :
  0 <= radius ->
  exists d,
    haversine_formula (Fin phi0) (Fin theta0) (Fin phi1) (Fin theta1) (Fin radius) = Fin d /\
    0 <= d <= PI * radius.
Proof.
  intros Hr. eexists. split; [apply formula_real|].
  pose proof (root_term_unit phi0 theta0 phi1 theta1) as Ha.
  set (a := root_term phi0 theta0 phi1 theta1) in *.
  assert (H0 : 0 <= sqrt a) by apply sqrt_pos.
  assert (H1 : sqrt a <= 1) by (rewrite <- sqrt_1; apply sqrt_le_1; Lra.lra).
  pose proof (asin_nonneg (sqrt a) (conj H0 H1)) as A0.
  pose proof (asin_bound (sqrt a)) as A1.
  split.
  - apply Rmult_le_pos; [Lra.lra | exact A0].
  - assert (radius * asin (sqrt a) <= radius * (PI / 2))
      by (apply Rmult_le_compat_l; Lra.lra).
    Lra.lra.
Qed.

(** In exact arithmetic, for a radius that is not negative and aligned
    arrays of real coordinates, every distance is a number between [0] and
    [pi * radius]. *)
Theorem distances_in_range (phis0 thetas0 phis1 thetas1 : list R) (radius : R) :
  0 <= radius ->
  length thetas0 = length phis0 -> length phis1 = length phis0 ->
  length thetas1 = length phis0 ->
  exists ds,
    haversine_distance (map Fin phis0) (map Fin thetas0)
                       (map Fin phis1) (map Fin thetas1) (Fin radius) = Some ds /\
    length ds = length phis0 /\
    Forall (fun x => exists d, x = Fin d /\ 0 <= d <= PI * radius) ds.
Proof.
  intros Hr L1 L2 L3. eexists. split; [|split].
  - apply haversine_aligned; rewrite !length_map; assumption.
  - rewrite aligned_length; rewrite !length_map; auto.
  - clear L1 L2 L3. revert thetas0 phis1 thetas1.
    induction phis0 as [|a l0 IH]; intros [|b l1] [|c l2] [|d l3]; try constructor.
    + now apply formula_range.
    + apply IH.
Qed.

Lemma distances_in_range_witness :
  exists ds,
    haversine_distance (map Fin [0; 10]) (map Fin [0; 20])
                       (map Fin [180; -30]) (map Fin [0; 45]) (Fin 6371) = Some ds /\
    Forall (fun x => exists d, x = Fin d /\ 0 <= d <= PI * 6371) ds.
Proof.
  assert (Hr : 0 <= 6371) by Lra.lra.
  destruct (distances_in_range [0; 10] [0; 20] [180; -30] [0; 45] 6371
              Hr eq_refl eq_refl eq_refl) as (ds & H & _ & B).
  exists ds. split; [exact H | exact B].
Defined.

End DistanceMore.

(** * The command-line entry points *)

Module Cli.

Import Float64 Partition Sampler Distance.
Import String.StringSyntax.

Local Open Scope string_scope.
Local Open Scope list_scope.

(** ** Python values read from, and written to, JSON

    [json.load] returns [None], booleans, integers, floats, strings,
    lists and dicts with string keys; a dict is listed by its items. *)

#[local] Unset Elimination Schemes.

Inductive json (F : Type) : Type :=
| JNull
| JBool (b : bool)
| JInt (n : Z)
| JFloat (x : F)
| JStr (s : String.string)
| JArr (items : list (json F))
| JObj (members : list (String.string * json F)).

#[local] Set Elimination Schemes.

Arguments JNull {F}.
Arguments JBool {F} b.
Arguments JInt {F} n.
Arguments JFloat {F} x.
Arguments JStr {F} s.
Arguments JArr {F} items.
Arguments JObj {F} members.

Inductive exn : Type :=
| KeyError
| IndexError
| TypeError
| ValueError
| OverflowError.

Inductive result (A : Type) : Type :=
| Ok (a : A)
| Raise (e : exn).

Arguments Ok {A} a.
Arguments Raise {A} e.

Definition rbind {A B} (m : result A) (k : A -> result B) : result B :=
  match m with
  | Ok a => k a
  | Raise e => Raise e
  end.

Notation "x <-- m ;; k" := (rbind m (fun x => k))
  (at level 61, m at next level, right associativity).

(** A loop whose body may raise: the first exception ends it. *)
Fixpoint for_each {A B} (f : A -> result B) (l : list A) : result (list B) :=
  match l with
  | [] => Ok []
  | a :: t => b <-- f a ;; bs <-- for_each f t ;; Ok (b :: bs)
  end.

Fixpoint dict_get {A} (members : list (String.string * A)) (k : String.string)
  : option A :=
  match members with
  | [] => None
  | (k', v) :: t => if String.eqb k k' then Some v else dict_get t k
  end.

(** [v[k]] for a string [k]. *)
Definition json_getitem {F} (v : json F) (k : String.string) : result (json F) :=
  match v with
  | JObj members =>
      match dict_get members k with
      | Some x => Ok x
      | None => Raise KeyError
      end
  | _ => Raise TypeError
  end.

(** [v[i]] for an integer [i >= 0]. *)
Definition json_index {F} (v : json F) (i : nat) : result (json F) :=
  match v with
  | JArr items =>
      match nth_error items i with
      | Some x => Ok x
      | None => Raise IndexError
      end
  | JStr s =>
      match String.get i s with
      | Some c => Ok (JStr (String.String c String.EmptyString))
      | None => Raise IndexError
      end
  | JObj _ => Raise KeyError
  | _ => Raise TypeError
  end.

(** [len(v)]. *)
Definition json_len {F} (v : json F) : result nat :=
  match v with
  | JArr items => Ok (length items)
  | JStr s => Ok (String.length s)
  | JObj members => Ok (length members)
  | _ => Raise TypeError
  end.

Section Commands.

Context {F : Type} `{Scalar F}.

(** [np.average] of a one-dimensional array. *)
Variable np_average : list F -> F.

(** What NumPy does with a value that is not a float: when it is stored
    in a float64 array, and when it is passed as the radius. *)
Variable setitem_other : json F -> result F.
Variable radius_other : json F -> list F -> list F -> list F -> list F -> result (list F).

(** [a[i] = v] on a float64 array: the stored element. *)
Definition setitem (v : json F) : result F :=
  match v with
  | JFloat x => Ok x
  | _ => setitem_other v
  end.

(** [in_file["pairs"][i][k]], as stored. *)
Definition coordinate (in_file : json F) (i : nat) (k : String.string) : result F :=
  pairs <-- json_getitem in_file "pairs" ;;
  pair <-- json_index pairs i ;;
  v <-- json_getitem pair k ;;
  setitem v.

(** The body of the loop of [calculate]. *)
Definition load_pair (in_file : json F) (i : nat) : result (F * F * (F * F)) :=
  x0 <-- coordinate in_file i "x0" ;;
  x1 <-- coordinate in_file i "x1" ;;
  y0 <-- coordinate in_file i "y0" ;;
  y1 <-- coordinate in_file i "y1" ;;
  Ok (x0, y0, (x1, y1)).

Definition call_haversine (phis0 thetas0 phis1 thetas1 : list F) (radius : json F)
  : result (list F) :=
  match radius with
  | JFloat r =>
      match haversine_distance phis0 thetas0 phis1 thetas1 r with
      | Some d => Ok d
      | None => Raise ValueError
      end
  | _ => radius_other radius phis0 thetas0 phis1 thetas1
  end.

(** [calculate], from the loaded value to the two averages it prints:
    the one read and the one computed. *)
Definition calculate (in_file : json F) : result (json F * F) :=
  pairs <-- json_getitem in_file "pairs" ;;
  n_pairs <-- json_len pairs ;;
  loaded <-- for_each (load_pair in_file) (seq 0 n_pairs) ;;
  let phis_0 := map (fun q => fst (fst q)) loaded in
  let phis_1 := map (fun q => fst (snd q)) loaded in
  let thetas_0 := map (fun q => snd (fst q)) loaded in
  let thetas_1 := map (fun q => snd (snd q)) loaded in
  radius <-- json_getitem in_file "radius" ;;
  distances <-- call_haversine phis_0 thetas_0 phis_1 thetas_1 radius ;;
  let avg_dist := np_average distances in
  read <-- json_getitem in_file "avg_dist" ;;
  Ok (read, avg_dist).

(** *** [generate] *)

Variable rng : Type.
Variable uniform : Q -> Q -> rng -> Q * rng.

(** The sampled coordinates, as elements of the arrays of the engine. *)
Variable of_Q : Q -> F.

Notation "x <- m ;; k" := (bind rng m (fun x => k))
  (at level 61, m at next level, right associativity).

Definition column0 (a : rows) : list F := map (fun r => of_Q (fst r)) a.
Definition column1 (a : rows) : list F := map (fun r => of_Q (snd r)) a.

Definition pair_record (xs ys : Q * Q) : json F :=
  JObj [("x0", JFloat (of_Q (fst xs)));
        ("y0", JFloat (of_Q (fst ys)));
        ("x1", JFloat (of_Q (snd xs)));
        ("y1", JFloat (of_Q (snd ys)))].

(** [generate], from its arguments to the dict it hands to [json.dump];
    [total_time] is [end_time - start_time], by which [pairs] is divided. *)
Definition generate (pairs : Z) (radius : F) (clusters : Z) (total_time : Q)
  : M rng (json F) :=
  sampled <- generate_pairs rng uniform pairs clusters ;;
  let phis := fst sampled in
  let thetas := snd sampled in
  distances <-
    (match haversine_distance (column0 phis) (column0 thetas)
                              (column1 phis) (column1 thetas) radius with
     | Some d => ret rng d
     | None => raise rng
     end) ;;
  let avg_dist := np_average distances in
  _ <- assert rng (negb (Qeq_bool total_time 0)) ;;
  ret rng
    (JObj [("pairs",
            JArr (map (fun p => pair_record (fst p) (snd p)) (combine phis thetas)));
           ("avg_dist", JFloat avg_dist);
           ("radius", JFloat radius)]).

End Commands.

(** [np.average] in exact arithmetic: the sum over the length, and NaN
    for an empty array. *)
Definition average_real (l : list npreal) : npreal :=
  re_div (fold_right (lift2 Rplus) (Fin 0) l) (Fin (INR (length l))).

(** A pair record holding the four coordinates [q] as floats. *)
Definition holds {F} (pair : json F) (q : F * F * (F * F)) : Prop :=
  json_getitem pair "x0" = Ok (JFloat (fst (fst q))) /\
  json_getitem pair "y0" = Ok (JFloat (snd (fst q))) /\
  json_getitem pair "x1" = Ok (JFloat (fst (snd q))) /\
  json_getitem pair "y1" = Ok (JFloat (snd (snd q))).

Definition coordinate_keys : list String.string := ["x0"; "x1"; "y0"; "y1"].

Section CommandFacts.

Context {F : Type} `{Scalar F}.
Variable np_average : list F -> F.
Variable setitem_other : json F -> result F.
Variable radius_other : json F -> list F -> list F -> list F -> list F -> result (list F).

Lemma rbind_Ok {A B} (m : result A) (k : A -> result B) b :
  rbind m k = Ok b -> exists a, m = Ok a /\ k a = Ok b.
Proof. destruct m as [a|e]; [|discriminate]. intros E. now exists a. Qed.

Lemma for_each_nth {B} (f : nat -> result B) (l : list B) (a : nat) :
  (forall i x, nth_error l i = Some x -> f (a + i)%nat = Ok x) ->
  for_each f (seq a (length l)) = Ok l.
Proof.
  revert a. induction l as [|x l IH]; intros a Hf; [reflexivity|].
  cbn [length seq for_each].
  rewrite <- (Nat.add_0_r a) at 1. rewrite (Hf 0%nat x eq_refl). cbn [rbind].
  rewrite IH; [reflexivity|].
  intros i y Hy. replace (S a + i)%nat with (a + S i)%nat by lia. apply Hf. exact Hy.
Qed.

Lemma for_each_Ok_inv {A B} (f : A -> result B) (l : list A) r :
  for_each f l = Ok r -> forall a, In a l -> exists b, f a = Ok b.
Proof.
  revert r. induction l as [|x l IH]; intros r E a Ha; [destruct Ha|].
  cbn [for_each] in E. apply rbind_Ok in E. destruct E as (b & Eb & E).
  apply rbind_Ok in E. destruct E as (bs & Ebs & _).
  destruct Ha as [<-|Ha]; [now exists b | now apply (IH bs)].
Qed.

Lemma Forall2_nth_r {A B} (R : A -> B -> Prop) (l : list A) (l' : list B) i y :
  Forall2 R l l' -> nth_error l' i = Some y ->
  exists x, nth_error l i = Some x /\ R x y.
Proof.
  intros HF. revert i. induction HF as [|x y' l l' Hxy _ IH]; intros [|i] Hi;
    try discriminate.
  - injection Hi as <-. now exists x.
  - now apply IH.
Qed.

Lemma load_pair_holds in_file elems i pair q :
  json_getitem in_file "pairs" = Ok (JArr elems) ->
  nth_error elems i = Some pair -> holds pair q ->
  load_pair setitem_other in_file i = Ok q.
Proof.
  intros Hp Hi (H0 & H1 & H2 & H3).
  unfold load_pair, coordinate. rewrite Hp. cbn [rbind json_index].
  rewrite Hi. cbn [rbind]. rewrite H0, H1, H2, H3. cbn [rbind setitem].
  now destruct q as [[a b] [c d]].
Qed.

Lemma load_pair_coordinate in_file i q k :
  load_pair setitem_other in_file i = Ok q -> In k coordinate_keys ->
  exists x, coordinate setitem_other in_file i k = Ok x.
Proof.
  unfold load_pair. intros E Hk.
  apply rbind_Ok in E. destruct E as (x0 & E0 & E).
  apply rbind_Ok in E. destruct E as (x1 & E1 & E).
  apply rbind_Ok in E. destruct E as (y0 & E2 & E).
  apply rbind_Ok in E. destruct E as (y1 & E3 & _).
  destruct Hk as [<-|[<-|[<-|[<-|[]]]]]; eauto.
Qed.

Lemma aligned_quads (f : F -> F -> F -> F -> F) (quads : list (F * F * (F * F))) :
  aligned f (map (fun q => fst (fst q)) quads) (map (fun q => snd (fst q)) quads)
            (map (fun q => fst (snd q)) quads) (map (fun q => snd (snd q)) quads)
  = map (fun q => f (fst (fst q)) (snd (fst q)) (fst (snd q)) (snd (snd q))) quads.
Proof.
  induction quads as [|q l IH]; [reflexivity|]. cbn [map aligned]. now rewrite IH.
Qed.

Lemma calculate_holds in_file elems quads r read :
  json_getitem in_file "pairs" = Ok (JArr elems) ->
  Forall2 holds elems quads ->
  json_getitem in_file "radius" = Ok (JFloat r) ->
  json_getitem in_file "avg_dist" = Ok read ->
  calculate np_average setitem_other radius_other in_file
  = Ok (read,
        np_average
          (map (fun q => haversine_formula (fst (fst q)) (snd (fst q))
                                           (fst (snd q)) (snd (snd q)) r) quads)).
Proof.
  intros Hp Hq Hr Ha. unfold calculate. rewrite Hp. cbn [rbind json_len].
  rewrite (Forall2_length Hq).
  rewrite (for_each_nth (load_pair setitem_other in_file) quads 0).
  - cbn [rbind]. rewrite Hr. cbn [rbind call_haversine].
    rewrite haversine_aligned by (rewrite !length_map; reflexivity).
    cbn [rbind]. rewrite Ha. cbn [rbind]. now rewrite aligned_quads.
  - intros i q Hi. cbn [Nat.add].
    destruct (Forall2_nth_r holds elems quads i q Hq Hi) as (pair & Hpair & Hh).
    exact (load_pair_holds in_file elems i pair q Hp Hpair Hh).
Qed.

Lemma calculate_Ok_inv in_file out :
  calculate np_average setitem_other radius_other in_file = Ok out ->
  (exists pairs, json_getitem in_file "pairs" = Ok pairs) /\
  (exists radius, json_getitem in_file "radius" = Ok radius) /\
  json_getitem in_file "avg_dist" = Ok (fst out) /\
  (forall elems pair k,
      json_getitem in_file "pairs" = Ok (JArr elems) ->
      In pair elems -> In k coordinate_keys ->
      exists v, json_getitem pair k = Ok v).
Proof.
  unfold calculate. intros E.
  apply rbind_Ok in E. destruct E as (pairs & Hp & E).
  apply rbind_Ok in E. destruct E as (n & Hn & E).
  apply rbind_Ok in E. destruct E as (loaded & Hl & E). cbv zeta in E.
  apply rbind_Ok in E. destruct E as (radius & Hr & E).
  apply rbind_Ok in E. destruct E as (d & Hd & E).
  apply rbind_Ok in E. destruct E as (read & Ha & E).
  injection E as <-. cbn [fst].
  split; [now exists pairs|]. split; [now exists radius|]. split; [exact Ha|].
  intros elems pair k Hp' Hin Hk. rewrite Hp in Hp'. injection Hp' as ->.
  cbn [json_len] in Hn. injection Hn as <-.
  apply In_nth_error in Hin. destruct Hin as (i & Hi).
  assert (Hlt : (i < length elems)%nat)
    by (apply nth_error_Some; rewrite Hi; discriminate).
  destruct (for_each_Ok_inv _ _ _ Hl i) as (q & Hq); [apply in_seq; lia|].
  destruct (load_pair_coordinate in_file i q k Hq Hk) as (x & Hx).
  unfold coordinate in Hx. rewrite Hp in Hx. cbn [rbind json_index] in Hx.
  rewrite Hi in Hx. cbn [rbind] in Hx.
  destruct (json_getitem pair k) as [v|e]; [now exists v | discriminate].
Qed.

(** *** Facts about [generate] *)

Variable rng : Type.
Variable uniform : Q -> Q -> rng -> Q * rng.
Variable of_Q : Q -> F.

Definition quad_of (p : Q * Q * (Q * Q)) : F * F * (F * F) :=
  (of_Q (fst (fst p)), of_Q (fst (snd p)), (of_Q (snd (fst p)), of_Q (snd (snd p)))).

Lemma pair_record_holds (p : Q * Q * (Q * Q)) :
  holds (pair_record of_Q (fst p) (snd p)) (quad_of p).
Proof. repeat split. Qed.

Lemma aligned_columns (f : F -> F -> F -> F -> F) (phis thetas : rows) :
  length phis = length thetas ->
  aligned f (column0 of_Q phis) (column0 of_Q thetas)
            (column1 of_Q phis) (column1 of_Q thetas)
  = map (fun q => f (fst (fst q)) (snd (fst q)) (fst (snd q)) (snd (snd q)))
        (map quad_of (combine phis thetas)).
Proof.
  revert thetas. induction phis as [|xs phis IH]; intros [|ys thetas] L;
    try discriminate; [reflexivity|].
  injection L as L. cbn [column0 column1 map aligned combine] in *.
  f_equal. apply IH. exact L.
Qed.

Lemma generate_Some pairs radius clusters total_time g record g' :
  generate np_average rng uniform of_Q pairs radius clusters total_time g
  = Some (record, g') ->
  exists phis thetas,
    generate_pairs rng uniform pairs clusters g = Some (phis, thetas, g') /\
    length phis = length thetas /\
    Qeq_bool total_time 0 = false /\
    record
    = JObj [("pairs",
             JArr (map (fun p => pair_record of_Q (fst p) (snd p)) (combine phis thetas)));
            ("avg_dist",
             JFloat (np_average
                       (aligned (fun a b c d => haversine_formula a b c d radius)
                                (column0 of_Q phis) (column0 of_Q thetas)
                                (column1 of_Q phis) (column1 of_Q thetas))));
            ("radius", JFloat radius)].
Proof.
  unfold generate. intros Hg.
  apply bind_Some in Hg. destruct Hg as ([phis thetas] & g1 & Hs & Hg).
  cbn [fst snd] in Hg.
  assert (L : length phis = length thetas).
  { pose proof (generate_pairs_emitted rng uniform _ _ _ _ _ _ Hs) as E.
    cbv zeta in E. destruct E as [E1 E2]. rewrite <- E2 in E1.
    exact (Nat2Z.inj _ _ E1). }
  rewrite haversine_aligned in Hg
    by (unfold column0, column1; rewrite !length_map; auto).
  apply bind_Some in Hg. destruct Hg as (d & g2 & Hd & Hg).
  unfold ret in Hd. injection Hd as <- <-.
  apply bind_Some in Hg. destruct Hg as ([] & g3 & Ht & Hg).
  unfold assert in Ht.
  destruct (Qeq_bool total_time 0) eqn:Et; [discriminate|].
  cbn [negb] in Ht. unfold ret in Ht, Hg. injection Ht as <-. injection Hg as <- <-.
  exists phis, thetas. auto.
Qed.

Lemma generate_total pairs radius clusters total_time g :
  (0 <= pairs <= 2 ^ 53)%Z -> (1 <= clusters <= 2 ^ 53)%Z ->
  Qeq_bool total_time 0 = false ->
  exists record g',
    generate np_average rng uniform of_Q pairs radius clusters total_time g
    = Some (record, g').
Proof.
  intros HP HN Ht.
  destruct (generate_pairs_total rng uniform pairs clusters g HP HN)
    as (phis & thetas & g' & Hs).
  assert (L : length phis = length thetas).
  { pose proof (generate_pairs_emitted rng uniform _ _ _ _ _ _ Hs) as E.
    cbv zeta in E. destruct E as [E1 E2]. rewrite <- E2 in E1.
    exact (Nat2Z.inj _ _ E1). }
  unfold generate. eexists. exists g'.
  apply bind_Some. exists (phis, thetas), g'. split; [exact Hs|].
  cbn [fst snd].
  rewrite haversine_aligned
    by (unfold column0, column1; rewrite !length_map; auto).
  apply bind_Some. eexists. exists g'. split; [reflexivity|].
  rewrite Ht. reflexivity.
Qed.

End CommandFacts.

(** [calculate] on a well-formed file: when every pair holds its four
    coordinates as floats and the radius is a float, the computed average
    is [np.average] of the haversine formula over the pairs, in order, and
    the stored average is printed as read, whatever it is. *)
Theorem calculate_recomputes
  (F : Type) (S : Scalar F) (np_average : list F -> F)
  (setitem_other : json F -> result F)
  (radius_other : json F -> list F -> list F -> list F -> list F -> result (list F))
  (in_file : json F) (elems : list (json F)) (quads : list (F * F * (F * F)))
  (r : F) (read : json F) :
  json_getitem in_file "pairs" = Ok (JArr elems) ->
  Forall2 holds elems quads ->
  json_getitem in_file "radius" = Ok (JFloat r) ->
  json_getitem in_file "avg_dist" = Ok read ->
  calculate np_average setitem_other radius_other in_file
  = Ok (read,
        np_average
          (map (fun q => haversine_formula (fst (fst q)) (snd (fst q))
                                           (fst (snd q)) (snd (snd q)) r) quads)).
Proof. apply calculate_holds. Qed.

Definition sample_file : json npreal :=
  JObj [("radius", JFloat (Fin 1));
        ("pairs",
         JArr [JObj [("x0", JFloat (Fin 0)); ("y0", JFloat (Fin 0));
                ("x1", JFloat (Fin 90)); ("y1", JFloat (Fin 0)); ("note", JNull)];
          JObj [("y1", JFloat (Fin 45)); ("x1", JFloat (Fin 10));
                ("y0", JFloat (Fin 30)); ("x0", JFloat (Fin 20))]]);
        ("avg_dist", JStr "unknown")].

Definition sample_quads : list (npreal * npreal * (npreal * npreal)) :=
  [(Fin 0, Fin 0, (Fin 90, Fin 0)); (Fin 20, Fin 30, (Fin 10, Fin 45))].

Definition no_setitem (v : json npreal) : result npreal := Raise TypeError.
Definition no_radius (v : json npreal) (a b c d : list npreal)
  : result (list npreal) := Raise TypeError.

Lemma sample_file_holds :
  match json_getitem sample_file "pairs" with
  | Ok (JArr elems) => Forall2 holds elems sample_quads
  | _ => False
  end.
Proof. cbn. repeat constructor. Qed.

Lemma calculate_recomputes_witness :
  calculate average_real no_setitem no_radius sample_file
  = Ok (JStr "unknown",
        average_real
          (map (fun q => haversine_formula (fst (fst q)) (snd (fst q))
                                           (fst (snd q)) (snd (snd q)) (Fin 1))
               sample_quads)).
Proof.
  apply (calculate_recomputes npreal npreal_scalar average_real no_setitem no_radius
           sample_file
           [JObj [("x0", JFloat (Fin 0)); ("y0", JFloat (Fin 0));
                  ("x1", JFloat (Fin 90)); ("y1", JFloat (Fin 0)); ("note", JNull)];
            JObj [("y1", JFloat (Fin 45)); ("x1", JFloat (Fin 10));
                  ("y0", JFloat (Fin 30)); ("x0", JFloat (Fin 20))]]
           sample_quads (Fin 1) (JStr "unknown")).
  - reflexivity.
  - exact sample_file_holds.
  - reflexivity.
  - reflexivity.
Defined.

(** [calculate] prints its two averages only for a complete file: the
    loaded value has the keys ["pairs"], ["radius"] and ["avg_dist"], the
    average printed as read is the value of ["avg_dist"], and when
    ["pairs"] is a list every element of it has the four coordinate
    keys.  On any other file it raises. *)
Theorem calculate_requires_complete_file
  (F : Type) (S : Scalar F) (np_average : list F -> F)
  (setitem_other : json F -> result F)
  (radius_other : json F -> list F -> list F -> list F -> list F -> result (list F))
  (in_file : json F) (out : json F * F) :
  calculate np_average setitem_other radius_other in_file = Ok out ->
  (exists pairs, json_getitem in_file "pairs" = Ok pairs) /\
  (exists radius, json_getitem in_file "radius" = Ok radius) /\
  json_getitem in_file "avg_dist" = Ok (fst out) /\
  (forall elems pair k,
      json_getitem in_file "pairs" = Ok (JArr elems) ->
      In pair elems -> In k coordinate_keys ->
      exists v, json_getitem pair k = Ok v).
Proof. apply calculate_Ok_inv. Qed.

Lemma calculate_requires_complete_file_witness :
  (exists pairs, json_getitem sample_file "pairs" = Ok pairs) /\
  (exists radius, json_getitem sample_file "radius" = Ok radius) /\
  json_getitem sample_file "avg_dist" = Ok (JStr "unknown") /\
  (forall elems pair k,
      json_getitem sample_file "pairs" = Ok (JArr elems) ->
      In pair elems -> In k coordinate_keys ->
      exists v, json_getitem pair k = Ok v).
Proof.
  assert (E : calculate average_real no_setitem no_radius sample_file
              = Ok (JStr "unknown",
                    average_real
                      (map (fun q => haversine_formula (fst (fst q)) (snd (fst q))
                                       (fst (snd q)) (snd (snd q)) (Fin 1))
                           sample_quads))).
  { apply (calculate_holds average_real no_setitem no_radius sample_file
             [JObj [("x0", JFloat (Fin 0)); ("y0", JFloat (Fin 0));
                    ("x1", JFloat (Fin 90)); ("y1", JFloat (Fin 0)); ("note", JNull)];
              JObj [("y1", JFloat (Fin 45)); ("x1", JFloat (Fin 10));
                    ("y0", JFloat (Fin 30)); ("x0", JFloat (Fin 20))]]
             sample_quads (Fin 1) (JStr "unknown")).
    - reflexivity.
    - exact sample_file_holds.
    - reflexivity.
    - reflexivity. }
  exact (calculate_requires_complete_file npreal npreal_scalar average_real
           no_setitem no_radius sample_file _ E).
Defined.

(** Round trip: on the dict that [generate] saves, [calculate] recomputes
    the stored average: the average it reads and the average it computes
    are the same value. *)
Theorem generate_then_calculate
  (F : Type) (S : Scalar F) (np_average : list F -> F)
  (setitem_other : json F -> result F)
  (radius_other : json F -> list F -> list F -> list F -> list F -> result (list F))
  (rng : Type) (uniform : Q -> Q -> rng -> Q * rng) (of_Q : Q -> F)
  (pairs : Z) (radius : F) (clusters : Z) (total_time : Q)
  (g : rng) (record : json F) (g' : rng) :
  generate np_average rng uniform of_Q pairs radius clusters total_time g
  = Some (record, g') ->
  exists avg_dist,
    json_getitem record "avg_dist" = Ok (JFloat avg_dist) /\
    calculate np_average setitem_other radius_other record
    = Ok (JFloat avg_dist, avg_dist).
Proof.
  intros Hg. apply generate_Some in Hg.
  destruct Hg as (phis & thetas & _ & L & _ & ->).
  eexists. split; [reflexivity|].
  etransitivity.
  { apply (calculate_holds np_average setitem_other radius_other _
             (map (fun p => pair_record of_Q (fst p) (snd p)) (combine phis thetas))
             (map (quad_of of_Q) (combine phis thetas)) radius).
    - reflexivity.
    - clear L. induction (combine phis thetas) as [|p l IH]; constructor.
      + apply pair_record_holds.
      + exact IH.
    - reflexivity.
    - reflexivity. }
  now rewrite aligned_columns by exact L.
Qed.

Definition real_of_Q (q : Q) : npreal := Fin (Q2R q).

Lemma generate_then_calculate_witness :
  exists record g' avg_dist,
    generate average_real nat counter_uniform real_of_Q 4 (Fin 1) 2 1 0%nat
    = Some (record, g') /\
    json_getitem record "avg_dist" = Ok (JFloat avg_dist) /\
    calculate average_real no_setitem no_radius record = Ok (JFloat avg_dist, avg_dist).
Proof.
  assert (HP : (0 <= 4 <= 2 ^ 53)%Z) by (split; discriminate).
  assert (HN : (1 <= 2 <= 2 ^ 53)%Z) by (split; discriminate).
  destruct (generate_total average_real nat counter_uniform real_of_Q
              4 (Fin 1) 2 1 0%nat HP HN eq_refl) as (record & g' & Hg).
  destruct (generate_then_calculate npreal npreal_scalar average_real
              no_setitem no_radius nat counter_uniform real_of_Q
              4 (Fin 1) 2 1 0%nat record g' Hg) as (avg_dist & Ha & Hc).
  exists record, g', avg_dist. split; [exact Hg|]. split; [exact Ha | exact Hc].
Defined.

(** For [0 <= pairs], [1 <= clusters], [(pairs + 1) * clusters <= 2^50]
    and a clock that advanced, [generate] saves a dict with the keys
    ["pairs"], ["avg_dist"] and ["radius"], in that order, whose list of
    pairs has [pairs] elements for one cluster and
    [(clusters - 1) * pairs / clusters] elements otherwise. *)
Theorem generate_saves_emitted_pairs
  (F : Type) (S : Scalar F) (np_average : list F -> F)
  (rng : Type) (uniform : Q -> Q -> rng -> Q * rng) (of_Q : Q -> F)
  (pairs : Z) (radius : F) (clusters : Z) (total_time : Q) (g : rng) :
  (0 <= pairs)%Z -> (1 <= clusters)%Z -> ((pairs + 1) * clusters <= 2 ^ 50)%Z ->
  ~ total_time == 0 ->
  exists elems avg_dist g',
    generate np_average rng uniform of_Q pairs radius clusters total_time g
    = Some (JObj [("pairs", JArr elems);
                  ("avg_dist", JFloat avg_dist);
                  ("radius", JFloat radius)], g') /\
    Z.of_nat (length elems)
    = (if clusters =? 1 then pairs else (clusters - 1) * pairs / clusters)%Z.
Proof.
  intros HP HN Hs Ht.
  assert (B : (pairs <= 2 ^ 53 /\ clusters <= 2 ^ 53 /\ pairs * clusters <= 2 ^ 50)%Z)
    by (assert (2 ^ 50 < 2 ^ 53)%Z by reflexivity; nia).
  destruct B as (B1 & B2 & B3).
  assert (Et : Qeq_bool total_time 0 = false).
  { destruct (Qeq_bool total_time 0) eqn:E; [|reflexivity].
    apply Qeq_bool_iff in E. contradiction. }
  destruct (generate_total np_average rng uniform of_Q pairs radius clusters
              total_time g (conj HP B1) (conj HN B2) Et) as (record & g' & Hg).
  pose proof Hg as Hg'. apply generate_Some in Hg'.
  destruct Hg' as (phis & thetas & Hp & L & _ & ->).
  eexists. eexists. exists g'. split; [exact Hg|].
  rewrite length_map, length_combine, <- L, Nat.min_id.
  destruct (Z.eqb_spec clusters 1) as [->|Hc].
  - exact (proj1 (generate_pairs_emitted_single rng uniform pairs g phis thetas g'
                    (conj HP B1) Hp)).
  - rewrite (proj1 (generate_pairs_emitted_bp rng uniform pairs clusters g phis thetas g'
                      (conj HP B1) ltac:(lia) Hp)).
    apply floor_bp_last; [exact HP | lia | exact B3].
Qed.

Lemma generate_saves_emitted_pairs_witness :
  exists elems avg_dist g',
    generate average_real nat counter_uniform real_of_Q 5 (Fin 1) 3 1 0%nat
    = Some (JObj [("pairs", JArr elems);
                  ("avg_dist", JFloat avg_dist);
                  ("radius", JFloat (Fin 1))], g') /\
    Z.of_nat (length elems) = 3%Z.
Proof.
  assert (H0 : (0 <= 5)%Z) by discriminate.
  assert (H1 : (1 <= 3)%Z) by discriminate.
  assert (H2 : ((5 + 1) * 3 <= 2 ^ 50)%Z) by discriminate.
  assert (H3 : ~ 1 == 0) by (intros E; discriminate E).
  exact (generate_saves_emitted_pairs npreal npreal_scalar average_real
           nat counter_uniform real_of_Q 5 (Fin 1) 3 1 0%nat H0 H1 H2 H3).
Defined.

End Cli.
